(** * A shallow embedding of the 302 ray tracer (C++) and its specification

    The C++ [double] is IEEE 754 binary64, which is Rocq's primitive [float];
    every arithmetic operation and comparison of the source is therefore the
    primitive operation of the same name, and concrete runs evaluate. *)

From Stdlib Require Import ZArith List Bool Lia Floats.
From Stdlib Require String Ascii DecimalString.
Import ListNotations.

Set Warnings "-inexact-float,-register-all".

(** ** utils.h *)

Definition inf : float := infinity.

(** [std::min], [std::max] and [std::fmax] of <cmath>/<algorithm> on doubles:
    [std::min(a,b)] is [(b < a) ? b : a], [std::max(a,b)] is [(a < b) ? b : a],
    [fmax] ignores a NaN argument. *)
Definition std_min (a b : float) : float := if (b <? a)%float then b else a.
Definition std_max (a b : float) : float := if (a <? b)%float then b else a.
Definition fmax (a b : float) : float :=
  if is_nan a then b else if is_nan b then a
  else if (a <? b)%float then b else a.

(** ** vec3.h, color.h *)

Module Vec3.

  (** Modelled from the spec: vec3.h and color.h are not under src/.  The spec
      has "3-component real vectors with arithmetic, dot/cross product,
      normalization, length"; the component formulas are those of the sibling
      [float3_simple] of camera_cuda.cu, on doubles. *)
Record t := mk { x : float; y : float; z : float }.

Definition add (u v : t) : t := mk (x u + x v) (y u + y v) (z u + z v).
Definition sub (u v : t) : t := mk (x u - x v) (y u - y v) (z u - z v).
Definition neg (v : t) : t := mk (- x v) (- y v) (- z v).
  (** [k * v] and [v * k] *)
Definition scale (k : float) (v : t) : t := mk (x v * k) (y v * k) (z v * k).
  (** [v / k] *)
Definition div (v : t) (k : float) : t := mk (x v / k) (y v / k) (z v / k).
  (** [u * v], the component-wise product of two colours *)
Definition mul (u v : t) : t := mk (x u * x v) (y u * y v) (z u * z v).

Definition dot (a b : t) : float := x a * x b + y a * y b + z a * z b.
Definition cross (a b : t) : t :=
    mk (y a * z b - z a * y b) (z a * x b - x a * z b) (x a * y b - y a * x b).
Definition length_squared (v : t) : float := x v * x v + y v * y v + z v * z v.
Definition length (v : t) : float := sqrt (length_squared v).
Definition unit_vector (v : t) : t := div v (length v).

End Vec3.

Abbreviation Vec3 := Vec3.t.
Abbreviation Point3 := Vec3.t.
Abbreviation Color := Vec3.t.

(** ** ray.h *)

Module Ray.

Record t := mk { orig : Point3; dir : Vec3 }.

Definition origin (r : t) : Point3 := orig r.
Definition direction (r : t) : Vec3 := dir r.

  (** [Ray::at] *)
Definition at_ (r : t) (k : float) : Point3 :=
    Vec3.add (orig r) (Vec3.scale k (dir r)).

End Ray.

Abbreviation Ray := Ray.t.

(** ** interval.h *)

Module Interval.

Record t := mk { min : float; max : float }.

Definition empty : t := mk inf (- inf).
Definition universe : t := mk (- inf) inf.

Definition size (i : t) : float := (max i - min i)%float.
Definition contains (i : t) (v : float) : bool :=
    (min i <=? v)%float && (v <=? max i)%float.
Definition surrounds (i : t) (v : float) : bool :=
    (min i <? v)%float && (v <? max i)%float.
Definition clamp (i : t) (v : float) : float :=
    std_max (min i) (std_min v (max i)).

End Interval.

Abbreviation Interval := Interval.t.

(** ** material.h: the classes *)

(** The class hierarchy of material.h as a closed variant: the base class
    [Material] is concrete (its [scatter] has a body), so it is a variant of
    its own next to its three subclasses. *)
Inductive Material : Type :=
| BaseMaterial
| Constant (color : Color)
| ShowNormals (albedo : Color)
| Lambertian (albedo : Color).

(** ** hittable.h *)

Module Hit_record.

  (** [mat_ptr] is a [shared_ptr]: [None] is the null pointer of a
      default-constructed record.  Materials are immutable, so the pointer is
      modelled by the value it points to. *)
Record record := mk {
    p : Point3;
    normal : Vec3;
    t : float;
    frontFacing : bool;
    mat_ptr : option Material
  }.

Definition set_face_normal (r : Ray) (outward_normal : Vec3) (rec : record)
    : record :=
    let ff := (Vec3.dot (Ray.direction r) outward_normal <? 0)%float in
    mk (p rec)
       (if ff then outward_normal else Vec3.neg outward_normal)
       (t rec) ff (mat_ptr rec).

End Hit_record.

Abbreviation Hit_record := Hit_record.record.

(** ** sphere.h *)

Module Sphere.

Record t := mk { center : Point3; radius : float; mat : Material }.

  (** The constructor clamps the radius with [std::fmax(0, radius)]. *)
Definition make (c : Point3) (r : float) (m : Material) : t :=
    mk c (fmax 0 r) m.

  (** [Sphere::hit]: the record is passed by reference and comes back with
      the fields the code assigns; [frontFacing] is not among them. *)
Definition hit (s : t) (r : Ray) (ray_t : Interval) (rec : Hit_record)
    : bool * Hit_record :=
    let oc := Vec3.sub (center s) (Ray.origin r) in
    let a := Vec3.length_squared (Ray.direction r) in
    let h := Vec3.dot (Ray.direction r) oc in
    let c := (Vec3.length_squared oc - radius s * radius s)%float in
    let discriminant := (h * h - a * c)%float in
    if (discriminant <? 0)%float then (false, rec)
    else
      let sqrtd := sqrt discriminant in
      let root := ((h - sqrtd) / a)%float in
      let accept (root : float) :=
        let rec_p := Ray.at_ r root in
        (true,
         Hit_record.mk rec_p
           (Vec3.div (Vec3.sub rec_p (center s)) (radius s))
           root
           (Hit_record.frontFacing rec)
           (Some (mat s))) in
      if negb (Interval.surrounds ray_t root) then
        let root := ((h + sqrtd) / a)%float in
        if negb (Interval.surrounds ray_t root) then (false, rec)
        else accept root
      else accept root.

End Sphere.

Abbreviation Sphere := Sphere.t.

(** ** hittable_list.h *)

(** The abstract class [Hittable] has two implementations, [Sphere] and
    [Hittable_list]; a list owns [Hittable]s, so lists nest. *)
Inductive Hittable : Type :=
| HSphere (s : Sphere)
| HList (objects : list Hittable).

Module Hittable_list.

  (** What a virtual call [objects[i]->hit(r, ., .)] is, once the ray is
      fixed. *)
Definition hit_fn : Type := Interval -> Hit_record -> bool * Hit_record.

  (** The body of the [for] loop of [Hittable_list::hit] from index [i] on;
      [tmp], [hitSomething], [closestSoFar] and [rec] are the variables of the
      source. *)
Fixpoint loop (objects : list hit_fn) (ray_t_min : float)
      (tmp : Hit_record) (hitSomething : bool) (closestSoFar : float)
      (rec : Hit_record) : bool * Hit_record :=
    match objects with
    | [] => (hitSomething, rec)
    | o :: rest =>
        let (b, tmp') := o (Interval.mk ray_t_min closestSoFar) tmp in
        if b then loop rest ray_t_min tmp' true (Hit_record.t tmp') tmp'
        else loop rest ray_t_min tmp' hitSomething closestSoFar rec
    end.

  (** [Hittable_list::hit]; [fresh] is the content of the local
      [Hit_record tmp;], whose [t] and [frontFacing] are indeterminate. *)
Definition hit (fresh : Hit_record) (objects : list hit_fn)
      (ray_t : Interval) (rec : Hit_record) : bool * Hit_record :=
    loop objects (Interval.min ray_t) fresh false (Interval.max ray_t) rec.

End Hittable_list.

(** Virtual dispatch of [hit] over the two implementations. *)
Fixpoint hit (fresh : Hit_record) (o : Hittable) (r : Ray) {struct o}
  : Interval -> Hit_record -> bool * Hit_record :=
  match o with
  | HSphere s => Sphere.hit s r
  | HList objects =>
      Hittable_list.hit fresh (map (fun o' => hit fresh o' r) objects)
  end.


(** ** camera_cuda.cu: the host side of the hardware-parallel boundary *)

Module Cuda.

Inductive cudaError_t : Type :=
| cudaSuccess
| cudaError (code : positive).

Definition failed (e : cudaError_t) : bool :=
  match e with cudaSuccess => false | cudaError _ => true end.

(** What the CUDA runtime answers to the calls of one [renderPixelsCUDA], in
    the order of the source, and what the device leaves behind: the content of
    [d_image] after [renderKernel] for a given width and height, and the host
    buffer after a [cudaMemcpy] that failed. *)
Record device := mkDevice {
  malloc_err1 : cudaError_t;
  malloc_err2 : cudaError_t;
  init_err : cudaError_t;
  kernel_err : cudaError_t;
  copy_err : cudaError_t;
  kernel_image : Z -> Z -> list Z;
  torn_copy : list Z -> list Z
}.

(** The lines the host function and the camera print. *)
Inductive message : Type :=
| RendererStarting
| MallocError
| RandomStateInitError
| TileGridSize
| KernelError
| MemoryCopyError
| RenderingCompleted
| ImageSaved.

(** [extern "C" renderPixelsCUDA]: the value returned, the host buffer and
    the lines printed.  The twelve [double] arguments are the components of
    the four vectors; they only travel to the kernel. *)
Definition renderPixelsCUDA (dev : device) (image : list Z) (width height : Z)
    (cam_center pixel00 delta_u delta_v : Vec3)
    (samples_per_pixel max_depth : Z) : Z * list Z * list message :=
  if failed (malloc_err1 dev) || failed (malloc_err2 dev)
  then (0%Z, image, [MallocError])
  else if failed (init_err dev)
  then (0%Z, image, [RandomStateInitError])
  else if failed (kernel_err dev)
  then (0%Z, image, [TileGridSize; KernelError])
  else if failed (copy_err dev)
  then (0%Z, torn_copy dev image, [TileGridSize; MemoryCopyError])
  else (1%Z, kernel_image dev width height, [TileGridSize]).

(** Every runtime call of the run succeeded. *)
Definition all_succeed (dev : device) : bool :=
  negb (failed (malloc_err1 dev) || failed (malloc_err2 dev)
        || failed (init_err dev) || failed (kernel_err dev)
        || failed (copy_err dev)).

End Cuda.


(** ** What the renderer takes from outside the sources under study *)

(** The generator of [RndGen] is a thread-local [std::mt19937] of the C++
    library, and [Vec3::random_in_hemisphere], [Vec3::near_zero] and the default
    constructor of [Vec3] live in vec3.h, which is not under src/: they are
    taken as parameters.  [Rnd] is the state of one thread's generator. *)
Class Platform : Type := {
  Rnd : Type;
  (** [RndGen::random_double()]: a draw in [0,1) and the generator after it *)
  random_double : Rnd -> float * Rnd;
  random_in_hemisphere : Vec3 -> Rnd -> Vec3 * Rnd;
  near_zero : Vec3 -> bool;
  (** the content of a default-constructed [Hit_record] *)
  fresh_record : Hit_record;
  (** the content of a default-constructed [Vec3] *)
  fresh_vec : Vec3
}.

(** ** material.h: [scatter] *)

Module Material.

(** [scatter] writes [attenuation] and [scattered] through references; the
    model returns them next to the flag, and the generator it drew from. *)
Definition scatter `{Platform} (m : Material) (r_in : Ray) (rec : Hit_record)
    (attenuation : Color) (scattered : Ray) (g : Rnd)
  : bool * Color * Ray * Rnd :=
  match m with
  | BaseMaterial => (false, attenuation, scattered, g)
  | Constant color =>
      (false, color, Ray.mk (Hit_record.p rec) (Vec3.mk 0 0 0), g)
  | ShowNormals _ =>
      (false,
       Vec3.scale 0.5 (Vec3.add (Hit_record.normal rec) (Vec3.mk 1 1 1)),
       Ray.mk (Hit_record.p rec) (Vec3.mk 0 0 0), g)
  | Lambertian albedo =>
      let (v, g') := random_in_hemisphere (Hit_record.normal rec) g in
      let scatter_direction := Vec3.add (Hit_record.normal rec) v in
      let scatter_direction :=
        if near_zero scatter_direction then Hit_record.normal rec
        else scatter_direction in
      (true, albedo, Ray.mk (Hit_record.p rec) scatter_direction, g')
  end.

End Material.

(** ** Conversions between the C++ number types *)

(** [int] to [double] *)
Definition of_int (n : Z) : float :=
  SF2Prim (binary_normalize prec emax n 0 false).

(** [double] to [float], kept as the double of the same value: rounding to
    the nearest binary32. *)
Definition to_float32 (v : float) : float :=
  match Prim2SF v with
  | S754_finite s m e => SF2Prim (binary_round 24 128 s m e)
  | _ => v
  end.

(** [static_cast<int>(double)]: truncation toward zero.  The cast of a NaN or
    an infinity is undefined in C++; the model gives it 0, and [setPixel] only
    casts clamped values. *)
Definition static_cast_int (v : float) : Z :=
  match Prim2SF v with
  | S754_finite s m e => cond_Zopp s (Z.shiftl (Zpos m) e)
  | _ => 0%Z
  end.

(** [int] to [unsigned char] *)
Definition to_uchar (n : Z) : Z := (n mod 256)%Z.

(** [v[i] = b] on a [vector<unsigned char>].  An index out of range is
    undefined in C++; the model leaves the vector as it is. *)
Fixpoint vec_set_nat (v : list Z) (i : nat) (b : Z) : list Z :=
  match v, i with
  | [], _ => []
  | _ :: v', O => b :: v'
  | a :: v', S i' => a :: vec_set_nat v' i' b
  end.

Definition vec_set (v : list Z) (i : Z) (b : Z) : list Z :=
  if (i <? 0)%Z then v else vec_set_nat v (Z.to_nat i) b.

(** [v[i]] *)
Definition vec_get (v : list Z) (i : Z) : Z :=
  if (i <? 0)%Z then 0%Z else nth (Z.to_nat i) v 0%Z.

(** The values [a, a+1, ..., b-1] of a [for (int k = a; k < b; ++k)]. *)
Definition int_range (a b : Z) : list Z :=
  map (fun k => (a + Z.of_nat k)%Z) (seq 0 (Z.to_nat (b - a))).

(** ** constants.h *)

Module constants.

Definition CHANNELS : Z := 3.
Definition SAMPLES_PER_PIXEL : Z := 16.
Definition MAX_DEPTH : nat := 16.

End constants.

(** ** camera.h *)

Module Camera.

(** The fields the renderers read.  The viewport geometry ([pixel00_loc],
    [pixel_delta_u], [pixel_delta_v]) is what [initialize] derives from the
    field of view; it is taken as given.  [int] fields are integers of [Z]:
    the source never relies on overflow, which is undefined for [int]. *)
Record t := mk {
  image_width : Z;
  image_height : Z;
  image_channels : Z;
  samples_per_pixel : Z;
  camera_center : Point3;
  pixel00_loc : Point3;
  pixel_delta_u : Vec3;
  pixel_delta_v : Vec3
}.

Definition max_depth : nat := constants.MAX_DEPTH.

(** The gradient [ray_color] returns for a ray that hits nothing; [t] is a
    [float] in the source, and so is [1.0f - t]. *)
Definition background (r : Ray) : Color :=
  let unit_direction := Vec3.unit_vector (Ray.direction r) in
  let t := to_float32 (0.5 * (Vec3.y unit_direction + 1)) in
  Vec3.add (Vec3.scale (to_float32 (1 - t)) (Vec3.mk 1 1 1))
           (Vec3.scale t (Vec3.mk (to_float32 0.5) (to_float32 0.7)
                                  (to_float32 1))).

(** [ray_color]: the colour, the generator after the draws, and the ray
    counter after the [fetch_add]s.  [depth] is a natural number: the source
    stops at [depth <= 0] and is only called with [max_depth].  A hit with a
    null [mat_ptr] would dereference it; no [hit] produces one (see
    [carries_material]), and the model answers black there. *)
Fixpoint ray_color `{Platform} (r : Ray) (world : Hittable) (depth : nat)
    (g : Rnd) (n_rays : Z) : Color * Rnd * Z :=
  match depth with
  | O => (Vec3.mk 0 0 0, g, n_rays)
  | S depth' =>
      let n_rays := (n_rays + 1)%Z in
      let (b, rec) :=
        hit fresh_record world r (Interval.mk 0.0001 inf) fresh_record in
      let scattered := Ray.mk fresh_vec fresh_vec in
      let attenuation := fresh_vec in
      if b then
        match Hit_record.mat_ptr rec with
        | None => (Vec3.mk 0 0 0, g, n_rays)
        | Some (Constant color) => (color, g, n_rays)
        | Some (ShowNormals albedo) =>
            let '(_, attenuation, _, g) :=
              Material.scatter (ShowNormals albedo) r rec attenuation scattered g in
            (attenuation, g, n_rays)
        | Some m =>
            let '(continue, attenuation, scattered, g) :=
              Material.scatter m r rec attenuation scattered g in
            if continue then
              if (Vec3.length (Ray.direction scattered) =? 0)%float
              then (attenuation, g, n_rays)
              else
                let '(c, g, n_rays) := ray_color scattered world depth' g n_rays in
                (Vec3.mul attenuation c, g, n_rays)
            else (background r, g, n_rays)
        end
      else (background r, g, n_rays)
  end.

(** One turn of the sample loop of [computePixelColor]. *)
Definition sample `{Platform} (c : t) (scene : Hittable) (x y : Z)
    (acc : Color * Rnd * Z) : Color * Rnd * Z :=
  let '(pixel_color, g, n_rays) := acc in
  let (d1, g) := random_double g in
  let offset_x := (d1 - 0.5)%float in
  let (d2, g) := random_double g in
  let offset_y := (d2 - 0.5)%float in
  let pixel_center :=
    Vec3.add
      (Vec3.add (pixel00_loc c)
                (Vec3.scale (of_int x + offset_x) (pixel_delta_u c)))
      (Vec3.scale (of_int y + offset_y) (pixel_delta_v c)) in
  let ray_direction := Vec3.sub pixel_center (camera_center c) in
  let ray := Ray.mk (camera_center c) (Vec3.unit_vector ray_direction) in
  let '(s, g, n_rays) := ray_color ray scene max_depth g n_rays in
  (Vec3.add pixel_color s, g, n_rays).

Definition computePixelColor `{Platform} (c : t) (scene : Hittable) (x y : Z)
    (g : Rnd) (n_rays : Z) : Color * Rnd * Z :=
  let '(pixel_color, g, n_rays) :=
    fold_left (fun acc _ => sample c scene x y acc)
              (int_range 0 (samples_per_pixel c))
              (Vec3.mk 0 0 0, g, n_rays) in
  (Vec3.div pixel_color (of_int (samples_per_pixel c)), g, n_rays).

(** [static const Interval intensity(0.0, 0.999)] *)
Definition intensity : Interval := Interval.mk 0 0.999.

(** The byte [setPixel] stores for one channel. *)
Definition channel_byte (v : float) : Z :=
  to_uchar (static_cast_int (Interval.clamp intensity v * 256)).

(** [int index = (y * image_width + x) * image_channels].  The arithmetic
    is that of [int], whose overflow is undefined in C++: the model computes
    it in [Z], and every theorem that reads the buffer at this index takes an
    image whose byte count fits an [int] ([fits_int]), for which neither
    product nor the sum overflows. *)
Definition pixel_index (c : t) (x y : Z) : Z :=
  ((y * image_width c + x) * image_channels c)%Z.

(** The bytes of the image can be counted in an [int]. *)
Definition fits_int (c : t) : Prop :=
  (image_width c * image_height c * image_channels c < 2 ^ 31)%Z.

Definition setPixel (c : t) (image : list Z) (x y : Z) (col : Color) : list Z :=
  let index := pixel_index c x y in
  let image := vec_set image (index + 0) (channel_byte (Vec3.x col)) in
  let image := vec_set image (index + 1) (channel_byte (Vec3.y col)) in
  vec_set image (index + 2) (channel_byte (Vec3.z col)).

(** What the renderers change: the caller's buffer and the atomic counter
    [n_rays] of the camera.  The progress bar only prints. *)
Record shared := mkShared { image : list Z; n_rays : Z }.

(** The body of the two nested loops, the same in [renderPixels] and in the
    [render_chunk] of [renderPixelsParallel]: one pixel, computed with the
    generator of the running thread. *)
Definition render_pixel `{Platform} (c : t) (scene : Hittable) (px : Z * Z)
    (st : Rnd * shared) : Rnd * shared :=
  let (x, y) := px in
  let (g, sh) := st in
  let '(pixel_color, g, n) := computePixelColor c scene x y g (n_rays sh) in
  (g, mkShared (setPixel c (image sh) x y pixel_color) n).

(** [for (y = start_y; y < end_y; ++y) for (x = 0; x < image_width; ++x)] *)
Definition render_chunk `{Platform} (c : t) (scene : Hittable)
    (start_y end_y : Z) (st : Rnd * shared) : Rnd * shared :=
  fold_left
    (fun st y =>
       fold_left (fun st x => render_pixel c scene (x, y) st)
                 (int_range 0 (image_width c)) st)
    (int_range start_y end_y) st.

(** [renderPixels], run by the calling thread with its generator [g]. *)
Definition renderPixels `{Platform} (c : t) (scene : Hittable)
    (g : Rnd) (sh : shared) : Rnd * shared :=
  render_chunk c scene 0 (image_height c) (g, sh).

(** *** [renderPixelsParallel] *)

(** The rows of worker [t] out of [num_threads]. *)
Definition chunk_size (c : t) (num_threads : Z) : Z :=
  Z.quot (image_height c) num_threads.
Definition start_y (c : t) (num_threads t : Z) : Z :=
  (t * chunk_size c num_threads)%Z.
Definition end_y (c : t) (num_threads t : Z) : Z :=
  if (t =? num_threads - 1)%Z then image_height c
  else (start_y c num_threads t + chunk_size c num_threads)%Z.

(** The pixels a call [render_chunk(start_y, end_y)] visits, in order. *)
Definition chunk_pixels (c : t) (start_y end_y : Z) : list (Z * Z) :=
  flat_map (fun y => map (fun x => (x, y)) (int_range 0 (image_width c)))
           (int_range start_y end_y).

(** A worker thread: the pixels it still has to render and its thread-local
    generator. *)
Record worker `{Platform} := mkWorker { todo : list (Z * Z); rng : Rnd }.
Arguments mkWorker {_} _ _.

(** The threads [renderPixelsParallel] starts, by their number [k] in the
    vector [threads]; [gens k] is the state in which thread [k] finds its
    thread-local generator.  Only the numbers below [num_threads] are
    threads.  With [num_threads = 0] the source divides by zero; the model
    starts no thread. *)
Definition workers `{Platform} (c : t) (num_threads : Z) (gens : nat -> Rnd)
  : nat -> worker :=
  fun k => mkWorker (chunk_pixels c (start_y c num_threads (Z.of_nat k))
                                    (end_y c num_threads (Z.of_nat k)))
                    (gens k).

(** One step of the threads running together: thread [k] renders its next
    pixel.  The threads share the buffer and the counter only; a pixel is the
    unit of interleaving of the model. *)
Definition step `{Platform} (c : t) (scene : Hittable) (num_threads : Z)
    (k : nat) (cfg : (nat -> worker) * shared)
  : option ((nat -> worker) * shared) :=
  let (ws, sh) := cfg in
  if (Z.of_nat k <? num_threads)%Z then
    match todo (ws k) with
    | [] => None
    | px :: rest =>
        let (g, sh') := render_pixel c scene px (rng (ws k), sh) in
        Some (fun j => if Nat.eqb j k then mkWorker rest g else ws j, sh')
    end
  else None.

(** The threads run under a schedule: the list of the thread numbers in the
    order in which they take their steps. *)
Fixpoint run `{Platform} (c : t) (scene : Hittable) (num_threads : Z)
    (schedule : list nat) (cfg : (nat -> worker) * shared)
  : option ((nat -> worker) * shared) :=
  match schedule with
  | [] => Some cfg
  | k :: schedule' =>
      match step c scene num_threads k cfg with
      | Some cfg' => run c scene num_threads schedule' cfg'
      | None => None
      end
  end.

(** All threads can be joined. *)
Definition joined `{Platform} (num_threads : Z) (ws : nat -> worker) : Prop :=
  forall k, (Z.of_nat k < num_threads)%Z -> todo (ws k) = [].

(** [renderPixelsParallel] turns [sh] into [sh'] under [schedule]: the
    threads are started, take their steps, and are all joined. *)
Definition renderPixelsParallel `{Platform} (c : t) (scene : Hittable)
    (num_threads : Z) (gens : nat -> Rnd) (schedule : list nat)
    (sh sh' : shared) : Prop :=
  exists ws', run c scene num_threads schedule (workers c num_threads gens, sh)
              = Some (ws', sh') /\ joined num_threads ws'.

(** *** [renderPixelsCUDA] *)

(** [Camera::renderPixelsCUDA]: the buffer, the counter [n_rays] after the
    [fetch_add], and the lines printed. *)
Definition renderPixelsCUDA (c : t) (dev : Cuda.device)
    (image : list Z) (n_rays : Z) : list Z * Z * list Cuda.message :=
  let '(cuda_ray_count, image, out) :=
    Cuda.renderPixelsCUDA dev image
      (image_width c) (image_height c)
      (camera_center c) (pixel00_loc c)
      (pixel_delta_u c) (pixel_delta_v c)
      (samples_per_pixel c) (Z.of_nat max_depth) in
  (image, (n_rays + cuda_ray_count)%Z,
   Cuda.RendererStarting :: out ++ [Cuda.RenderingCompleted]).

End Camera.

Abbreviation Camera := Camera.t.

(** ** main.cpp: the branch of the CUDA renderer *)


(** ** Facts on the comparisons of binary64 *)

Module Double.

Definition lt (x y : float) : Prop := (x <? y)%float = true.

  (** [x] takes part in the order, that is, [x] is not a NaN. *)
Definition ordered (x : float) : Prop := Prim2SF x <> S754_nan.

Ltac sf_cases :=
    repeat match goal with
           | s : bool |- _ => destruct s
           end;
    cbn;
    repeat match goal with
           | |- context [Z.compare ?a ?b] =>
               destruct (Z.compare_spec a b); cbn
           | |- context [Pos.compare_cont Eq ?a ?b] =>
               change (Pos.compare_cont Eq a b) with (Pos.compare a b);
               destruct (Pos.compare_spec a b); cbn
           end;
    try congruence; try tauto; try lia.

Lemma SFltb_trans (a b c : spec_float) :
    SFltb a b = true -> SFltb b c = true -> SFltb a c = true.
  Proof.
    unfold SFltb.
    destruct a as [sa|sa| |sa ma ea], b as [sb|sb| |sb mb eb],
             c as [sc|sc| |sc mc ec]; sf_cases.
  Qed.

Lemma SFltb_irrefl (a : spec_float) : SFltb a a = false.
  Proof.
    unfold SFltb. destruct a as [sa|sa| |sa ma ea]; sf_cases.
  Qed.

Lemma SFltb_total (a b c : spec_float) :
    b <> S754_nan -> SFltb a c = true -> SFltb a b = true \/ SFltb b c = true.
  Proof.
    unfold SFltb.
    destruct a as [sa|sa| |sa ma ea], b as [sb|sb| |sb mb eb],
             c as [sc|sc| |sc mc ec]; sf_cases.
  Qed.

Lemma SFltb_ordered_l (a b : spec_float) : SFltb a b = true -> a <> S754_nan.
  Proof. destruct a; cbn; congruence. Qed.

Lemma SFltb_ordered_r (a b : spec_float) : SFltb a b = true -> b <> S754_nan.
  Proof. destruct a, b; cbn; congruence. Qed.

Lemma lt_trans (a b c : float) : lt a b -> lt b c -> lt a c.
  Proof. unfold lt. rewrite !ltb_spec. apply SFltb_trans. Qed.

Lemma lt_irrefl (a : float) : (a <? a)%float = false.
  Proof. rewrite ltb_spec. apply SFltb_irrefl. Qed.

Lemma lt_ordered_l (a b : float) : lt a b -> ordered a.
  Proof. unfold lt, ordered. rewrite ltb_spec. apply SFltb_ordered_l. Qed.

Lemma lt_ordered_r (a b : float) : lt a b -> ordered b.
  Proof. unfold lt, ordered. rewrite ltb_spec. apply SFltb_ordered_r. Qed.

  (** The order is total on the non-NaN values: a value [b] that is not a NaN
      lies above [a] or below [c] whenever [a < c]. *)
Lemma lt_total (a b c : float) : ordered b -> lt a c -> lt a b \/ lt b c.
  Proof. unfold lt, ordered. rewrite !ltb_spec. apply SFltb_total. Qed.

  (** [x < c] and [c] not above [hi] give [x < hi], as soon as [hi] is
      ordered. *)
Lemma lt_below (x c hi : float) :
    ordered hi -> lt x c -> (hi <? c)%float = false -> lt x hi.
  Proof.
    intros Hhi Hxc Hc. destruct (lt_total x hi c Hhi Hxc) as [H|H]; [exact H|].
    unfold lt in H. congruence.
  Qed.

End Double.

(** Induction on a [Hittable], with the members of a list as induction
    hypotheses. *)
Section NestedInduction.

  Variable P : Hittable -> Prop.
  Hypothesis Hs : forall s, P (HSphere s).
  Hypothesis Hl : forall objects, Forall P objects -> P (HList objects).

Fixpoint Hittable_nested_ind (o : Hittable) : P o :=
    match o with
    | HSphere s => Hs s
    | HList objects =>
        Hl objects
           ((fix members (l : list Hittable) : Forall P l :=
               match l with
               | [] => Forall_nil P
               | a :: l' => Forall_cons a (Hittable_nested_ind a) (members l')
               end) objects)
    end.

End NestedInduction.

(** * Properties of the intersection protocol *)

Section HitProtocol.

  Import Double.

  (** What [Sphere::hit] computes before it looks at the interval. *)
Definition sphere_roots (s : Sphere) (r : Ray) : option (float * float) :=
    let oc := Vec3.sub (Sphere.center s) (Ray.origin r) in
    let a := Vec3.dot (Ray.direction r) (Ray.direction r) in
    let h := Vec3.dot (Ray.direction r) oc in
    let c := (Vec3.dot oc oc - Sphere.radius s * Sphere.radius s)%float in
    let discriminant := (h * h - a * c)%float in
    if (discriminant <? 0)%float then None
    else Some (((h - sqrt discriminant) / a)%float,
               ((h + sqrt discriminant) / a)%float).

  (** The record [Sphere::hit] leaves behind when it accepts [root]. *)
Definition sphere_accept (s : Sphere) (r : Ray) (rec : Hit_record)
      (root : float) : Hit_record :=
    Hit_record.mk (Ray.at_ r root)
      (Vec3.div (Vec3.sub (Ray.at_ r root) (Sphere.center s)) (Sphere.radius s))
      root (Hit_record.frontFacing rec) (Some (Sphere.mat s)).

Lemma sphere_hit_roots (s : Sphere) (r : Ray) (ray_t : Interval)
      (rec : Hit_record) :
    Sphere.hit s r ray_t rec =
    match sphere_roots s r with
    | None => (false, rec)
    | Some (root1, root2) =>
        if Interval.surrounds ray_t root1 then (true, sphere_accept s r rec root1)
        else if Interval.surrounds ray_t root2
             then (true, sphere_accept s r rec root2)
             else (false, rec)
    end.
  Proof.
    unfold Sphere.hit, sphere_roots, sphere_accept.
    change (Vec3.dot (Ray.direction r) (Ray.direction r))
      with (Vec3.length_squared (Ray.direction r)).
    change (Vec3.dot (Vec3.sub (Sphere.center s) (Ray.origin r))
                     (Vec3.sub (Sphere.center s) (Ray.origin r)))
      with (Vec3.length_squared (Vec3.sub (Sphere.center s) (Ray.origin r))).
    destruct (_ <? 0)%float; [reflexivity|].
    destruct (Interval.surrounds ray_t _); cbn [negb]; [reflexivity|].
    destruct (Interval.surrounds ray_t _); reflexivity.
  Qed.

Lemma surrounds_iff (lo hi v : float) :
    Interval.surrounds (Interval.mk lo hi) v = true <-> lt lo v /\ lt v hi.
  Proof. unfold Interval.surrounds, lt. cbn. apply andb_true_iff. Qed.

  (** The three properties of a [hit] function the loop of the list relies
      on. *)
Definition in_bounds (f : Hittable_list.hit_fn) : Prop :=
    forall ray_t rec rec',
      f ray_t rec = (true, rec') ->
      lt (Interval.min ray_t) (Hit_record.t rec') /\
      lt (Hit_record.t rec') (Interval.max ray_t).

Definition keeps_on_miss (f : Hittable_list.hit_fn) : Prop :=
    forall ray_t rec rec', f ray_t rec = (false, rec') -> rec' = rec.

  (** A hit below [c] survives the narrowing of the upper bound to [c], at a
      distance that is not farther, whatever record is passed in. *)
Definition stable (f : Hittable_list.hit_fn) : Prop :=
    forall lo hi c rec rec2 r1,
      f (Interval.mk lo hi) rec = (true, r1) ->
      (hi <? c)%float = false ->
      lt (Hit_record.t r1) c ->
      exists r2, f (Interval.mk lo c) rec2 = (true, r2) /\
                 (Hit_record.t r1 <? Hit_record.t r2)%float = false.

Definition carries_material (f : Hittable_list.hit_fn) : Prop :=
    forall ray_t rec rec',
      f ray_t rec = (true, rec') -> Hit_record.mat_ptr rec' <> None.

Record well_behaved (f : Hittable_list.hit_fn) : Prop := {
    wb_bounds : in_bounds f;
    wb_miss : keeps_on_miss f;
    wb_stable : stable f;
    wb_material : carries_material f
  }.

Ltac sphere_cases s r ray_t H :=
    rewrite sphere_hit_roots in H;
    destruct (sphere_roots s r) as [[root1 root2]|];
    [ destruct (Interval.surrounds ray_t root1) eqn:?;
      [ | destruct (Interval.surrounds ray_t root2) eqn:? ] | ];
    inversion H; subst; clear H.

Lemma sphere_in_bounds (s : Sphere) (r : Ray) : in_bounds (Sphere.hit s r).
  Proof.
    intros [lo hi] rec rec' H. cbn [Interval.min Interval.max].
    sphere_cases s r (Interval.mk lo hi) H; cbn; now apply surrounds_iff.
  Qed.

Lemma sphere_keeps_on_miss (s : Sphere) (r : Ray) :
    keeps_on_miss (Sphere.hit s r).
  Proof.
    intros ray_t rec rec' H. sphere_cases s r ray_t H; reflexivity.
  Qed.

Lemma sphere_carries_material (s : Sphere) (r : Ray) :
    carries_material (Sphere.hit s r).
  Proof.
    intros ray_t rec rec' H. sphere_cases s r ray_t H; cbn; discriminate.
  Qed.

Lemma sphere_stable (s : Sphere) (r : Ray) : stable (Sphere.hit s r).
  Proof.
    intros lo hi c rec rec2 r1 H Hc Hlt.
    rewrite sphere_hit_roots in H |- *.
    destruct (sphere_roots s r) as [[root1 root2]|]; [|discriminate].
    destruct (Interval.surrounds (Interval.mk lo hi) root1) eqn:E1.
    - inversion H; subst; clear H. cbn in Hlt.
      apply surrounds_iff in E1. destruct E1 as [Hlo _].
      assert (E : Interval.surrounds (Interval.mk lo c) root1 = true)
        by now apply surrounds_iff.
      rewrite E. eexists; split; [reflexivity|]. cbn. apply lt_irrefl.
    - destruct (Interval.surrounds (Interval.mk lo hi) root2) eqn:E2;
        inversion H; subst; clear H. cbn in Hlt.
      apply surrounds_iff in E2. destruct E2 as [Hlo Hhi].
      destruct (Interval.surrounds (Interval.mk lo c) root1) eqn:E3.
      + apply surrounds_iff in E3. destruct E3 as [Hlo1 Hc1].
        assert (E : Interval.surrounds (Interval.mk lo hi) root1 = true).
        { apply surrounds_iff. split; [exact Hlo1|].
          apply lt_below with c; eauto using lt_ordered_r. }
        congruence.
      + assert (E : Interval.surrounds (Interval.mk lo c) root2 = true)
          by now apply surrounds_iff.
        rewrite E. eexists; split; [reflexivity|]. cbn. apply lt_irrefl.
  Qed.

Lemma sphere_well_behaved (s : Sphere) (r : Ray) :
    well_behaved (Sphere.hit s r).
  Proof.
    split; auto using sphere_in_bounds, sphere_keeps_on_miss, sphere_stable,
      sphere_carries_material.
  Qed.

End HitProtocol.

(** ** The loop of [Hittable_list::hit] *)

Section ListLoop.

  Import Double.

  Variable lo : float.

  (** Once [hitSomething] is set it stays set. *)
Lemma loop_flag_stays (fs : list Hittable_list.hit_fn) :
    forall tmp k rec, fst (Hittable_list.loop fs lo tmp true k rec) = true.
  Proof.
    induction fs as [|f fs IH]; intros tmp k rec; cbn; [reflexivity|].
    destruct (f _ tmp) as [[] tmp']; apply IH.
  Qed.

  (** The loop either changes nothing, or ends on a record nearer than the
      bound it started from. *)
Lemma loop_narrows (fs : list Hittable_list.hit_fn) :
    Forall in_bounds fs ->
    forall tmp flag k rec b rec',
      Hittable_list.loop fs lo tmp flag k rec = (b, rec') ->
      (b = flag /\ rec' = rec) \/
      (b = true /\ lt lo (Hit_record.t rec') /\ lt (Hit_record.t rec') k).
  Proof.
    induction 1 as [|f fs Hf _ IH]; intros tmp flag k rec b rec' H; cbn in H.
    - inversion H; auto.
    - destruct (f _ tmp) as [[] tmp'] eqn:Ef.
      + apply Hf in Ef. cbn in Ef. destruct Ef as [Hlo Hk].
        apply IH in H. destruct H as [[-> ->]|(-> & Hlo' & Hk')]; right.
        * auto.
        * eauto using lt_trans.
      + apply IH in H. exact H.
  Qed.

  (** A miss of the whole loop leaves the caller's record alone. *)
Lemma loop_miss (fs : list Hittable_list.hit_fn) :
    forall tmp flag k rec rec',
      Hittable_list.loop fs lo tmp flag k rec = (false, rec') ->
      flag = false /\ rec' = rec.
  Proof.
    induction fs as [|f fs IH]; intros tmp flag k rec rec' H; cbn in H.
    - inversion H; auto.
    - destruct (f _ tmp) as [[] tmp'].
      + pose proof (loop_flag_stays fs tmp' (Hit_record.t tmp') tmp') as Hs.
        rewrite H in Hs. discriminate.
      + eauto.
  Qed.

  (** The record of a hit is the one a member left in [tmp], for the
      interval narrowed to some [c] not above the starting bound. *)
Lemma loop_forwards (fs : list Hittable_list.hit_fn) :
    Forall in_bounds fs ->
    forall tmp k rec rec',
      Hittable_list.loop fs lo tmp false k rec = (true, rec') ->
      exists f c tmp0, In f fs /\ (c = k \/ lt c k) /\
                       f (Interval.mk lo c) tmp0 = (true, rec').
  Proof.
    intros Hfs.
    enough (G : forall tmp flag k rec rec',
               Hittable_list.loop fs lo tmp flag k rec = (true, rec') ->
               (flag = true /\ rec' = rec) \/
               exists f c tmp0, In f fs /\ (c = k \/ lt c k) /\
                                f (Interval.mk lo c) tmp0 = (true, rec')).
    { intros tmp k rec rec' H. apply G in H.
      destruct H as [[? _]|H]; [discriminate|exact H]. }
    induction Hfs as [|f fs Hf _ IH]; intros tmp flag k rec rec' H; cbn in H.
    - inversion H; auto.
    - destruct (f _ tmp) as [[] tmp'] eqn:Ef.
      + apply IH in H. right. destruct H as [[_ ->]|(g & c & tmp0 & Hg & Hc & E)].
        * exists f, k, tmp. cbn; auto.
        * apply Hf in Ef. cbn in Ef. destruct Ef as [_ Hk].
          exists g, c, tmp0. cbn. repeat split; auto.
          right. destruct Hc as [->|Hc]; eauto using lt_trans.
      + apply IH in H. destruct H as [H|(g & c & tmp0 & Hg & Hc & E)]; [auto|].
        right. exists g, c, tmp0. cbn; auto.
  Qed.

  (** The first member that hits is asked with the bound the loop started
      from. *)
Lemma loop_first_hit (fs : list Hittable_list.hit_fn) :
    forall tmp k rec rec',
      Hittable_list.loop fs lo tmp false k rec = (true, rec') ->
      exists f tmp0 r0, In f fs /\ f (Interval.mk lo k) tmp0 = (true, r0).
  Proof.
    induction fs as [|f fs IH]; intros tmp k rec rec' H; cbn in H.
    - discriminate.
    - destruct (f _ tmp) as [[] tmp'] eqn:Ef.
      + exists f, tmp, tmp'. cbn; auto.
      + apply IH in H. destruct H as (g & tmp0 & r0 & Hg & E).
        exists g, tmp0, r0. cbn; auto.
  Qed.

  (** A member that hits below the current bound makes the loop hit. *)
Lemma loop_hits (fs : list Hittable_list.hit_fn) :
    Forall stable fs ->
    forall f hi rec0 r0 tmp flag rec,
      In f fs ->
      f (Interval.mk lo hi) rec0 = (true, r0) ->
      lt (Hit_record.t r0) hi ->
      fst (Hittable_list.loop fs lo tmp flag hi rec) = true.
  Proof.
    induction 1 as [|g fs Hg _ IH];
      intros f hi rec0 r0 tmp flag rec Hin Hf Hlt; [contradiction|].
    cbn. destruct (g _ tmp) as [[] tmp'] eqn:Eg.
    - apply loop_flag_stays.
    - destruct Hin as [->|Hin]; [|eapply IH; eauto].
      destruct (Hg lo hi hi rec0 tmp r0 Hf (lt_irrefl hi) Hlt) as (r2 & E & _).
      congruence.
  Qed.

  (** No member, asked with the full interval, hits nearer than the loop. *)
Lemma loop_nearest (fs : list Hittable_list.hit_fn) :
    Forall well_behaved fs ->
    forall f hi rec0 r0 tmp flag k rec rec',
      In f fs ->
      f (Interval.mk lo hi) rec0 = (true, r0) ->
      (hi <? k)%float = false ->
      (flag = true -> Hit_record.t rec = k) ->
      Hittable_list.loop fs lo tmp flag k rec = (true, rec') ->
      (Hit_record.t r0 <? Hit_record.t rec')%float = false.
  Proof.
    induction 1 as [|g fs Hg Hfs IH];
      intros f hi rec0 r0 tmp flag k rec rec' Hin Hf Hk Hst H; [contradiction|].
    assert (Hb : Forall in_bounds fs).
    { eapply Forall_impl; [|exact Hfs]. intros a Ha; apply Ha. }
    destruct Hin as [->|Hin].
    - destruct (Hit_record.t r0 <? Hit_record.t rec')%float eqn:Habs;
        [exfalso|reflexivity].
      assert (Hr0k : lt (Hit_record.t r0) k).
      { pose proof H as H'. apply loop_narrows in H'.
        - destruct H' as [[Hfl ->]|(_ & _ & Hk')].
          + rewrite <- Hst by auto. exact Habs.
          + exact (lt_trans _ _ _ Habs Hk').
        - constructor; [apply Hg|exact Hb]. }
      destruct (wb_stable _ Hg lo hi k rec0 tmp r0 Hf Hk Hr0k) as (r2 & E & Hr2).
      cbn in H. rewrite E in H.
      apply loop_narrows in H; [|exact Hb].
      destruct H as [[_ ->]|(_ & _ & Hlt)].
      + congruence.
      + pose proof (lt_trans _ _ _ Habs Hlt) as Hfar.
        unfold lt in Hfar; congruence.
    - cbn in H. destruct (g _ tmp) as [[] tmp'] eqn:Eg.
      + apply (wb_bounds _ Hg) in Eg. cbn in Eg. destruct Eg as [_ Hlt].
        apply (IH f hi rec0 r0 tmp' true (Hit_record.t tmp') tmp' rec' Hin Hf);
          [|reflexivity|exact H].
        destruct (hi <? Hit_record.t tmp')%float eqn:E; [|reflexivity].
        pose proof (lt_trans _ _ _ E Hlt) as Hfar.
        unfold lt in Hfar; congruence.
      + exact (IH f hi rec0 r0 tmp' flag k rec rec' Hin Hf Hk Hst H).
  Qed.

  (** Two runs of the loop, the second from a bound [k'] that is not above
      the bound [k] of the first: if the first ends on a hit below [k'], the
      second ends on a hit that is not farther. *)
Lemma loop_stable (fs : list Hittable_list.hit_fn) :
    Forall well_behaved fs ->
    forall tmp flag k rec tmp2 flag2 k2 rec2 r1,
      (k <? k2)%float = false ->
      (flag = true -> Hit_record.t rec = k) ->
      (flag2 = true -> Hit_record.t rec2 = k2) ->
      Hittable_list.loop fs lo tmp flag k rec = (true, r1) ->
      flag2 = true \/ lt (Hit_record.t r1) k2 ->
      exists r2, Hittable_list.loop fs lo tmp2 flag2 k2 rec2 = (true, r2) /\
                 (Hit_record.t r1 <? Hit_record.t r2)%float = false.
  Proof.
    induction 1 as [|g fs Hg Hfs IH];
      intros tmp flag k rec tmp2 flag2 k2 rec2 r1 Hk Hst Hst2 H Hor; cbn in H.
    - inversion H; subst; clear H. cbn.
      destruct Hor as [->|Hlt].
      + eexists; split; [reflexivity|]. rewrite Hst, Hst2 by reflexivity.
        exact Hk.
      + rewrite Hst in Hlt by reflexivity. unfold lt in Hlt. congruence.
    - cbn. destruct (g _ tmp) as [[] t1] eqn:E1;
        destruct (g _ tmp2) as [[] t2] eqn:E2.
      + apply (IH t1 true (Hit_record.t t1) t1 t2 true (Hit_record.t t2) t2 r1);
          auto.
        destruct (Hit_record.t t1 <? k2)%float eqn:E.
        * destruct (wb_stable _ Hg lo k k2 tmp tmp2 t1 E1 Hk E) as (r2 & E' & Hr).
          congruence.
        * destruct (Hit_record.t t1 <? Hit_record.t t2)%float eqn:E';
            [|reflexivity].
          apply (wb_bounds _ Hg) in E2. cbn in E2. destruct E2 as [_ E2].
          pose proof (lt_trans _ _ _ E' E2) as Hfar.
          unfold lt in Hfar; congruence.
      + apply (IH t1 true (Hit_record.t t1) t1 t2 flag2 k2 rec2 r1); auto.
        destruct (Hit_record.t t1 <? k2)%float eqn:E; [|reflexivity].
        destruct (wb_stable _ Hg lo k k2 tmp tmp2 t1 E1 Hk E) as (r2 & E' & Hr).
        congruence.
      + apply (IH t1 flag k rec t2 true (Hit_record.t t2) t2 r1); auto.
        destruct (k <? Hit_record.t t2)%float eqn:E; [|reflexivity].
        apply (wb_bounds _ Hg) in E2. cbn in E2. destruct E2 as [_ E2].
        pose proof (lt_trans _ _ _ E E2) as Hfar.
        unfold lt in Hfar; congruence.
      + apply (IH t1 flag k rec t2 flag2 k2 rec2 r1); auto.
  Qed.

End ListLoop.

(** ** Every [Hittable] is well behaved *)

Section Hittables.

  Import Double.

  (** The content of a default-constructed [Hit_record] (the local [tmp] of
      [Hittable_list::hit], the local [rec] of [Camera::ray_color]). *)
  Variable fresh : Hit_record.

Lemma list_well_behaved (fs : list Hittable_list.hit_fn) :
    Forall well_behaved fs -> well_behaved (Hittable_list.hit fresh fs).
  Proof.
    intros Hfs.
    assert (Hb : Forall in_bounds fs).
    { eapply Forall_impl; [|exact Hfs]. intros a Ha; apply Ha. }
    split.
    - intros [lo hi] rec rec' H. unfold Hittable_list.hit in H. cbn in *.
      apply loop_narrows in H; [|exact Hb].
      destruct H as [[? _]|(_ & ? & ?)]; [discriminate|auto].
    - intros ray_t rec rec' H. unfold Hittable_list.hit in H.
      now apply loop_miss in H.
    - intros lo hi c rec rec2 r1 H Hc Hlt. unfold Hittable_list.hit in *.
      cbn [Interval.min Interval.max] in *.
      apply (loop_stable lo fs Hfs fresh false hi rec fresh false c rec2 r1);
        auto; discriminate.
    - intros [lo hi] rec rec' H. unfold Hittable_list.hit in H. cbn in H.
      apply loop_forwards in H; [|exact Hb].
      destruct H as (f & c & tmp0 & Hf & _ & E).
      rewrite Forall_forall in Hfs. exact (wb_material _ (Hfs f Hf) _ _ _ E).
  Qed.

Lemma hit_well_behaved (o : Hittable) :
    forall r : Ray, well_behaved (hit fresh o r).
  Proof.
    induction o as [s|objects IH] using Hittable_nested_ind; intros r; cbn.
    - apply sphere_well_behaved.
    - apply list_well_behaved. rewrite Forall_map.
      eapply Forall_impl; [|exact IH]. intros a Ha; apply Ha.
  Qed.

Lemma members_well_behaved (objects : list Hittable) (r : Ray) :
    Forall well_behaved (map (fun o => hit fresh o r) objects).
  Proof.
    rewrite Forall_map, Forall_forall. intros o _. apply hit_well_behaved.
  Qed.

Lemma lt_inf_finite (lo v : float) :
    lt lo v -> lt v inf -> is_finite v = true.
  Proof.
    unfold lt, is_finite, is_nan, is_infinity.
    rewrite !ltb_spec, !eqb_spec, abs_spec.
    change (Prim2SF inf) with (S754_infinity false).
    change (Prim2SF infinity) with (S754_infinity false).
    unfold SFltb, SFeqb.
    destruct (Prim2SF lo) as [sl|sl| |sl ml el],
             (Prim2SF v) as [sv|sv| |sv mv ev];
      try destruct sl; try destruct sv;
      cbn; try discriminate; try reflexivity;
      intros _ _; rewrite Z.compare_refl;
      change (Pos.compare_cont Eq mv mv) with (Pos.compare mv mv);
      rewrite Pos.compare_refl; reflexivity.
  Qed.

End Hittables.


(** * The claims on the intersection protocol *)

(** ** Concrete scene elements used to run the code *)

Definition origin3 : Point3 := Vec3.mk 0 0 0.

(** A record as a caller may pass it in. *)
Definition blank_record : Hit_record :=
  Hit_record.mk origin3 origin3 0 false None.

Definition grey : Material := Lambertian (Vec3.mk 0.7 0.7 0.7).

(** A sphere of radius one half, one unit down the negative z axis. *)
Definition small_sphere : Sphere := Sphere.make (Vec3.mk 0 0 (-1)) 0.5 grey.

(** The unit sphere around the origin. *)
Definition unit_sphere : Sphere := Sphere.make origin3 1 grey.

Definition ray_forward : Ray := Ray.mk origin3 (Vec3.mk 0 0 (-1)).
Definition ray_backward : Ray := Ray.mk origin3 (Vec3.mk 0 0 1).

(** The interval [ray_color] asks with. *)
Definition camera_interval : Interval := Interval.mk 0.0001 inf.

Section HitClaims.

Import Double.

Variable fresh : Hit_record.

(** C1 (the code departs from the claim).  A ray that starts inside the unit
    sphere is accepted by [Sphere::hit], and the record comes back with the
    outward normal [(p - center) / radius] as it is, pointing along the ray
    (the dot product with the direction is 1, not negative) and with the
    front-facing flag of the caller untouched; [set_face_normal], which the
    code never calls, would have turned the normal and cleared the flag.  The
    material of the sphere is in the record. *)
Theorem C1_sphere_hit_leaves_normal_outward (rec : Hit_record) :
  let res := Sphere.hit unit_sphere ray_backward camera_interval rec in
  let oriented :=
    Hit_record.set_face_normal ray_backward
      (Vec3.div (Vec3.sub (Hit_record.p (snd res)) (Sphere.center unit_sphere))
                (Sphere.radius unit_sphere))
      (snd res) in
  fst res = true /\
  Hit_record.normal (snd res) = Vec3.mk 0 0 1 /\
  Vec3.dot (Ray.direction ray_backward) (Hit_record.normal (snd res)) = 1%float /\
  Hit_record.frontFacing (snd res) = Hit_record.frontFacing rec /\
  Hit_record.mat_ptr (snd res) = Some (Sphere.mat unit_sphere) /\
  Hit_record.normal oriented = Vec3.mk (-0) (-0) (-1) /\
  Hit_record.frontFacing oriented = false.
Proof.
  cbv zeta. repeat split; vm_compute; reflexivity.
Qed.

(** C2.  [Hittable_list::hit] reports a hit exactly when some member, asked
    with the same interval, reports one; the record it forwards is not
    farther than the hit of any member asked with the full interval; it is
    the record a member produced for the interval narrowed to an upper bound
    [c] that is the upper bound of the query or below it; and the empty list
    reports no hit and leaves the record alone. *)
Theorem C2_list_hit_is_nearest (objects : list Hittable) (r : Ray)
    (ray_t : Interval) (rec rec0 : Hit_record) :
  let res := hit fresh (HList objects) r ray_t rec in
  (fst res = true <->
   exists o, In o objects /\ fst (hit fresh o r ray_t rec0) = true) /\
  (fst res = true ->
   forall o rec_o, In o objects ->
     hit fresh o r ray_t rec0 = (true, rec_o) ->
     (Hit_record.t rec_o <? Hit_record.t (snd res))%float = false) /\
  (fst res = true ->
   exists o c tmp, In o objects /\
     (c = Interval.max ray_t \/ lt c (Interval.max ray_t)) /\
     hit fresh o r (Interval.mk (Interval.min ray_t) c) tmp = (true, snd res)) /\
  hit fresh (HList []) r ray_t rec = (false, rec).
Proof.
  destruct ray_t as [lo hi]. cbn zeta. cbn [hit]. unfold Hittable_list.hit.
  cbn [Interval.min Interval.max].
  pose proof (members_well_behaved fresh objects r) as Hwb.
  set (fs := map (fun o' => hit fresh o' r) objects) in *.
  assert (Hb : Forall in_bounds fs).
  { eapply Forall_impl; [|exact Hwb]. intros a Ha; apply Ha. }
  assert (Hs : Forall stable fs).
  { eapply Forall_impl; [|exact Hwb]. intros a Ha; apply Ha. }
  destruct (Hittable_list.loop fs lo fresh false hi rec) as [b rec'] eqn:E.
  cbn [fst snd]. repeat split.
  - intros ->. destruct (loop_first_hit lo fs _ _ _ _ E) as (f & tmp0 & r0 & Hf & E0).
    apply in_map_iff in Hf. destruct Hf as (o & <- & Ho).
    exists o. split; [exact Ho|].
    pose proof (hit_well_behaved fresh o r) as Ho_wb.
    destruct (wb_bounds _ Ho_wb _ _ _ E0) as [_ Hhi]. cbn in Hhi.
    destruct (wb_stable _ Ho_wb lo hi hi tmp0 rec0 r0 E0 (lt_irrefl hi) Hhi)
      as (r2 & E2 & _).
    rewrite E2. reflexivity.
  - intros (o & Ho & Hhit).
    destruct (hit fresh o r (Interval.mk lo hi) rec0) as [b0 r0] eqn:E0.
    cbn in Hhit. subst b0.
    pose proof (hit_well_behaved fresh o r) as Ho_wb.
    destruct (wb_bounds _ Ho_wb _ _ _ E0) as [_ Hhi]. cbn in Hhi.
    pose proof (loop_hits lo fs Hs (hit fresh o r) hi rec0 r0 fresh false rec)
      as Hl.
    rewrite E in Hl. apply Hl; auto.
    apply in_map_iff. exists o; auto.
  - intros -> o rec_o Ho E0.
    apply (loop_nearest lo fs Hwb (hit fresh o r) hi rec0 rec_o fresh false hi
             rec rec'); auto.
    + apply in_map_iff. exists o; auto.
    + apply lt_irrefl.
    + discriminate.
  - intros ->. destruct (loop_forwards lo fs Hb _ _ _ _ E) as (f & c & tmp0 & Hf & Hc & E0).
    apply in_map_iff in Hf. destruct Hf as (o & <- & Ho).
    exists o, c, tmp0. auto.
Qed.

(** C3.  [Sphere::hit] works on the coefficients [a = d.d],
    [h = d.(center - origin)], [c = |center - origin|^2 - r^2] and the
    discriminant [h^2 - a c]: a negative discriminant is a miss; otherwise
    the root [(h - sqrt disc) / a] is tried first, the root
    [(h + sqrt disc) / a] only when the first is not strictly inside the
    interval, and two roots outside are a miss. *)
Theorem C3_sphere_hit_solves_quadratic (s : Sphere) (r : Ray)
    (ray_t : Interval) (rec : Hit_record) :
  let d := Ray.direction r in
  let oc := Vec3.sub (Sphere.center s) (Ray.origin r) in
  let a := Vec3.dot d d in
  let h := Vec3.dot d oc in
  let c := (Vec3.dot oc oc - Sphere.radius s * Sphere.radius s)%float in
  let discriminant := (h * h - a * c)%float in
  let smaller := ((h - sqrt discriminant) / a)%float in
  let larger := ((h + sqrt discriminant) / a)%float in
  Sphere.hit s r ray_t rec =
  if (discriminant <? 0)%float then (false, rec)
  else if Interval.surrounds ray_t smaller
       then (true, sphere_accept s r rec smaller)
       else if Interval.surrounds ray_t larger
            then (true, sphere_accept s r rec larger)
            else (false, rec).
Proof.
  cbv zeta. rewrite sphere_hit_roots. unfold sphere_roots.
  destruct (_ <? 0)%float; reflexivity.
Qed.

(** C8.  A hit of any [Hittable] lies strictly inside the interval of the
    query, in the sense of [Interval::surrounds]; asked with the interval of
    [ray_color], the distance is above 0.0001 and finite. *)
Theorem C8_hit_distance_inside_interval (o : Hittable) (r : Ray)
    (ray_t : Interval) (rec rec' : Hit_record) :
  hit fresh o r ray_t rec = (true, rec') ->
  Interval.surrounds ray_t (Hit_record.t rec') = true /\
  (ray_t = Interval.mk 0.0001 inf ->
   (0.0001 <? Hit_record.t rec')%float = true /\
   is_finite (Hit_record.t rec') = true).
Proof.
  intros H. apply (wb_bounds _ (hit_well_behaved fresh o r)) in H.
  destruct ray_t as [lo hi]. cbn in H. destruct H as [Hlo Hhi]. split.
  - apply surrounds_iff. auto.
  - intros E. inversion E; subst. split; [exact Hlo|].
    eapply lt_inf_finite; eauto.
Qed.

(** C9.  A [hit] that returns false, of a sphere or of a list, hands the
    record of the caller back as it received it. *)
Theorem C9_miss_leaves_record_unchanged (o : Hittable) (r : Ray)
    (ray_t : Interval) (rec rec' : Hit_record) :
  hit fresh o r ray_t rec = (false, rec') -> rec' = rec.
Proof.
  apply (wb_miss _ (hit_well_behaved fresh o r)).
Qed.

End HitClaims.

(** The scene of the witnesses: a list inside a list, holding the small
    sphere. *)
Definition nested_scene : Hittable := HList [HList [HSphere small_sphere]].

Lemma C8_witness :
  let res := hit blank_record nested_scene ray_forward camera_interval
               blank_record in
  res = (true, snd res) /\
  Interval.surrounds camera_interval (Hit_record.t (snd res)) = true /\
  (camera_interval = Interval.mk 0.0001 inf ->
   (0.0001 <? Hit_record.t (snd res))%float = true /\
   is_finite (Hit_record.t (snd res)) = true).
Proof.
  cbv zeta. split; [vm_compute; reflexivity|].
  apply (C8_hit_distance_inside_interval blank_record nested_scene ray_forward
           camera_interval blank_record).
  vm_compute; reflexivity.
Defined.

Lemma C9_witness :
  let res := hit blank_record nested_scene ray_backward camera_interval
               blank_record in
  res = (false, snd res) /\ snd res = blank_record.
Proof.
  cbv zeta. split; [vm_compute; reflexivity|].
  apply (C9_miss_leaves_record_unchanged blank_record nested_scene ray_backward
           camera_interval blank_record).
  vm_compute; reflexivity.
Defined.

(** * The claims on the pixel buffer *)

Section Buffer.

Local Open Scope Z_scope.

Lemma vec_set_nat_length (v : list Z) : forall i b,
  length (vec_set_nat v i b) = length v.
Proof.
  induction v as [|a v IH]; intros [|i] b; cbn; auto.
Qed.

Lemma vec_set_length (v : list Z) (i b : Z) :
  length (vec_set v i b) = length v.
Proof.
  unfold vec_set. destruct (i <? 0); auto using vec_set_nat_length.
Qed.

Lemma vec_set_nat_same (v : list Z) : forall i b,
  (i < length v)%nat -> nth i (vec_set_nat v i b) 0 = b.
Proof.
  induction v as [|a v IH]; intros [|i] b H; cbn in *; try lia; auto.
  apply IH; lia.
Qed.

Lemma vec_set_nat_other (v : list Z) : forall i j b,
  i <> j -> nth j (vec_set_nat v i b) 0 = nth j v 0.
Proof.
  induction v as [|a v IH]; intros [|i] [|j] b H; cbn; auto; try congruence.
Qed.

Lemma vec_get_set_same (v : list Z) (i b : Z) :
  0 <= i < Z.of_nat (length v) -> vec_get (vec_set v i b) i = b.
Proof.
  intros H. unfold vec_get, vec_set.
  destruct (Z.ltb_spec i 0); [lia|]. apply vec_set_nat_same. lia.
Qed.

Lemma vec_get_set_other (v : list Z) (i j b : Z) :
  i <> j -> vec_get (vec_set v i b) j = vec_get v j.
Proof.
  intros H. unfold vec_get, vec_set.
  destruct (Z.ltb_spec j 0); [reflexivity|].
  destruct (Z.ltb_spec i 0); [reflexivity|].
  apply vec_set_nat_other. lia.
Qed.

(** Two vectors of the same length with the same elements are the same. *)
Lemma vec_ext (u v : list Z) :
  length u = length v ->
  (forall i, 0 <= i < Z.of_nat (length u) -> vec_get u i = vec_get v i) ->
  u = v.
Proof.
  intros Hlen H. apply nth_ext with (d := 0) (d' := 0); [exact Hlen|].
  intros n Hn. specialize (H (Z.of_nat n)). unfold vec_get in H.
  destruct (Z.ltb_spec (Z.of_nat n) 0); [lia|].
  rewrite Nat2Z.id in H. apply H. lia.
Qed.

(** The pixel grid and the buffer fit: the coordinates are those of the
    image, a pixel has its three bytes, and the buffer holds
    [image_width * image_height * image_channels] bytes at least. *)
Definition in_image (c : Camera) (x y : Z) : Prop :=
  0 <= x < Camera.image_width c /\ 0 <= y < Camera.image_height c.

Definition holds_image (c : Camera) (image : list Z) : Prop :=
  Camera.image_width c * Camera.image_height c * Camera.image_channels c
  <= Z.of_nat (length image).

Lemma pixel_index_in_buffer (c : Camera) (image : list Z) (x y : Z) :
  in_image c x y -> 3 <= Camera.image_channels c -> holds_image c image ->
  0 <= Camera.pixel_index c x y /\
  Camera.pixel_index c x y + 2 < Z.of_nat (length image).
Proof.
  unfold in_image, holds_image, Camera.pixel_index.
  intros [Hx Hy] Hc Hlen.
  set (w := Camera.image_width c) in *. set (h := Camera.image_height c) in *.
  set (k := Camera.image_channels c) in *.
  assert (0 <= y * w + x <= w * h - 1) by nia.
  split; [nia|].
  assert ((y * w + x) * k <= (w * h - 1) * k) by nia.
  nia.
Qed.

Lemma pixel_ranges_disjoint (c : Camera) (x y x' y' : Z) :
  in_image c x y -> in_image c x' y' -> 3 <= Camera.image_channels c ->
  (x, y) <> (x', y') ->
  Camera.pixel_index c x y + 2 < Camera.pixel_index c x' y' \/
  Camera.pixel_index c x' y' + 2 < Camera.pixel_index c x y.
Proof.
  unfold in_image, Camera.pixel_index.
  intros [Hx Hy] [Hx' Hy'] Hc Hne.
  set (w := Camera.image_width c) in *.
  set (k := Camera.image_channels c) in *.
  assert (Hp : y * w + x <> y' * w + x').
  { intros E. apply Hne.
    assert (y = y') by nia. subst y'. assert (x = x') by lia. congruence. }
  assert (y * w + x + 1 <= y' * w + x' \/ y' * w + x' + 1 <= y * w + x) by lia.
  nia.
Qed.

(** What one byte of the buffer is after [setPixel]. *)
Lemma setPixel_get (c : Camera) (image : list Z) (x y : Z) (col : Color) (i : Z) :
  0 <= Camera.pixel_index c x y ->
  Camera.pixel_index c x y + 2 < Z.of_nat (length image) ->
  vec_get (Camera.setPixel c image x y col) i =
  if i =? Camera.pixel_index c x y then Camera.channel_byte (Vec3.x col)
  else if i =? Camera.pixel_index c x y + 1 then Camera.channel_byte (Vec3.y col)
  else if i =? Camera.pixel_index c x y + 2 then Camera.channel_byte (Vec3.z col)
  else vec_get image i.
Proof.
  intros H0 H2. unfold Camera.setPixel.
  set (idx := Camera.pixel_index c x y) in *.
  destruct (Z.eqb_spec i idx) as [->|N0].
  { rewrite !vec_get_set_other by lia. replace (idx + 0) with idx by lia.
    apply vec_get_set_same. lia. }
  destruct (Z.eqb_spec i (idx + 1)) as [->|N1].
  { rewrite vec_get_set_other by lia. apply vec_get_set_same.
    rewrite vec_set_length. lia. }
  destruct (Z.eqb_spec i (idx + 2)) as [->|N2].
  { apply vec_get_set_same. rewrite !vec_set_length. lia. }
  rewrite !vec_get_set_other by lia. reflexivity.
Qed.

Lemma setPixel_length (c : Camera) (image : list Z) (x y : Z) (col : Color) :
  length (Camera.setPixel c image x y col) = length image.
Proof. unfold Camera.setPixel. now rewrite !vec_set_length. Qed.

(** Every value [setPixel] computes on the way to its three indices is a
    value of [int] when the byte count of the image is one: the product
    [y * image_width], the sum with [x], the product with [image_channels]
    and the indices [index + 1] and [index + 2]. *)
Lemma pixel_index_is_int (c : Camera) (x y : Z) :
  in_image c x y -> 3 <= Camera.image_channels c -> Camera.fits_int c ->
  0 <= y * Camera.image_width c < 2 ^ 31 /\
  0 <= y * Camera.image_width c + x < 2 ^ 31 /\
  0 <= Camera.pixel_index c x y /\
  Camera.pixel_index c x y + 2 < 2 ^ 31.
Proof.
  unfold in_image, Camera.fits_int, Camera.pixel_index.
  intros [Hx Hy] Hc Hfit.
  set (w := Camera.image_width c) in *. set (h := Camera.image_height c) in *.
  set (k := Camera.image_channels c) in *.
  assert (H0 : 0 <= y * w) by nia.
  assert (H1 : y * w + x <= w * h - 1) by nia.
  assert (H2 : (y * w + x) * k <= (w * h - 1) * k) by nia.
  assert (H3 : w * h <= w * h * k) by nia.
  assert (H4 : (w * h - 1) * k = w * h * k - k) by ring.
  repeat split; try lia; nia.
Qed.

(** C10, as amended.  For an image whose byte count fits an [int], on a
    buffer that holds the image and with at least three channels per pixel,
    [setPixel] at a pixel of the image computes its index without overflow,
    stores the three channel bytes at [index], [index + 1] and [index + 2],
    leaves every other element and the length of the buffer alone, and the
    three indices of two distinct pixels of the image do not meet. *)
Theorem C10_setPixel_writes_three_bytes (c : Camera) (image : list Z)
    (x y : Z) (col : Color) :
  in_image c x y -> 3 <= Camera.image_channels c -> holds_image c image ->
  Camera.fits_int c ->
  let index := Camera.pixel_index c x y in
  let image' := Camera.setPixel c image x y col in
  (0 <= y * Camera.image_width c < 2 ^ 31 /\
   0 <= y * Camera.image_width c + x < 2 ^ 31 /\
   0 <= index /\ index + 2 < 2 ^ 31) /\
  length image' = length image /\
  vec_get image' index = Camera.channel_byte (Vec3.x col) /\
  vec_get image' (index + 1) = Camera.channel_byte (Vec3.y col) /\
  vec_get image' (index + 2) = Camera.channel_byte (Vec3.z col) /\
  (forall i, i < index \/ index + 2 < i -> vec_get image' i = vec_get image i) /\
  (forall x' y', in_image c x' y' -> (x', y') <> (x, y) ->
     Camera.pixel_index c x' y' + 2 < index \/
     index + 2 < Camera.pixel_index c x' y').
Proof.
  intros Hin Hc Hlen Hfit. cbv zeta.
  split; [exact (pixel_index_is_int c x y Hin Hc Hfit)|].
  destruct (pixel_index_in_buffer c image x y Hin Hc Hlen) as [H0 H2].
  split; [apply setPixel_length|].
  rewrite !setPixel_get by assumption.
  rewrite Z.eqb_refl.
  repeat split.
  - destruct (Z.eqb_spec (Camera.pixel_index c x y + 1)
                         (Camera.pixel_index c x y)); [lia|].
    now rewrite Z.eqb_refl.
  - destruct (Z.eqb_spec (Camera.pixel_index c x y + 2)
                         (Camera.pixel_index c x y)); [lia|].
    destruct (Z.eqb_spec (Camera.pixel_index c x y + 2)
                         (Camera.pixel_index c x y + 1)); [lia|].
    now rewrite Z.eqb_refl.
  - intros i Hi. rewrite setPixel_get by assumption.
    destruct (Z.eqb_spec i (Camera.pixel_index c x y)); [lia|].
    destruct (Z.eqb_spec i (Camera.pixel_index c x y + 1)); [lia|].
    destruct (Z.eqb_spec i (Camera.pixel_index c x y + 2)); [lia|].
    reflexivity.
  - intros x' y' Hin' Hne.
    apply (pixel_ranges_disjoint c x' y' x y Hin' Hin Hc Hne).
Qed.

End Buffer.

(** A camera over a grid of [w] by [h] pixels with [k] channels per pixel
    and [n] samples per pixel, at the origin, looking down the negative z axis
    at a viewport two units wide and high, one unit away. *)
Definition grid_camera (w h k n : Z) : Camera :=
  Camera.mk w h k n origin3
    (Vec3.mk (-0.5) 0.5 (-1)) (Vec3.mk 1 0 0) (Vec3.mk 0 (-1) 0).

Definition white : Color := Vec3.mk 1 1 1.
Definition black : Color := Vec3.mk 0 0 0.

Lemma C10_witness :
  let c := grid_camera 2 2 3 1 in
  let image := repeat 0%Z 12 in
  (in_image c 1 1 /\ (3 <= Camera.image_channels c)%Z /\ holds_image c image /\
   Camera.fits_int c) /\
  Camera.setPixel c image 1 1 white = [0; 0; 0; 0; 0; 0; 0; 0; 0; 255; 255; 255]%Z /\
  (Camera.pixel_index c 1 1 + 2 < 2 ^ 31)%Z /\
  (forall x' y', in_image c x' y' -> (x', y') <> (1, 1)%Z ->
     (Camera.pixel_index c x' y' + 2 < 9 \/ 9 + 2 < Camera.pixel_index c x' y')%Z).
Proof.
  cbv zeta.
  assert (Hin : in_image (grid_camera 2 2 3 1) 1 1) by (vm_compute; intuition discriminate).
  assert (Hc : (3 <= Camera.image_channels (grid_camera 2 2 3 1))%Z) by (vm_compute; discriminate).
  assert (Hl : holds_image (grid_camera 2 2 3 1) (repeat 0%Z 12)) by (vm_compute; discriminate).
  assert (Hf : Camera.fits_int (grid_camera 2 2 3 1)) by (vm_compute; reflexivity).
  split; [auto|]. split; [vm_compute; reflexivity|].
  pose proof (C10_setPixel_writes_three_bytes (grid_camera 2 2 3 1)
                (repeat 0%Z 12) 1 1 white Hin Hc Hl Hf) as W.
  cbv zeta in W.
  destruct W as ((_ & _ & _ & Hint) & _ & _ & _ & _ & _ & Hdisj).
  split; [exact Hint|exact Hdisj].
Defined.

(** With one channel per pixel (the default constructor [Camera()] builds
    such a camera: [image_channels = 1]) the pixels (0,0) and (1,0) are one
    byte apart, and [setPixel] at the second overwrites a byte [setPixel]
    stored for the first; the four bytes of the image are far from the limit
    of an [int]. *)
Lemma C10_counterexample :
  let c := grid_camera 2 2 1 1 in
  let image := repeat 0%Z 12 in
  in_image c 0 0 /\ in_image c 1 0 /\ holds_image c image /\
  Camera.fits_int c /\
  Camera.pixel_index c 0 0 = 0%Z /\ Camera.pixel_index c 1 0 = 1%Z /\
  vec_get (Camera.setPixel c image 0 0 white) 1 = 255%Z /\
  vec_get (Camera.setPixel c (Camera.setPixel c image 0 0 white) 1 0 black) 1
  = 0%Z.
Proof.
  cbv zeta. repeat split; vm_compute; congruence.
Qed.

(** ** The scaling of a clamped channel *)

Section Scaling.

Local Open Scope Z_scope.

Lemma digits2_bound (m : positive) : Zpos m < 2 ^ Zpos (digits2_pos m).
Proof.
  induction m as [p IH|p IH|]; cbn [digits2_pos].
  - rewrite Pos2Z.inj_succ, Z.pow_succ_r by lia. lia.
  - rewrite Pos2Z.inj_succ, Z.pow_succ_r by lia. lia.
  - reflexivity.
Qed.

(** The mantissa of a double has 53 bits at most. *)
Lemma valid_mantissa (s : bool) (m : positive) (e : Z) :
  valid_binary (S754_finite s m e) = true ->
  Zpos (digits2_pos m) <= 53 /\
  (Zpos (digits2_pos m) = 53 /\ -1074 <= e \/
   Zpos (digits2_pos m) < 53 /\ e = -1074).
Proof.
  cbn. unfold bounded, canonical_mantissa, fexp, emin, prec, emax.
  intros H. apply andb_true_iff in H. destruct H as [H _].
  apply Z.eqb_eq in H. lia.
Qed.

Lemma finite_mantissa_bound (w : float) (s : bool) (m : positive) (e : Z) :
  Prim2SF w = S754_finite s m e -> Zpos m < 2 ^ 53.
Proof.
  intros E. pose proof (Prim2SF_valid w) as V. rewrite E in V.
  apply valid_mantissa in V. destruct V as [V _].
  pose proof (digits2_bound m) as B.
  assert (2 ^ Zpos (digits2_pos m) <= 2 ^ 53)
    by (apply Z.pow_le_mono_r; lia).
  lia.
Qed.

(** The first and the second rounding shift of [binary_round_aux], by a
    known number of bits. *)
Ltac shift_by n :=
  match goal with
  | |- context [shr ?r ?E ?k] =>
      replace k with (Zpos n)
        by (unfold fexp, emin, prec, emax, Zdigits2; cbn [digits2_pos];
            rewrite ?Pos2Z.inj_succ; lia)
  end;
  cbn [shr iter_pos shr_1 shr_record_of_loc shr_m loc_of_shr_record
       round_nearest_even orb].

Ltac no_shift :=
  unfold shr_fexp;
  match goal with
  | |- context [shr ?r ?E ?k] =>
      replace k with 0
        by (unfold fexp, emin, prec, emax, Zdigits2; cbn [digits2_pos];
            rewrite ?Pos2Z.inj_succ; lia)
  end;
  cbn [shr shr_record_of_loc shr_m].

Ltac no_overflow :=
  match goal with
  | |- context [?x <=? emax - prec] =>
      replace (x <=? emax - prec) with true
        by (symmetry; apply Z.leb_le; unfold emax, prec; lia)
  end.

(** 256 is [2^52 * 2^-44]; the product of a normal double below 1 by 256 is
    exact: the mantissa stays and the exponent moves by 8. *)
Lemma mul256_normal (m : positive) (e : Z) :
  Zpos (digits2_pos m) = 53 -> -1074 <= e <= -53 ->
  SF64mul (S754_finite false m e) (S754_finite false 4503599627370496 (-44))
  = S754_finite false m (e + 8).
Proof.
  intros Hd He. unfold SF64mul, SFmul. cbn [xorb].
  rewrite Pos.mul_comm. unfold binary_round_aux. unfold shr_fexp at 1.
  cbn [Pos.mul].
  shift_by 52%positive. no_shift.
  replace (e + -44 + 52) with (e + 8) by lia.
  no_overflow. reflexivity.
Qed.

(** The product of a subnormal double by 256 stays tiny. *)
Lemma mul256_subnormal (m : positive) :
  Zpos (digits2_pos m) < 53 ->
  exists m' e',
    SF64mul (S754_finite false m (-1074))
            (S754_finite false 4503599627370496 (-44))
    = S754_finite false m' e' /\ e' <= -1067.
Proof.
  intros Hd. unfold SF64mul, SFmul. cbn [xorb].
  rewrite Pos.mul_comm. unfold binary_round_aux. unfold shr_fexp at 1.
  cbn [Pos.mul].
  assert (Hc : Zpos (digits2_pos m) <= 45 \/ Zpos (digits2_pos m) = 46 \/
               Zpos (digits2_pos m) = 47 \/ Zpos (digits2_pos m) = 48 \/
               Zpos (digits2_pos m) = 49 \/ Zpos (digits2_pos m) = 50 \/
               Zpos (digits2_pos m) = 51 \/ Zpos (digits2_pos m) = 52) by lia.
  destruct Hc as [H|[H|[H|[H|[H|[H|[H|H]]]]]]];
    [ shift_by 44%positive | shift_by 45%positive | shift_by 46%positive
    | shift_by 47%positive | shift_by 48%positive | shift_by 49%positive
    | shift_by 50%positive | shift_by 51%positive ];
    no_shift; no_overflow;
    do 2 eexists; (split; [reflexivity|lia]).
Qed.

Lemma shiftl_neg_div (a e : Z) : e <= 0 -> Z.shiftl a e = a / 2 ^ (- e).
Proof.
  intros He. rewrite <- Z.shiftr_div_pow2 by lia.
  unfold Z.shiftr. now rewrite Z.opp_involutive.
Qed.

Lemma SFltb_finite_false (ma m : positive) (ea e : Z) :
  SFltb (S754_finite false ma ea) (S754_finite false m e) = false ->
  e < ea \/ e = ea /\ Zpos m <= Zpos ma.
Proof.
  unfold SFltb, SFcompare.
  change (Pos.compare_cont Eq ma m) with (Pos.compare ma m).
  destruct (Z.compare_spec ea e); destruct (Pos.compare_spec ma m);
    intros; try discriminate; lia.
Qed.

(** A double [v] with [0 < v] and not [0.999 < v], times 256: a positive
    finite double below 256, whose integer part is 255 at most. *)
Lemma scaled_shape (v : float) :
  (0 <? v)%float = true -> (0.999 <? v)%float = false ->
  exists m' e',
    Prim2SF (v * 256)%float = S754_finite false m' e' /\
    e' <= -45 /\ 0 <= Z.shiftl (Zpos m') e' <= 255.
Proof.
  intros Hpos Hmax. rewrite ltb_spec in Hpos, Hmax.
  change (Prim2SF 0%float) with (S754_zero false) in Hpos.
  change (Prim2SF 0.999%float)
    with (S754_finite false 8998192055486251 (-53)) in Hmax.
  pose proof (Prim2SF_valid v) as V.
  assert (Hmul := mul_spec v 256).
  change (Prim2SF 256%float)
    with (S754_finite false 4503599627370496 (-44)) in Hmul.
  destruct (Prim2SF v) as [s|s| |s m e] eqn:Ev; try discriminate Hpos.
  { destruct s; discriminate. }
  destruct s; [discriminate Hpos|]. clear Hpos.
  apply SFltb_finite_false in Hmax. rename Hmax into He.
  apply valid_mantissa in V. destruct V as [_ [[Hd Hlo]|[Hd ->]]].
  - rewrite mul256_normal in Hmul by lia.
    exists m, (e + 8). split; [exact Hmul|]. split; [lia|].
    rewrite shiftl_neg_div by lia.
    pose proof (digits2_bound m) as B. rewrite Hd in B.
    split; [apply Z.div_pos; [lia|apply Z.pow_pos_nonneg; lia]|].
    destruct He as [He|[-> Hm]].
    + assert (Zpos m / 2 ^ (- (e + 8)) <= Zpos m / 2 ^ 46).
      { apply Z.div_le_compat_l; [lia|]. split; [reflexivity|].
        apply Z.pow_le_mono_r; lia. }
      assert (Zpos m / 2 ^ 46 <= (2 ^ 53 - 1) / 2 ^ 46)
        by (apply Z.div_le_mono; [reflexivity|lia]).
      change ((2 ^ 53 - 1) / 2 ^ 46) with 127 in *. lia.
    + change (- (-53 + 8)) with 45.
      assert (Zpos m / 2 ^ 45 <= 8998192055486251 / 2 ^ 45)
        by (apply Z.div_le_mono; [reflexivity|lia]).
      change (8998192055486251 / 2 ^ 45) with 255 in *. lia.
  - destruct (mul256_subnormal m Hd) as (m' & e' & E & He').
    rewrite E in Hmul. exists m', e'. split; [exact Hmul|]. split; [lia|].
    rewrite shiftl_neg_div by lia.
    pose proof (finite_mantissa_bound _ _ _ _ Hmul) as B.
    assert (2 ^ 53 <= 2 ^ (- e')) by (apply Z.pow_le_mono_r; lia).
    rewrite Z.div_small by lia. lia.
Qed.

(** A clamped channel times 256 is below 256, and its integer part is a
    byte. *)
Lemma scaled_channel (v : float) :
  let scaled := (Interval.clamp Camera.intensity v * 256)%float in
  (scaled <? 256)%float = true /\ 0 <= static_cast_int scaled <= 255.
Proof.
  cbv zeta. unfold Interval.clamp, Camera.intensity, std_max, std_min.
  cbn [Interval.min Interval.max].
  destruct (0.999 <? v)%float eqn:Hmax.
  - split; vm_compute; [reflexivity|split; discriminate].
  - destruct (0 <? v)%float eqn:Hpos.
    + destruct (scaled_shape v Hpos Hmax) as (m' & e' & E & He & Hb).
      split.
      * rewrite ltb_spec, E.
        change (Prim2SF 256%float)
          with (S754_finite false 4503599627370496 (-44)).
        unfold SFltb, SFcompare.
        destruct (Z.compare_spec e' (-44)); [lia|reflexivity|lia].
      * unfold static_cast_int. rewrite E. exact Hb.
    + split; vm_compute; [reflexivity|split; discriminate].
Qed.

(** C7.  [setPixel] stores, for each of the three channels, the integer part
    of the channel clamped to [0, 0.999] and scaled by 256; the scaled value
    is below 256 and its integer part lies in [0, 255] for every double, a
    NaN or an infinity included, so the conversion to [unsigned char] changes
    nothing. *)
Theorem C7_channel_bytes_in_range (c : Camera) (image : list Z) (x y : Z)
    (col : Color) :
  let scaled (v : float) := (Interval.clamp Camera.intensity v * 256)%float in
  let index := Camera.pixel_index c x y in
  (forall v : float,
     (scaled v <? 256)%float = true /\
     0 <= static_cast_int (scaled v) <= 255 /\
     Camera.channel_byte v = static_cast_int (scaled v)) /\
  Camera.setPixel c image x y col =
  vec_set
    (vec_set
       (vec_set image (index + 0) (static_cast_int (scaled (Vec3.x col))))
       (index + 1) (static_cast_int (scaled (Vec3.y col))))
    (index + 2) (static_cast_int (scaled (Vec3.z col))).
Proof.
  cbv zeta.
  assert (Hb : forall v : float,
             Camera.channel_byte v =
             static_cast_int (Interval.clamp Camera.intensity v * 256)).
  { intros v. unfold Camera.channel_byte, to_uchar.
    apply Z.mod_small. pose proof (scaled_channel v) as [_ H]. lia. }
  split.
  - intros v. pose proof (scaled_channel v) as [H1 H2]. auto.
  - unfold Camera.setPixel. now rewrite !Hb.
Qed.

End Scaling.

(** * The claims on shading and on the hardware-parallel boundary *)

(** A platform to run the code on: the generator is a counter, its draws
    walk through the sixteenths; [random_in_hemisphere] answers the normal
    itself; [near_zero] compares with 1e-8; default-constructed vectors are
    null. *)
Definition counter_platform : Platform := {|
  Rnd := Z;
  random_double := fun g => ((of_int ((5 * g + 3) mod 16) / 16)%float, (g + 1)%Z);
  random_in_hemisphere := fun n g => (n, (g + 1)%Z);
  near_zero := fun v =>
    (abs (Vec3.x v) <? 1e-8)%float && (abs (Vec3.y v) <? 1e-8)%float
    && (abs (Vec3.z v) <? 1e-8)%float;
  fresh_record := blank_record;
  fresh_vec := origin3
|}.

Definition red : Color := Vec3.mk 1 0 0.

(** The small sphere with a material of its own. *)
Definition sphere_of (m : Material) : Hittable :=
  HSphere (Sphere.make (Vec3.mk 0 0 (-1)) 0.5 m).

Section Shading.

Context `{Platform}.

(** C5, as amended.  At depth 1 or more, for a hit whose material is one of
    the subclasses of [Material] and whose [scatter] returns false,
    [ray_color] returns the attenuation of that [scatter]; it counts this one
    ray, draws nothing and does not recurse. *)
Theorem C5_absorbing_hit_returns_attenuation (r : Ray) (world : Hittable)
    (depth : nat) (g : Rnd) (n_rays : Z) (rec : Hit_record) (m : Material)
    (attenuation : Color) (scattered : Ray) (g' : Rnd) :
  hit fresh_record world r (Interval.mk 0.0001 inf) fresh_record = (true, rec) ->
  Hit_record.mat_ptr rec = Some m ->
  m <> BaseMaterial ->
  Material.scatter m r rec fresh_vec (Ray.mk fresh_vec fresh_vec) g
  = (false, attenuation, scattered, g') ->
  Camera.ray_color r world (S depth) g n_rays = (attenuation, g, (n_rays + 1)%Z).
Proof.
  intros Hhit Hmat Hm Hsc. cbn [Camera.ray_color].
  rewrite Hhit, Hmat.
  destruct m as [|color|albedo|albedo].
  - congruence.
  - cbn in Hsc. inversion Hsc; subst. reflexivity.
  - cbn in Hsc |- *. inversion Hsc; subst. reflexivity.
  - cbn in Hsc. destruct (random_in_hemisphere _ g). discriminate.
Qed.

End Shading.

#[local] Existing Instance counter_platform.

Lemma C5_witness :
  let r := ray_forward in
  let world := sphere_of (Constant red) in
  let res := hit (fresh_record) world r
               (Interval.mk 0.0001 inf) fresh_record in
  (res = (true, snd res) /\
   Hit_record.mat_ptr (snd res) = Some (Constant red) /\
   Constant red <> BaseMaterial /\
   Material.scatter (Constant red) r (snd res)
     fresh_vec (Ray.mk fresh_vec fresh_vec) 0%Z
   = (false, red, Ray.mk (Hit_record.p (snd res)) (Vec3.mk 0 0 0), 0%Z)) /\
  Camera.ray_color r world 3 0%Z 0%Z
  = (red, 0%Z, 1%Z).
Proof.
  cbv zeta.
  assert (H1 : hit (fresh_record)
                 (sphere_of (Constant red)) ray_forward
                 (Interval.mk 0.0001 inf) fresh_record
               = (true, snd (hit (fresh_record)
                               (sphere_of (Constant red)) ray_forward
                               (Interval.mk 0.0001 inf) fresh_record)))
    by (vm_compute; reflexivity).
  assert (H2 : Hit_record.mat_ptr
                 (snd (hit (fresh_record)
                         (sphere_of (Constant red)) ray_forward
                         (Interval.mk 0.0001 inf) fresh_record))
               = Some (Constant red))
    by (vm_compute; reflexivity).
  assert (H3 : Constant red <> BaseMaterial) by discriminate.
  assert (H4 : Material.scatter (Constant red)
                 ray_forward
                 (snd (hit (fresh_record)
                         (sphere_of (Constant red)) ray_forward
                         (Interval.mk 0.0001 inf) fresh_record))
                 fresh_vec (Ray.mk fresh_vec fresh_vec) 0%Z
               = (false, red,
                  Ray.mk (Hit_record.p
                            (snd (hit (fresh_record)
                                    (sphere_of (Constant red)) ray_forward
                                    (Interval.mk 0.0001 inf) fresh_record)))
                         (Vec3.mk 0 0 0), 0%Z))
    by reflexivity.
  split; [auto|].
  exact (C5_absorbing_hit_returns_attenuation
           ray_forward (sphere_of (Constant red)) 2 0%Z 0%Z _ _ _ _ _
           H1 H2 H3 H4).
Defined.

(** A sphere whose material is a plain [Material]: its [scatter] returns
    false and writes no attenuation, the hit is at depth 1, and [ray_color]
    answers the background gradient of the ray, whose first component is
    0.75, where the attenuation is the null vector [scatter] left in
    place. *)
Lemma C5_counterexample :
  let r := ray_forward in
  let world := sphere_of BaseMaterial in
  let res := hit (fresh_record) world r
               (Interval.mk 0.0001 inf) fresh_record in
  let sc := Material.scatter BaseMaterial r
              (snd res) fresh_vec (Ray.mk fresh_vec fresh_vec) 0%Z in
  let out := Camera.ray_color r world 1 0%Z 0%Z in
  fst res = true /\
  Hit_record.mat_ptr (snd res) = Some BaseMaterial /\
  fst (fst (fst sc)) = false /\
  snd (fst (fst sc)) = Vec3.mk 0 0 0 /\
  out = (Camera.background r, 0%Z, 1%Z) /\
  Vec3.x (fst (fst out)) = 0.75%float /\
  (Vec3.x (fst (fst out)) =? Vec3.x (snd (fst (fst sc))))%float = false.
Proof.
  cbv zeta. repeat split; vm_compute; reflexivity.
Qed.

(** ** The hardware-parallel boundary *)





(** * The claim on the sequential and the multi-threaded renderer *)

Section Rendering.

Context `{Platform}.
Variable c : Camera.
Variable scene : Hittable.

Local Open Scope Z_scope.

(** ** The ray counter does not feed back into the colours *)

Lemma ray_color_counter (depth : nat) : forall (r : Ray) (g : Rnd) (n k : Z),
  Camera.ray_color r scene depth g (n + k) =
  let '(col, g', m) := Camera.ray_color r scene depth g n in (col, g', m + k).
Proof.
  induction depth as [|depth IH]; intros r g n k; cbn [Camera.ray_color].
  - reflexivity.
  - destruct (hit fresh_record scene r (Interval.mk 0.0001 inf) fresh_record)
      as [[] rec]; [|f_equal; lia].
    destruct (Hit_record.mat_ptr rec) as [[|color|albedo|albedo]|];
      cbn [Material.scatter]; try (f_equal; lia).
    destruct (random_in_hemisphere (Hit_record.normal rec) g) as [v g1].
    destruct (_ =? 0)%float; [f_equal; lia|].
    replace (n + k + 1) with (n + 1 + k) by lia.
    rewrite IH.
    destruct (Camera.ray_color _ scene depth g1 (n + 1)) as [[col g2] m].
    reflexivity.
Qed.

Lemma sample_counter (x y : Z) (col : Color) (g : Rnd) (n k : Z) :
  Camera.sample c scene x y (col, g, n + k) =
  let '(col', g', m) := Camera.sample c scene x y (col, g, n) in
  (col', g', m + k).
Proof.
  unfold Camera.sample.
  destruct (random_double g) as [d1 g1]. destruct (random_double g1) as [d2 g2].
  rewrite ray_color_counter.
  destruct (Camera.ray_color _ scene Camera.max_depth g2 n) as [[s g3] m].
  reflexivity.
Qed.

Lemma samples_counter (l : list Z) (x y : Z) :
  forall (col : Color) (g : Rnd) (n k : Z),
  fold_left (fun acc _ => Camera.sample c scene x y acc) l (col, g, n + k) =
  let '(col', g', m) :=
    fold_left (fun acc _ => Camera.sample c scene x y acc) l (col, g, n) in
  (col', g', m + k).
Proof.
  induction l as [|a l IH]; intros col g n k; cbn [fold_left].
  - reflexivity.
  - rewrite sample_counter.
    destruct (Camera.sample c scene x y (col, g, n)) as [[col1 g1] m1].
    apply IH.
Qed.

(** The colour of a pixel, the generator after it and the rays it counts,
    for the generator [g] the thread enters the pixel with. *)
Definition pixel_color (px : Z * Z) (g : Rnd) : Color :=
  fst (fst (Camera.computePixelColor c scene (fst px) (snd px) g 0)).
Definition pixel_rng (px : Z * Z) (g : Rnd) : Rnd :=
  snd (fst (Camera.computePixelColor c scene (fst px) (snd px) g 0)).
Definition pixel_rays (px : Z * Z) (g : Rnd) : Z :=
  snd (Camera.computePixelColor c scene (fst px) (snd px) g 0).

Lemma computePixelColor_counter (x y : Z) (g : Rnd) (n : Z) :
  Camera.computePixelColor c scene x y g n =
  (pixel_color (x, y) g, pixel_rng (x, y) g, n + pixel_rays (x, y) g).
Proof.
  unfold pixel_color, pixel_rng, pixel_rays, Camera.computePixelColor.
  cbn [fst snd].
  pose proof (samples_counter (int_range 0 (Camera.samples_per_pixel c)) x y
                (Vec3.mk 0 0 0) g 0 n) as E.
  replace (0 + n) with n in E by lia. rewrite E.
  destruct (fold_left _ _ (Vec3.mk 0 0 0, g, 0)) as [[col g'] m].
  cbn. f_equal. lia.
Qed.

Lemma render_pixel_eq (px : Z * Z) (g : Rnd) (sh : Camera.shared) :
  Camera.render_pixel c scene px (g, sh) =
  (pixel_rng px g,
   Camera.mkShared
     (Camera.setPixel c (Camera.image sh) (fst px) (snd px) (pixel_color px g))
     (Camera.n_rays sh + pixel_rays px g)).
Proof.
  destruct px as [x y]. unfold Camera.render_pixel.
  rewrite computePixelColor_counter. reflexivity.
Qed.

(** ** What a thread does to its generator and to the buffer *)

(** The generator of a thread after the pixels [P], entered with [g]. *)
Fixpoint rng_after (P : list (Z * Z)) (g : Rnd) : Rnd :=
  match P with
  | [] => g
  | px :: P' => rng_after P' (pixel_rng px g)
  end.

(** The pixels [P] with the colour each gets, the thread entering with
    [g]. *)
Fixpoint strokes (P : list (Z * Z)) (g : Rnd) : list ((Z * Z) * Color) :=
  match P with
  | [] => []
  | px :: P' => (px, pixel_color px g) :: strokes P' (pixel_rng px g)
  end.

Definition paint (image : list Z) (s : (Z * Z) * Color) : list Z :=
  Camera.setPixel c image (fst (fst s)) (snd (fst s)) (snd s).

Lemma rng_after_app (P Q : list (Z * Z)) : forall g,
  rng_after (P ++ Q) g = rng_after Q (rng_after P g).
Proof. induction P as [|px P IH]; intros g; cbn; auto. Qed.

Lemma strokes_app (P Q : list (Z * Z)) : forall g,
  strokes (P ++ Q) g = strokes P g ++ strokes Q (rng_after P g).
Proof.
  induction P as [|px P IH]; intros g; cbn; [reflexivity|]. now rewrite IH.
Qed.

Lemma strokes_pixels (P : list (Z * Z)) : forall g,
  map fst (strokes P g) = P.
Proof. induction P as [|px P IH]; intros g; cbn; [reflexivity|]. now rewrite IH. Qed.

Lemma fold_render_pixel (P : list (Z * Z)) : forall g sh,
  fold_left (fun st px => Camera.render_pixel c scene px st) P (g, sh) =
  (rng_after P g,
   Camera.mkShared (fold_left paint (strokes P g) (Camera.image sh))
     (Camera.n_rays
        (snd (fold_left (fun st px => Camera.render_pixel c scene px st) P
                (g, sh))))).
Proof.
  induction P as [|px P IH]; intros g sh; cbn [fold_left rng_after strokes].
  - destruct sh; reflexivity.
  - rewrite render_pixel_eq. rewrite IH at 1. cbn. reflexivity.
Qed.

Lemma fold_left_flat_map {A B S : Type} (f : S -> B -> S) (h : A -> list B)
    (l : list A) : forall st,
  fold_left f (flat_map h l) st =
  fold_left (fun st a => fold_left f (h a) st) l st.
Proof.
  induction l as [|a l IH]; intros st; cbn; [reflexivity|].
  now rewrite fold_left_app, IH.
Qed.

Lemma fold_left_pointwise {A S : Type} (f f' : S -> A -> S) (l : list A) :
  (forall st a, f st a = f' st a) ->
  forall st, fold_left f l st = fold_left f' l st.
Proof.
  intros E. induction l as [|a l IH]; intros st; cbn; [reflexivity|].
  now rewrite E, IH.
Qed.

Lemma fold_left_map_arg {A B S : Type} (f : S -> B -> S) (h : A -> B)
    (l : list A) : forall st,
  fold_left f (map h l) st = fold_left (fun st a => f st (h a)) l st.
Proof. induction l as [|a l IH]; intros st; cbn; auto. Qed.

Lemma render_chunk_pixels (a b : Z) (st : Rnd * Camera.shared) :
  Camera.render_chunk c scene a b st =
  fold_left (fun st px => Camera.render_pixel c scene px st)
            (Camera.chunk_pixels c a b) st.
Proof.
  unfold Camera.render_chunk, Camera.chunk_pixels.
  rewrite fold_left_flat_map.
  apply fold_left_pointwise. intros st' y.
  now rewrite fold_left_map_arg.
Qed.

(** ** The buffer, byte by byte *)

(** The bytes of pixel [px] in the buffer. *)
Definition covers (px : Z * Z) (i : Z) : Prop :=
  Camera.pixel_index c (fst px) (snd px) <= i
  <= Camera.pixel_index c (fst px) (snd px) + 2.

Definition byte_at (px : Z * Z) (col : Color) (i : Z) : Z :=
  if i =? Camera.pixel_index c (fst px) (snd px)
  then Camera.channel_byte (Vec3.x col)
  else if i =? Camera.pixel_index c (fst px) (snd px) + 1
       then Camera.channel_byte (Vec3.y col)
       else Camera.channel_byte (Vec3.z col).

(** [image] is [image0] with the strokes [S] on it: a byte of a pixel of
    [S] has the colour of the stroke, any other byte is the one of
    [image0]. *)
Definition painted (S : (Z * Z) * Color -> Prop) (image0 image : list Z)
  : Prop :=
  length image = length image0 /\
  forall i,
    (forall px col, S (px, col) -> covers px i ->
                    vec_get image i = byte_at px col i) /\
    ((forall px col, S (px, col) -> ~ covers px i) ->
     vec_get image i = vec_get image0 i).

Hypothesis three_channels : 3 <= Camera.image_channels c.

Lemma painted_none (image0 : list Z) : painted (fun _ => False) image0 image0.
Proof. split; [reflexivity|]. intros i. split; [contradiction|reflexivity]. Qed.

Lemma painted_ext (S S' : (Z * Z) * Color -> Prop) (image0 image : list Z) :
  (forall s, S s <-> S' s) -> painted S image0 image -> painted S' image0 image.
Proof.
  intros E [Hlen Hp]. split; [exact Hlen|]. intros i.
  destruct (Hp i) as [H1 H2]. split.
  - intros px col Hs Hc. apply (H1 px col); [now apply E|exact Hc].
  - intros Hn. apply H2. intros px col Hs. apply (Hn px col). now apply E.
Qed.

Lemma painted_stroke (S : (Z * Z) * Color -> Prop) (image0 image : list Z)
    (px : Z * Z) (col : Color) :
  holds_image c image0 ->
  in_image c (fst px) (snd px) ->
  (forall px' col', S (px', col') ->
                    in_image c (fst px') (snd px') /\ px' <> px) ->
  painted S image0 image ->
  painted (fun s => S s \/ s = (px, col)) image0 (paint image (px, col)).
Proof.
  intros Hhold Hin Hother [Hlen Hp].
  assert (Hhold' : holds_image c image)
    by (unfold holds_image in *; now rewrite Hlen).
  destruct (pixel_index_in_buffer c image (fst px) (snd px) Hin three_channels
              Hhold') as [H0 H2].
  unfold paint. cbn [fst snd].
  split; [now rewrite setPixel_length|].
  intros i. rewrite setPixel_get by assumption.
  destruct (Hp i) as [Hin_S Hout_S]. split.
  - intros px' col' [Hs|E] Hc.
    + destruct (Hother px' col' Hs) as [Hin' Hne].
      assert (Hd := pixel_ranges_disjoint c (fst px') (snd px') (fst px) (snd px)
                      Hin' Hin three_channels).
      destruct Hd as [Hd|Hd].
      { destruct px, px'; cbn; congruence. }
      * unfold covers in Hc.
        destruct (Z.eqb_spec i (Camera.pixel_index c (fst px) (snd px))); [lia|].
        destruct (Z.eqb_spec i (Camera.pixel_index c (fst px) (snd px) + 1)); [lia|].
        destruct (Z.eqb_spec i (Camera.pixel_index c (fst px) (snd px) + 2)); [lia|].
        now apply Hin_S.
      * unfold covers in Hc.
        destruct (Z.eqb_spec i (Camera.pixel_index c (fst px) (snd px))); [lia|].
        destruct (Z.eqb_spec i (Camera.pixel_index c (fst px) (snd px) + 1)); [lia|].
        destruct (Z.eqb_spec i (Camera.pixel_index c (fst px) (snd px) + 2)); [lia|].
        now apply Hin_S.
    + inversion E; subst px' col'. unfold covers in Hc. unfold byte_at.
      destruct (Z.eqb_spec i (Camera.pixel_index c (fst px) (snd px))); [reflexivity|].
      destruct (Z.eqb_spec i (Camera.pixel_index c (fst px) (snd px) + 1)); [reflexivity|].
      destruct (Z.eqb_spec i (Camera.pixel_index c (fst px) (snd px) + 2)); [reflexivity|].
      lia.
  - intros Hn.
    assert (Hnc : ~ covers px i) by (apply (Hn px col); now right).
    unfold covers in Hnc.
    destruct (Z.eqb_spec i (Camera.pixel_index c (fst px) (snd px))); [lia|].
    destruct (Z.eqb_spec i (Camera.pixel_index c (fst px) (snd px) + 1)); [lia|].
    destruct (Z.eqb_spec i (Camera.pixel_index c (fst px) (snd px) + 2)); [lia|].
    apply Hout_S. intros px' col' Hs. apply (Hn px' col'). now left.
Qed.

Lemma covers_dec (px : Z * Z) (i : Z) : {covers px i} + {~ covers px i}.
Proof.
  unfold covers.
  destruct (Z_le_dec (Camera.pixel_index c (fst px) (snd px)) i);
    destruct (Z_le_dec i (Camera.pixel_index c (fst px) (snd px) + 2));
    [left|right|right|right]; lia.
Qed.

(** Two buffers that are [image0] with the same finite set of strokes on it
    are the same. *)
Lemma painted_unique (L : list ((Z * Z) * Color)) (image0 u v : list Z) :
  painted (fun s => In s L) image0 u ->
  painted (fun s => In s L) image0 v ->
  u = v.
Proof.
  intros [Hlu Hu] [Hlv Hv]. apply vec_ext; [congruence|].
  intros i _. destruct (Hu i) as [Hu1 Hu2]. destruct (Hv i) as [Hv1 Hv2].
  destruct (Exists_dec (fun s => covers (fst s) i) L) as [E|E].
  { intros s. apply covers_dec. }
  - apply Exists_exists in E. destruct E as ([px col] & Hs & Hc). cbn in Hc.
    rewrite (Hu1 px col Hs Hc), (Hv1 px col Hs Hc). reflexivity.
  - assert (Hn : forall px col, In (px, col) L -> ~ covers px i).
    { intros px col Hs Hc. apply E. apply Exists_exists.
      exists (px, col). auto. }
    rewrite (Hu2 Hn), (Hv2 Hn). reflexivity.
Qed.

(** The strokes of a thread, put on one after the other. *)
Lemma fold_paint_painted (L : list ((Z * Z) * Color)) :
  forall (S : (Z * Z) * Color -> Prop) (image0 image : list Z),
    holds_image c image0 ->
    NoDup (map fst L) ->
    (forall s, In s L -> in_image c (fst (fst s)) (snd (fst s))) ->
    (forall px col, S (px, col) ->
       in_image c (fst px) (snd px) /\ ~ In px (map fst L)) ->
    painted S image0 image ->
    painted (fun s => S s \/ In s L) image0 (fold_left paint L image).
Proof.
  induction L as [|[px col] L IH]; intros S image0 image Hhold Hnd Hin HS Hp;
    cbn [fold_left].
  - apply painted_ext with (S := S); [|exact Hp]. intros s. cbn. tauto.
  - cbn [map fst] in Hnd. inversion Hnd as [|? ? Hnotin Hnd']; subst.
    apply painted_ext
      with (S := fun s => (S s \/ s = (px, col)) \/ In s L).
    { intros s. cbn [In]. intuition congruence. }
    apply IH; auto.
    + intros s Hs. apply Hin. now right.
    + intros px' col' [Hs|E].
      * destruct (HS px' col' Hs) as [Hi Hni]. split; [exact Hi|].
        intros Hc. apply Hni. cbn. now right.
      * inversion E; subst. split; [|exact Hnotin].
        apply (Hin (px, col)). now left.
    + apply painted_stroke; auto.
      * apply (Hin (px, col)). now left.
      * intros px' col' Hs. destruct (HS px' col' Hs) as [Hi Hni].
        split; [exact Hi|]. intros ->. apply Hni. cbn. now left.
Qed.

(** ** The pixels of a chunk of rows *)

Lemma in_int_range (a b k : Z) : In k (int_range a b) <-> a <= k < b.
Proof.
  unfold int_range. rewrite in_map_iff. split.
  - intros (n & <- & Hn). apply in_seq in Hn. lia.
  - intros Hk. exists (Z.to_nat (k - a)). split; [lia|]. apply in_seq. lia.
Qed.

Lemma map_seq_from {A : Type} (m : nat) : forall (f : nat -> A) (n : nat),
  map f (seq n m) = map (fun k => f (n + k)%nat) (seq 0 m).
Proof.
  induction m as [|m IH]; intros f n; cbn [seq map]; [reflexivity|].
  rewrite (IH f (S n)), (IH (fun k => f (n + k)%nat) 1%nat).
  f_equal; [f_equal; lia|].
  apply map_ext. intros k. f_equal. lia.
Qed.

Lemma int_range_app (a b d : Z) :
  a <= b <= d -> int_range a d = int_range a b ++ int_range b d.
Proof.
  intros Hab. unfold int_range.
  replace (Z.to_nat (d - a)) with (Z.to_nat (b - a) + Z.to_nat (d - b))%nat
    by lia.
  rewrite seq_app, map_app. f_equal.
  rewrite (map_seq_from _ _ (0 + Z.to_nat (b - a))%nat).
  apply map_ext. intros n. lia.
Qed.

Lemma int_range_NoDup (a b : Z) : NoDup (int_range a b).
Proof.
  unfold int_range. apply NoDup_map_NoDup_ForallPairs; [|apply seq_NoDup].
  intros x y _ _ E. lia.
Qed.

Lemma in_chunk_pixels (a b : Z) (px : Z * Z) :
  In px (Camera.chunk_pixels c a b) <->
  a <= snd px < b /\ 0 <= fst px < Camera.image_width c.
Proof.
  unfold Camera.chunk_pixels. rewrite in_flat_map. split.
  - intros (y & Hy & Hx). apply in_int_range in Hy.
    apply in_map_iff in Hx. destruct Hx as (x & <- & Hx).
    apply in_int_range in Hx. cbn. lia.
  - intros [Hy Hx]. exists (snd px). split; [now apply in_int_range|].
    apply in_map_iff. exists (fst px). split; [now destruct px|].
    now apply in_int_range.
Qed.

Lemma chunk_pixels_app (a b d : Z) :
  a <= b <= d ->
  Camera.chunk_pixels c a d =
  Camera.chunk_pixels c a b ++ Camera.chunk_pixels c b d.
Proof.
  intros Hab. unfold Camera.chunk_pixels.
  now rewrite (int_range_app a b d Hab), flat_map_app.
Qed.

Lemma flat_map_NoDup {A B : Type} (f : A -> list B) (l : list A) :
  NoDup l ->
  (forall a, In a l -> NoDup (f a)) ->
  (forall a a' b, In a l -> In a' l -> In b (f a) -> In b (f a') -> a = a') ->
  NoDup (flat_map f l).
Proof.
  induction 1 as [|a l Ha Hl IH]; intros Hf Hd; cbn; [constructor|].
  apply NoDup_app.
  - apply Hf. now left.
  - apply IH.
    + intros a' Ha'. apply Hf. now right.
    + intros a1 a2 b H1 H2. apply Hd; now right.
  - intros b Hb Hb'. apply in_flat_map in Hb'. destruct Hb' as (a' & Ha' & Hb').
    assert (a = a') by (apply (Hd a a' b); auto; [now left|now right]).
    subst a'. contradiction.
Qed.

Lemma chunk_pixels_NoDup (a b : Z) : NoDup (Camera.chunk_pixels c a b).
Proof.
  unfold Camera.chunk_pixels. apply flat_map_NoDup.
  - apply int_range_NoDup.
  - intros y _. apply NoDup_map_NoDup_ForallPairs; [|apply int_range_NoDup].
    intros x x' _ _ E. congruence.
  - intros y y' px _ _ H1 H2.
    apply in_map_iff in H1. destruct H1 as (x & <- & _).
    apply in_map_iff in H2. destruct H2 as (x' & E & _). congruence.
Qed.

(** ** The bands of [renderPixelsParallel] *)

Variable num_threads : Z.
Hypothesis some_thread : 1 <= num_threads.

Local Abbreviation height := (Camera.image_height c).
Local Abbreviation cs := (Camera.chunk_size c num_threads).

Lemma chunk_size_bounds :
  (0 <= height -> 0 <= cs /\ num_threads * cs <= height) /\
  (height < 0 -> cs <= 0 /\ height <= num_threads * cs).
Proof.
  unfold Camera.chunk_size. split; intros Hh.
  - pose proof (Z.quot_rem' height num_threads).
    pose proof (Z.rem_bound_pos height num_threads). nia.
  - pose proof (Z.quot_rem' (- height) num_threads).
    pose proof (Z.rem_bound_pos (- height) num_threads).
    rewrite Z.quot_opp_l in * by lia. nia.
Qed.

(** A row of the band of thread [t] is a row of the image, and the band lies
    between the rows [start_y] and [end_y] of the image. *)
Lemma band_in_image (t y : Z) :
  0 <= t < num_threads ->
  Camera.start_y c num_threads t <= y < Camera.end_y c num_threads t ->
  0 <= y < height /\ 0 <= Camera.start_y c num_threads t /\
  Camera.end_y c num_threads t <= height.
Proof.
  intros Ht. unfold Camera.end_y, Camera.start_y.
  destruct chunk_size_bounds as [Hpos Hneg].
  generalize dependent (Camera.chunk_size c num_threads). intros k Hpos Hneg.
  generalize dependent (Camera.image_height c). intros h Hpos Hneg.
  destruct (Z.eqb_spec t (num_threads - 1)) as [E|Hlast]; cbv iota; intros Hy.
  - subst t. destruct (Z_lt_dec h 0) as [Hh|Hh].
    + specialize (Hneg Hh). clear Hpos.
      assert ((num_threads - 1) * k = num_threads * k - k) by ring. lia.
    + assert (Hp : 0 <= h) by lia. specialize (Hpos Hp).
      assert (0 <= (num_threads - 1) * k) by nia. lia.
  - destruct (Z_lt_dec h 0) as [Hh|Hh].
    + specialize (Hneg Hh). clear Hpos. lia.
    + assert (Hp : 0 <= h) by lia. specialize (Hpos Hp).
      assert (0 <= t * k) by nia.
      assert ((t + 1) * k <= num_threads * k) by nia. lia.
Qed.

Lemma bands_disjoint (t t' y : Z) :
  0 <= t < num_threads -> 0 <= t' < num_threads ->
  Camera.start_y c num_threads t <= y < Camera.end_y c num_threads t ->
  Camera.start_y c num_threads t' <= y < Camera.end_y c num_threads t' ->
  t = t'.
Proof.
  intros Ht Ht' Hy Hy'.
  destruct (band_in_image t y Ht Hy) as [Hyi _].
  destruct chunk_size_bounds as [Hpos _].
  assert (Hh : 0 <= height) by lia. specialize (Hpos Hh).
  revert Hy Hy' Hyi Hpos Hh.
  unfold Camera.end_y, Camera.start_y in *.
  generalize dependent (Camera.chunk_size c num_threads). intros k.
  generalize dependent (Camera.image_height c). intros h.
  destruct (Z.eqb_spec t (num_threads - 1)) as [E|Hlast];
    destruct (Z.eqb_spec t' (num_threads - 1)) as [E'|Hlast'];
    cbv iota; intros; try lia.
  - subst t. assert (t' + 1 <= num_threads - 1) by lia.
    assert ((t' + 1) * k <= (num_threads - 1) * k) by nia. lia.
  - subst t'. assert (t + 1 <= num_threads - 1) by lia.
    assert ((t + 1) * k <= (num_threads - 1) * k) by nia. lia.
  - destruct (Z_lt_dec t t'); [|destruct (Z_lt_dec t' t); [|lia]].
    + assert ((t + 1) * k <= t' * k) by nia. lia.
    + assert ((t' + 1) * k <= t * k) by nia. lia.
Qed.

Lemma bands_cover (y : Z) :
  0 <= y < height ->
  exists t, 0 <= t < num_threads /\
    Camera.start_y c num_threads t <= y < Camera.end_y c num_threads t.
Proof.
  intros Hy. destruct chunk_size_bounds as [Hpos _]. specialize (Hpos ltac:(lia)).
  unfold Camera.end_y, Camera.start_y.
  destruct (Z_lt_dec y ((num_threads - 1) * cs)) as [Hlow|Hhigh].
  - exists (y / cs). assert (0 < cs) by nia.
    pose proof (Z.div_mod y cs ltac:(lia)).
    pose proof (Z.mod_pos_bound y cs ltac:(lia)).
    assert (0 <= y / cs) by (apply Z.div_pos; lia).
    assert (y / cs < num_threads - 1) by nia.
    destruct (Z.eqb_spec (y / cs) (num_threads - 1)); [lia|]. nia.
  - exists (num_threads - 1). rewrite Z.eqb_refl. lia.
Qed.

(** ** The threads of [renderPixelsParallel], step by step *)

Variable gens : nat -> Rnd.

(** The pixels of thread [k]. *)
Definition plan (k : nat) : list (Z * Z) :=
  Camera.chunk_pixels c (Camera.start_y c num_threads (Z.of_nat k))
                        (Camera.end_y c num_threads (Z.of_nat k)).

Lemma plan_in_image (k : nat) (px : Z * Z) :
  Z.of_nat k < num_threads -> In px (plan k) -> in_image c (fst px) (snd px).
Proof.
  intros Hk Hin. apply in_chunk_pixels in Hin. destruct Hin as [Hy Hx].
  destruct (band_in_image (Z.of_nat k) (snd px)) as [Hyi _]; [lia|exact Hy|].
  split; assumption.
Qed.

Lemma plans_disjoint (k j : nat) (px : Z * Z) :
  Z.of_nat k < num_threads -> Z.of_nat j < num_threads ->
  In px (plan k) -> In px (plan j) -> k = j.
Proof.
  intros Hk Hj Hin Hin'.
  apply in_chunk_pixels in Hin. apply in_chunk_pixels in Hin'.
  assert (Z.of_nat k = Z.of_nat j); [|lia].
  apply (bands_disjoint _ _ (snd px)); try lia; tauto.
Qed.

(** The strokes the threads have put on the buffer when thread [k] has
    rendered the pixels [done k]. *)
Definition strokes_of (done : nat -> list (Z * Z)) (s : (Z * Z) * Color)
  : Prop :=
  exists k, Z.of_nat k < num_threads /\ In s (strokes (done k) (gens k)).

(** What every state of the threads satisfies: each thread has rendered a
    first part [done k] of its pixels with its own generator, and the buffer
    is the buffer of the start with the strokes of these parts on it. *)
Definition consistent (image0 : list Z) (done : nat -> list (Z * Z))
    (cfg : (nat -> Camera.worker) * Camera.shared) : Prop :=
  (forall k, Z.of_nat k < num_threads ->
     plan k = done k ++ Camera.todo (fst cfg k) /\
     Camera.rng (fst cfg k) = rng_after (done k) (gens k)) /\
  painted (strokes_of done) image0 (Camera.image (snd cfg)).

Lemma consistent_start (sh : Camera.shared) :
  consistent (Camera.image sh) (fun _ => [])
    (Camera.workers c num_threads gens, sh).
Proof.
  split.
  - intros k Hk. cbn. split; reflexivity.
  - cbn [snd]. apply painted_ext with (S := fun _ => False).
    + intros s. split; [contradiction|]. intros (k & _ & Hin). exact Hin.
    + apply painted_none.
Qed.

Lemma in_strokes_pixel (P : list (Z * Z)) (g : Rnd) (px : Z * Z) (col : Color) :
  In (px, col) (strokes P g) -> In px P.
Proof.
  intros Hin. rewrite <- (strokes_pixels P g).
  apply in_map_iff. exists (px, col). auto.
Qed.

Lemma consistent_step (image0 : list Z) (done : nat -> list (Z * Z))
    (k : nat) (cfg cfg' : (nat -> Camera.worker) * Camera.shared) :
  holds_image c image0 ->
  consistent image0 done cfg ->
  Camera.step c scene num_threads k cfg = Some cfg' ->
  exists done', consistent image0 done' cfg'.
Proof.
  intros Hhold [Hplan Hpaint] Hstep. destruct cfg as [ws sh].
  unfold Camera.step in Hstep. cbn [fst snd] in *.
  destruct (Z.ltb_spec (Z.of_nat k) num_threads) as [Hk|]; [|discriminate].
  destruct (Camera.todo (ws k)) as [|px rest] eqn:Etodo; [discriminate|].
  rewrite render_pixel_eq in Hstep. inversion Hstep; subst cfg'; clear Hstep.
  destruct (Hplan k Hk) as [Hpk Hrk]. rewrite Etodo in Hpk.
  exists (fun j => if Nat.eqb j k then done k ++ [px] else done j).
  split; cbn [fst snd Camera.image].
  - intros j Hj. destruct (Nat.eqb_spec j k) as [->|Hne].
    + cbn [Camera.todo Camera.rng]. split.
      * rewrite <- app_assoc. exact Hpk.
      * rewrite rng_after_app. cbn. now rewrite Hrk.
    + apply Hplan. exact Hj.
  - apply painted_ext
      with (S := fun s => strokes_of done s \/
                          s = (px, pixel_color px (Camera.rng (ws k)))).
    { intros s. unfold strokes_of. split.
      - intros [(j & Hj & Hin) | ->].
        + exists j. split; [exact Hj|].
          destruct (Nat.eqb_spec j k) as [->|Hne]; [|exact Hin].
          rewrite strokes_app. apply in_or_app. now left.
        + exists k. split; [exact Hk|]. rewrite Nat.eqb_refl.
          rewrite strokes_app. apply in_or_app. right. cbn.
          left. now rewrite Hrk.
      - intros (j & Hj & Hin).
        destruct (Nat.eqb_spec j k) as [->|Hne].
        + rewrite strokes_app in Hin. apply in_app_or in Hin.
          destruct Hin as [Hin|Hin].
          * left. exists k. auto.
          * right. cbn in Hin. destruct Hin as [<- | []]. now rewrite Hrk.
        + left. exists j. auto. }
    change (Camera.setPixel c (Camera.image sh) (fst px) (snd px)
              (pixel_color px (Camera.rng (ws k))))
      with (paint (Camera.image sh) (px, pixel_color px (Camera.rng (ws k)))).
    apply painted_stroke; auto.
    + apply (plan_in_image k); [exact Hk|]. rewrite Hpk.
      apply in_or_app. right. now left.
    + intros px' col' (j & Hj & Hin). apply in_strokes_pixel in Hin.
      destruct (Hplan j Hj) as [Hpj _].
      assert (Hin' : In px' (plan j)) by (rewrite Hpj; apply in_or_app; now left).
      split; [apply (plan_in_image j); assumption|].
      intros ->.
      assert (j = k).
      { apply (plans_disjoint j k px); auto.
        rewrite Hpk. apply in_or_app. right. now left. }
      subst j.
      pose proof (chunk_pixels_NoDup
                    (Camera.start_y c num_threads (Z.of_nat k))
                    (Camera.end_y c num_threads (Z.of_nat k))) as Hnd.
      fold (plan k) in Hnd. rewrite Hpk in Hnd.
      apply NoDup_remove_2 in Hnd. apply Hnd. apply in_or_app. now left.
Qed.

Lemma consistent_run (image0 : list Z) (schedule : list nat) :
  holds_image c image0 ->
  forall done cfg cfg',
    consistent image0 done cfg ->
    Camera.run c scene num_threads schedule cfg = Some cfg' ->
    exists done', consistent image0 done' cfg'.
Proof.
  intros Hhold. induction schedule as [|k schedule IH];
    intros done cfg cfg' Hc Hrun; cbn in Hrun.
  - inversion Hrun; subst. eauto.
  - destruct (Camera.step c scene num_threads k cfg) as [cfg1|] eqn:Es;
      [|discriminate].
    destruct (consistent_step image0 done k cfg cfg1 Hhold Hc Es) as [done1 Hc1].
    eapply IH; eauto.
Qed.

(** When the threads are joined the buffer carries the strokes of all the
    pixels of all the threads. *)
Lemma joined_painted (image0 : list Z) (done : nat -> list (Z * Z))
    (ws : nat -> Camera.worker) (sh : Camera.shared) :
  consistent image0 done (ws, sh) ->
  Camera.joined num_threads ws ->
  painted (strokes_of plan) image0 (Camera.image sh).
Proof.
  intros [Hplan Hpaint] Hj. cbn [fst snd] in *.
  apply painted_ext with (S := strokes_of done); [|exact Hpaint].
  assert (E : forall k, Z.of_nat k < num_threads -> done k = plan k).
  { intros k Hk. destruct (Hplan k Hk) as [Hp _].
    rewrite (Hj k Hk), app_nil_r in Hp. auto. }
  intros s. unfold strokes_of.
  split; intros (k & Hk & Hin); exists k; (split; [exact Hk|]).
  - now rewrite <- E.
  - now rewrite E.
Qed.

(** ** The sequential renderer *)

Lemma render_chunk_image (a b : Z) (g : Rnd) (sh : Camera.shared) :
  fst (Camera.render_chunk c scene a b (g, sh))
  = rng_after (Camera.chunk_pixels c a b) g /\
  Camera.image (snd (Camera.render_chunk c scene a b (g, sh)))
  = fold_left paint (strokes (Camera.chunk_pixels c a b) g) (Camera.image sh).
Proof.
  rewrite render_chunk_pixels, fold_render_pixel. split; reflexivity.
Qed.

Lemma sequential_painted (g : Rnd) (sh : Camera.shared) :
  holds_image c (Camera.image sh) ->
  painted
    (fun s => In s (strokes (Camera.chunk_pixels c 0 (Camera.image_height c)) g))
    (Camera.image sh)
    (Camera.image (snd (Camera.renderPixels c scene g sh))).
Proof.
  intros Hhold. unfold Camera.renderPixels.
  destruct (render_chunk_image 0 (Camera.image_height c) g sh) as [_ ->].
  apply painted_ext
    with (S := fun s => False \/
                 In s (strokes (Camera.chunk_pixels c 0 (Camera.image_height c)) g)).
  { intros s. tauto. }
  apply fold_paint_painted.
  - exact Hhold.
  - rewrite strokes_pixels. apply chunk_pixels_NoDup.
  - intros [px col] Hin. apply in_strokes_pixel in Hin.
    apply in_chunk_pixels in Hin. cbn. split; tauto.
  - contradiction.
  - apply painted_none.
Qed.

(** ** The two renderers draw the same strokes *)

(** Every thread finds its generator in the state the generator of the
    sequential renderer is in when it reaches the first row of the thread:
    every pixel draws the same samples under both renderers. *)
Definition same_samples (g0 : Rnd) (sh : Camera.shared) : Prop :=
  forall k, Z.of_nat k < num_threads ->
    gens k =
    fst (Camera.render_chunk c scene 0
           (Camera.start_y c num_threads (Z.of_nat k)) (g0, sh)).

Lemma band_strokes (g0 : Rnd) (sh : Camera.shared) (k : nat) :
  same_samples g0 sh ->
  Z.of_nat k < num_threads ->
  plan k <> [] ->
  exists A B,
    Camera.chunk_pixels c 0 (Camera.image_height c) = A ++ plan k ++ B /\
    strokes (Camera.chunk_pixels c 0 (Camera.image_height c)) g0
    = strokes A g0 ++ strokes (plan k) (gens k)
      ++ strokes B (rng_after (plan k) (gens k)).
Proof.
  intros Hs Hk Hne.
  destruct (plan k) as [|px rest] eqn:Ep; [congruence|].
  assert (Hin : In px (plan k)) by (rewrite Ep; now left).
  apply in_chunk_pixels in Hin. destruct Hin as [Hy _].
  destruct (band_in_image (Z.of_nat k) (snd px)) as (_ & H0 & H1);
    [lia|exact Hy|].
  rewrite <- Ep.
  exists (Camera.chunk_pixels c 0 (Camera.start_y c num_threads (Z.of_nat k))),
         (Camera.chunk_pixels c (Camera.end_y c num_threads (Z.of_nat k))
            (Camera.image_height c)).
  assert (E : Camera.chunk_pixels c 0 (Camera.image_height c) =
              Camera.chunk_pixels c 0 (Camera.start_y c num_threads (Z.of_nat k))
              ++ plan k
              ++ Camera.chunk_pixels c (Camera.end_y c num_threads (Z.of_nat k))
                   (Camera.image_height c)).
  { unfold plan.
    rewrite <- (chunk_pixels_app (Camera.start_y c num_threads (Z.of_nat k))
                  (Camera.end_y c num_threads (Z.of_nat k))
                  (Camera.image_height c)) by lia.
    apply chunk_pixels_app. lia. }
  split; [exact E|].
  rewrite E at 1. rewrite !strokes_app.
  rewrite (Hs k Hk).
  destruct (render_chunk_image 0 (Camera.start_y c num_threads (Z.of_nat k))
              g0 sh) as [-> _].
  reflexivity.
Qed.

Lemma same_strokes (g0 : Rnd) (sh : Camera.shared) (s : (Z * Z) * Color) :
  same_samples g0 sh ->
  strokes_of plan s <->
  In s (strokes (Camera.chunk_pixels c 0 (Camera.image_height c)) g0).
Proof.
  intros Hs. split.
  - intros (k & Hk & Hin).
    assert (Hne : plan k <> []).
    { intros E. rewrite E in Hin. exact Hin. }
    destruct (band_strokes g0 sh k Hs Hk Hne) as (A & B & _ & ->).
    apply in_or_app. right. apply in_or_app. now left.
  - intros Hin. destruct s as [px col].
    pose proof (in_strokes_pixel _ _ _ _ Hin) as Hpx.
    pose proof (chunk_pixels_NoDup 0 (Camera.image_height c)) as Hnd.
    apply in_chunk_pixels in Hpx. destruct Hpx as [Hy Hx].
    destruct (bands_cover (snd px) Hy) as (t & Ht & Hband).
    assert (Hk : Z.of_nat (Z.to_nat t) < num_threads) by lia.
    assert (Hpk : In px (plan (Z.to_nat t))).
    { apply in_chunk_pixels. rewrite Z2Nat.id by lia. auto. }
    assert (Hne : plan (Z.to_nat t) <> []).
    { intros E. rewrite E in Hpk. exact Hpk. }
    destruct (band_strokes g0 sh (Z.to_nat t) Hs Hk Hne) as (A & B & EP & ES).
    exists (Z.to_nat t). split; [exact Hk|].
    rewrite EP in Hnd. rewrite ES in Hin.
    apply in_app_or in Hin. destruct Hin as [Hin|Hin].
    { exfalso. apply in_strokes_pixel in Hin.
      apply in_split in Hpk. destruct Hpk as (P1 & P2 & EQ).
      rewrite EQ in Hnd. rewrite <- !app_assoc in Hnd. cbn in Hnd.
      rewrite app_assoc in Hnd. apply NoDup_remove_2 in Hnd.
      apply Hnd. apply in_or_app. left. apply in_or_app. now left. }
    apply in_app_or in Hin. destruct Hin as [Hin|Hin]; [exact Hin|].
    exfalso. apply in_strokes_pixel in Hin.
    apply in_split in Hpk. destruct Hpk as (P1 & P2 & EQ).
    rewrite EQ in Hnd. rewrite <- !app_assoc in Hnd. cbn in Hnd.
    rewrite app_assoc in Hnd. apply NoDup_remove_2 in Hnd.
    apply Hnd. apply in_or_app. right. apply in_or_app. now right.
Qed.

(** ** The threads can always be run to the end *)

Lemma run_app (s1 s2 : list nat) : forall cfg,
  Camera.run c scene num_threads (s1 ++ s2) cfg =
  match Camera.run c scene num_threads s1 cfg with
  | Some cfg' => Camera.run c scene num_threads s2 cfg'
  | None => None
  end.
Proof.
  induction s1 as [|k s1 IH]; intros cfg; cbn; [reflexivity|].
  destruct (Camera.step c scene num_threads k cfg); auto.
Qed.

(** Thread [k] alone, until it has no pixel left. *)
Lemma run_thread (k : nat) :
  Z.of_nat k < num_threads ->
  forall (n : nat) (ws : nat -> Camera.worker) (sh : Camera.shared),
    length (Camera.todo (ws k)) = n ->
    exists ws' sh',
      Camera.run c scene num_threads (repeat k n) (ws, sh) = Some (ws', sh') /\
      Camera.todo (ws' k) = [] /\
      forall j, j <> k -> ws' j = ws j.
Proof.
  intros Hk. induction n as [|n IH]; intros ws sh Hlen.
  - exists ws, sh. cbn. repeat split; auto.
    now apply length_zero_iff_nil.
  - cbn [repeat Camera.run]. unfold Camera.step.
    destruct (Z.ltb_spec (Z.of_nat k) num_threads); [|lia].
    destruct (Camera.todo (ws k)) as [|px rest] eqn:Et; [discriminate|].
    destruct (Camera.render_pixel c scene px (Camera.rng (ws k), sh))
      as [g sh1].
    destruct (IH (fun j => if Nat.eqb j k then Camera.mkWorker rest g else ws j)
                 sh1) as (ws' & sh' & Hrun & Hdone & Hsame).
    { rewrite Nat.eqb_refl. cbn in *. lia. }
    exists ws', sh'. repeat split; auto.
    intros j Hj. rewrite (Hsame j Hj).
    destruct (Nat.eqb_spec j k); [contradiction|reflexivity].
Qed.

Lemma run_threads (m : nat) :
  Z.of_nat m <= num_threads ->
  forall (ws : nat -> Camera.worker) (sh : Camera.shared),
    exists schedule ws' sh',
      Camera.run c scene num_threads schedule (ws, sh) = Some (ws', sh') /\
      (forall k, (k < m)%nat -> Camera.todo (ws' k) = []) /\
      forall j, (m <= j)%nat -> ws' j = ws j.
Proof.
  induction m as [|m IH]; intros Hm ws sh.
  - exists [], ws, sh. cbn. repeat split; auto. intros k Hk. lia.
  - destruct (IH ltac:(lia) ws sh) as (s1 & ws1 & sh1 & Hrun1 & Hdone1 & Hsame1).
    destruct (run_thread m ltac:(lia) (length (Camera.todo (ws1 m))) ws1 sh1
                eq_refl) as (ws2 & sh2 & Hrun2 & Hdone2 & Hsame2).
    exists (s1 ++ repeat m (length (Camera.todo (ws1 m)))), ws2, sh2.
    rewrite run_app, Hrun1. repeat split; auto.
    + intros k Hk. destruct (Nat.eq_dec k m) as [->|Hne]; [exact Hdone2|].
      rewrite (Hsame2 k Hne). apply Hdone1. lia.
    + intros j Hj. rewrite (Hsame2 j ltac:(lia)). apply Hsame1. lia.
Qed.

End Rendering.

(** C4, as amended.  For an image whose byte count fits an [int] (so that
    no index [setPixel] computes overflows), with at least three channels per
    pixel, a buffer that holds the image and at least one thread, when every
    thread of
    [renderPixelsParallel] finds its generator in the state in which the
    sequential renderer reaches the first row of the thread (so that every
    pixel draws the same samples under both), the threads can be run to the
    end, and however their steps interleave the buffer they leave is the
    buffer [renderPixels] leaves. *)
Theorem C4_parallel_render_matches_sequential `{Platform} (c : Camera)
    (scene : Hittable) (num_threads : Z) (gens : nat -> Rnd) (g0 : Rnd)
    (sh : Camera.shared) :
  Camera.fits_int c ->
  (3 <= Camera.image_channels c)%Z ->
  holds_image c (Camera.image sh) ->
  (1 <= num_threads)%Z ->
  same_samples c scene num_threads gens g0 sh ->
  (forall x y, in_image c x y ->
     (0 <= Camera.pixel_index c x y /\
      Camera.pixel_index c x y + 2 < 2 ^ 31)%Z) /\
  (exists schedule sh',
     Camera.renderPixelsParallel c scene num_threads gens schedule sh sh') /\
  (forall schedule sh',
     Camera.renderPixelsParallel c scene num_threads gens schedule sh sh' ->
     Camera.image sh' = Camera.image (snd (Camera.renderPixels c scene g0 sh))).
Proof.
  intros Hfit Hch Hhold Hn Hs.
  split; [intros x y Hin; apply (pixel_index_is_int c x y Hin Hch Hfit)|].
  split.
  - destruct (run_threads c scene num_threads (Z.to_nat num_threads)
                ltac:(lia) (Camera.workers c num_threads gens) sh)
      as (schedule & ws' & sh' & Hrun & Hdone & _).
    exists schedule, sh', ws'. split; [exact Hrun|].
    intros k Hk. apply Hdone. lia.
  - intros schedule sh' (ws' & Hrun & Hj).
    destruct (consistent_run c scene Hch num_threads Hn gens (Camera.image sh)
                schedule Hhold _ _ _
                (consistent_start c scene num_threads gens sh) Hrun)
      as [done Hc].
    pose proof (joined_painted c scene num_threads gens _ _ _ _ Hc Hj) as Hp.
    pose proof (sequential_painted c scene Hch g0 sh Hhold) as Hq.
    apply painted_unique
      with (c := c)
           (L := strokes c scene
                   (Camera.chunk_pixels c 0 (Camera.image_height c)) g0)
           (image0 := Camera.image sh); [|exact Hq].
    apply painted_ext with (S := strokes_of c scene num_threads gens
                                   (plan c num_threads)); [|exact Hp].
    intros s. apply same_strokes with (sh := sh); assumption.
Qed.

(** The scene with nothing in it. *)
Definition sky : Hittable := HList [].

(** The generators of the threads when every thread starts from the state
    the sequential renderer, started from [g0], has on reaching the first row
    of the thread. *)
Definition aligned_gens (c : Camera) (scene : Hittable) (num_threads : Z)
    (g0 : Z) (sh : Camera.shared) : nat -> Z :=
  fun k =>
    fst (Camera.render_chunk c scene 0
           (Camera.start_y c num_threads (Z.of_nat k)) (g0, sh)).

(** A buffer of twelve null bytes and a counter at zero. *)
Definition blank_buffer : Camera.shared := Camera.mkShared (repeat 0%Z 12) 0.

Lemma C4_witness :
  let c := grid_camera 2 2 3 1 in
  let gens := aligned_gens c nested_scene 2 0 blank_buffer in
  (Camera.fits_int c /\
   (3 <= Camera.image_channels c)%Z /\
   holds_image c (Camera.image blank_buffer) /\
   (1 <= 2)%Z /\
   same_samples c nested_scene 2 gens 0%Z blank_buffer) /\
  (forall x y, in_image c x y ->
     (0 <= Camera.pixel_index c x y /\
      Camera.pixel_index c x y + 2 < 2 ^ 31)%Z) /\
  (exists schedule sh',
     Camera.renderPixelsParallel c nested_scene 2 gens schedule
       blank_buffer sh') /\
  (forall schedule sh',
     Camera.renderPixelsParallel c nested_scene 2 gens schedule
       blank_buffer sh' ->
     Camera.image sh' =
     Camera.image (snd (Camera.renderPixels c nested_scene 0%Z blank_buffer))).
Proof.
  cbv zeta.
  assert (H0 : Camera.fits_int (grid_camera 2 2 3 1))
    by (vm_compute; reflexivity).
  assert (H1 : (3 <= Camera.image_channels (grid_camera 2 2 3 1))%Z)
    by (vm_compute; discriminate).
  assert (H2 : holds_image (grid_camera 2 2 3 1) (Camera.image blank_buffer))
    by (vm_compute; discriminate).
  assert (H3 : (1 <= 2)%Z) by lia.
  assert (H4 : same_samples (grid_camera 2 2 3 1) nested_scene 2
                 (aligned_gens (grid_camera 2 2 3 1) nested_scene 2 0
                    blank_buffer) 0%Z blank_buffer)
    by (intros k Hk; unfold aligned_gens; reflexivity).
  split; [auto|].
  exact (C4_parallel_render_matches_sequential (grid_camera 2 2 3 1)
           nested_scene 2
           (aligned_gens (grid_camera 2 2 3 1) nested_scene 2 0 blank_buffer)
           0%Z blank_buffer H0 H1 H2 H3 H4).
Defined.

(** With one channel per pixel the bytes of neighbouring pixels overlap and
    the last write wins: on a 2 by 2 image of the empty scene, two threads
    that draw the same samples as the sequential renderer and run the second
    band before the first leave a buffer that differs from the sequential
    one in its third and fourth byte. *)
Lemma C4_counterexample :
  let c := grid_camera 2 2 1 1 in
  let gens := aligned_gens c sky 2 0 blank_buffer in
  Camera.fits_int c /\
  holds_image c (Camera.image blank_buffer) /\
  same_samples c sky 2 gens 0%Z blank_buffer /\
  (exists sh',
     Camera.renderPixelsParallel c sky 2 gens [1; 1; 0; 0]%nat blank_buffer sh'
     /\ Camera.image sh'
        = [168; 156; 196; 255; 231; 255; 0; 0; 0; 0; 0; 0]%Z) /\
  Camera.image (snd (Camera.renderPixels c sky 0%Z blank_buffer))
  = [168; 156; 227; 214; 231; 255; 0; 0; 0; 0; 0; 0]%Z.
Proof.
  cbv zeta. split; [vm_compute; reflexivity|].
  split; [vm_compute; discriminate|].
  split; [intros k Hk; unfold aligned_gens; reflexivity|].
  split; [|vm_compute; reflexivity].
  assert (E : match Camera.run (grid_camera 2 2 1 1) sky 2 [1; 1; 0; 0]%nat
                      (Camera.workers (grid_camera 2 2 1 1) 2
                         (aligned_gens (grid_camera 2 2 1 1) sky 2 0
                            blank_buffer), blank_buffer)
              with
              | Some (ws', sh') =>
                  Camera.todo (ws' 0%nat) = [] /\
                  Camera.todo (ws' 1%nat) = [] /\
                  Camera.image sh'
                  = [168; 156; 196; 255; 231; 255; 0; 0; 0; 0; 0; 0]%Z
              | None => False
              end)
    by (vm_compute; repeat split; reflexivity).
  unfold Camera.renderPixelsParallel.
  destruct (Camera.run (grid_camera 2 2 1 1) sky 2 [1; 1; 0; 0]%nat _)
    as [[ws' sh']|]; [|contradiction].
  destruct E as (E0 & E1 & E2). exists sh'. split; [|exact E2].
  exists ws'. split; [reflexivity|].
  intros [|[|k]] Hk; [exact E0|exact E1|lia].
Qed.

(** * Further properties of the code *)

(** ** More on the comparisons of binary64 *)

Module DoubleOrder.

Import Double.

Lemma SFleb_of_not_lt (a b : spec_float) :
  a <> S754_nan -> b <> S754_nan -> SFltb a b = false -> SFleb b a = true.
Proof.
  unfold SFltb, SFleb.
  destruct a as [sa|sa| |sa ma ea], b as [sb|sb| |sb mb eb]; sf_cases.
Qed.

Lemma SFlt_le (a b : spec_float) : SFltb a b = true -> SFleb a b = true.
Proof.
  unfold SFltb, SFleb. destruct (SFcompare a b) as [[]|]; congruence.
Qed.

Lemma SFlt_asym (a b : spec_float) : SFltb a b = true -> SFltb b a = false.
Proof.
  unfold SFltb.
  destruct a as [sa|sa| |sa ma ea], b as [sb|sb| |sb mb eb]; sf_cases.
Qed.

Lemma SFle_refl (a : spec_float) : a <> S754_nan -> SFleb a a = true.
Proof.
  unfold SFleb. destruct a as [sa|sa| |sa ma ea]; sf_cases.
Qed.

Lemma SFle_ordered (a b : spec_float) :
  SFleb a b = true -> a <> S754_nan /\ b <> S754_nan.
Proof. destruct a, b; cbn; intros; split; congruence. Qed.

Lemma le_of_not_lt (a b : float) :
  ordered a -> ordered b -> (a <? b)%float = false -> (b <=? a)%float = true.
Proof. unfold ordered. rewrite ltb_spec, leb_spec. apply SFleb_of_not_lt. Qed.

Lemma lt_le (a b : float) : lt a b -> (a <=? b)%float = true.
Proof. unfold lt. rewrite ltb_spec, leb_spec. apply SFlt_le. Qed.

Lemma lt_asym (a b : float) : lt a b -> (b <? a)%float = false.
Proof. unfold lt. rewrite !ltb_spec. apply SFlt_asym. Qed.

Lemma le_refl (a : float) : ordered a -> (a <=? a)%float = true.
Proof. unfold ordered. rewrite leb_spec. apply SFle_refl. Qed.

Lemma le_ordered (a b : float) :
  (a <=? b)%float = true -> ordered a /\ ordered b.
Proof. unfold ordered. rewrite leb_spec. apply SFle_ordered. Qed.

(** [is_nan] tells the values that take no part in the order. *)
Lemma is_nan_ordered (a : float) : is_nan a = false <-> ordered a.
Proof.
  unfold is_nan, ordered. rewrite eqb_spec. unfold SFeqb.
  destruct (Prim2SF a) as [s|s| |s m e]; cbn.
  - split; [discriminate|reflexivity].
  - destruct s; (split; [discriminate|reflexivity]).
  - split; [discriminate|congruence].
  - destruct s; rewrite Z.compare_refl;
      change (Pos.compare_cont Eq m m) with (Pos.compare m m);
      rewrite Pos.compare_refl; cbn; (split; [discriminate|reflexivity]).
Qed.

End DoubleOrder.

Section GeometryExtras.

Import Double DoubleOrder.

(** The constructor of [Sphere] never leaves a negative radius or a NaN
    behind, whatever double it is given, and keeps a positive radius as it
    is. *)
Theorem X_sphere_radius_never_negative (c : Point3) (r : float) (m : Material) :
  (0 <=? Sphere.radius (Sphere.make c r m))%float = true /\
  ((0 <? r)%float = true -> Sphere.radius (Sphere.make c r m) = r) /\
  ((0 <? r)%float = false -> Sphere.radius (Sphere.make c r m) = 0%float).
Proof.
  unfold Sphere.make, fmax. cbn [Sphere.radius].
  change (is_nan 0) with false. cbv iota.
  destruct (is_nan r) eqn:En.
  - assert (E : (0 <? r)%float = false).
    { destruct (0 <? r)%float eqn:E; [|reflexivity].
      apply lt_ordered_r in E. apply is_nan_ordered in E. congruence. }
    rewrite E. repeat split; auto; discriminate.
  - destruct (0 <? r)%float eqn:E.
    + repeat split; auto; [now apply lt_le|discriminate].
    + repeat split; auto; discriminate.
Qed.

(** [Interval::clamp] lands inside the interval, for every double, a NaN
    included, as soon as [min <= max]. *)
Theorem X_clamp_lands_in_interval (i : Interval) (v : float) :
  (Interval.min i <=? Interval.max i)%float = true ->
  Interval.contains i (Interval.clamp i v) = true.
Proof.
  destruct i as [lo hi]. unfold Interval.contains, Interval.clamp, std_max, std_min.
  cbn [Interval.min Interval.max]. intros Hle.
  destruct (le_ordered _ _ Hle) as [Hlo Hhi].
  destruct (hi <? v)%float eqn:E1.
  - destruct (lo <? hi)%float eqn:E2.
    + rewrite Hle, (le_refl hi Hhi). reflexivity.
    + rewrite Hle, (le_refl lo Hlo). reflexivity.
  - destruct (lo <? v)%float eqn:E2.
    + rewrite (lt_le _ _ E2).
      rewrite (le_of_not_lt hi v Hhi (lt_ordered_r _ _ E2) E1). reflexivity.
    + rewrite Hle, (le_refl lo Hlo). reflexivity.
Qed.

(** [Interval::clamp] gives back a NaN as the lower bound, and leaves a value
    strictly inside the interval as it is. *)
Theorem X_clamp_fixes_inner_values (i : Interval) (v : float) :
  (is_nan v = true -> Interval.clamp i v = Interval.min i) /\
  (Interval.surrounds i v = true -> Interval.clamp i v = v).
Proof.
  destruct i as [lo hi]. unfold Interval.clamp, std_max, std_min.
  cbn [Interval.min Interval.max]. split.
  - intros Hn.
    assert (E1 : (hi <? v)%float = false).
    { destruct (hi <? v)%float eqn:E; [|reflexivity].
      apply lt_ordered_r in E. apply is_nan_ordered in E. congruence. }
    rewrite E1.
    assert (E2 : (lo <? v)%float = false).
    { destruct (lo <? v)%float eqn:E; [|reflexivity].
      apply lt_ordered_r in E. apply is_nan_ordered in E. congruence. }
    now rewrite E2.
  - intros Hs. apply surrounds_iff in Hs. destruct Hs as [Hlo Hhi].
    rewrite (lt_asym _ _ Hhi). unfold lt in Hlo. now rewrite Hlo.
Qed.

(** A value [Interval::surrounds] accepts is one [Interval::contains]
    accepts, and the default-constructed interval accepts no double at
    all. *)
Theorem X_surrounds_within_contains (i : Interval) (v : float) :
  (Interval.surrounds i v = true -> Interval.contains i v = true) /\
  Interval.contains Interval.empty v = false /\
  Interval.surrounds Interval.empty v = false.
Proof.
  split; [|split].
  - destruct i as [lo hi]. intros Hs. apply surrounds_iff in Hs.
    destruct Hs as [Hlo Hhi]. unfold Interval.contains. cbn.
    now rewrite (lt_le _ _ Hlo), (lt_le _ _ Hhi).
  - unfold Interval.contains, Interval.empty. cbn [Interval.min Interval.max].
    rewrite !leb_spec.
    change (Prim2SF inf) with (S754_infinity false).
    change (Prim2SF (- inf)) with (S754_infinity true).
    destruct (Prim2SF v) as [s|s| |s m e]; try destruct s; reflexivity.
  - unfold Interval.surrounds, Interval.empty. cbn [Interval.min Interval.max].
    rewrite !ltb_spec.
    change (Prim2SF inf) with (S754_infinity false).
    change (Prim2SF (- inf)) with (S754_infinity true).
    destruct (Prim2SF v) as [s|s| |s m e]; try destruct s; reflexivity.
Qed.

End GeometryExtras.

Lemma X_clamp_lands_in_interval_witness :
  (Interval.min Camera.intensity <=? Interval.max Camera.intensity)%float = true /\
  Interval.contains Camera.intensity (Interval.clamp Camera.intensity 7.5) = true.
Proof.
  split; [reflexivity|].
  apply (X_clamp_lands_in_interval Camera.intensity 7.5). reflexivity.
Defined.

(** ** More on the intersection protocol *)

(** [Hittable_list::add], on the vector [objects]. *)
Definition add (objects : list Hittable) (object : Hittable) : list Hittable :=
  objects ++ [object].

(** The four variables of the loop of [Hittable_list::hit] after the members
    [objects]: the loop of the source, with [tmp] and [closestSoFar] kept. *)
Fixpoint loop_state (objects : list Hittable_list.hit_fn) (ray_t_min : float)
    (st : Hit_record * bool * float * Hit_record)
  : Hit_record * bool * float * Hit_record :=
  match objects with
  | [] => st
  | o :: rest =>
      let '(tmp, hitSomething, closestSoFar, rec) := st in
      let (b, tmp') := o (Interval.mk ray_t_min closestSoFar) tmp in
      if b then loop_state rest ray_t_min (tmp', true, Hit_record.t tmp', tmp')
      else loop_state rest ray_t_min (tmp', hitSomething, closestSoFar, rec)
  end.

Section HitExtras.

Import Double.

Variable fresh : Hit_record.

Lemma loop_state_loop (fs : list Hittable_list.hit_fn) (lo : float) :
  forall tmp flag k rec,
    Hittable_list.loop fs lo tmp flag k rec =
    let '(_, b, _, rec') := loop_state fs lo (tmp, flag, k, rec) in (b, rec').
Proof.
  induction fs as [|f fs IH]; intros tmp flag k rec; cbn; [reflexivity|].
  destruct (f _ tmp) as [[] tmp']; apply IH.
Qed.

Lemma loop_state_app (fs gs : list Hittable_list.hit_fn) (lo : float) :
  forall st, loop_state (fs ++ gs) lo st = loop_state gs lo (loop_state fs lo st).
Proof.
  induction fs as [|f fs IH]; intros [[[tmp flag] k] rec]; cbn; [reflexivity|].
  destruct (f _ tmp) as [[] tmp']; apply IH.
Qed.

(** The bound the loop has reached: the distance of the record when there
    was a hit, the bound it started from otherwise. *)
Lemma loop_state_bound (fs : list Hittable_list.hit_fn) (lo : float) :
  forall tmp k rec tmp' b k' rec',
    loop_state fs lo (tmp, false, k, rec) = (tmp', b, k', rec') ->
    (b = true /\ k' = Hit_record.t rec') \/ (b = false /\ k' = k /\ rec' = rec).
Proof.
  enough (G : forall tmp flag k rec tmp' b k' rec',
             (flag = true -> k = Hit_record.t rec) ->
             loop_state fs lo (tmp, flag, k, rec) = (tmp', b, k', rec') ->
             (b = true /\ k' = Hit_record.t rec') \/
             (b = false /\ flag = false /\ k' = k /\ rec' = rec)).
  { intros tmp k rec tmp' b k' rec' E. apply G in E; [|discriminate].
    tauto. }
  induction fs as [|f fs IH]; intros tmp flag k rec tmp' b k' rec' Hst E;
    cbn in E.
  - inversion E; subst. destruct b; auto.
  - destruct (f _ tmp) as [[] tmp1].
    + apply IH in E; [|reflexivity].
      destruct E as [E|(_ & E & _)]; [auto|discriminate].
    + apply IH in E; auto.
Qed.

(** The answer of [hit], hit or miss, does not depend on the record passed
    in, and on a hit the point, the normal, the distance and the material of
    the record do not either; a list hands out the very same record. *)
Theorem X_hit_ignores_incoming_record (o : Hittable) (r : Ray)
    (ray_t : Interval) (rec1 rec2 : Hit_record) :
  let a := hit fresh o r ray_t rec1 in
  let b := hit fresh o r ray_t rec2 in
  fst a = fst b /\
  (fst a = true ->
   Hit_record.p (snd a) = Hit_record.p (snd b) /\
   Hit_record.normal (snd a) = Hit_record.normal (snd b) /\
   Hit_record.t (snd a) = Hit_record.t (snd b) /\
   Hit_record.mat_ptr (snd a) = Hit_record.mat_ptr (snd b)) /\
  (fst a = true -> forall objects, o = HList objects -> snd a = snd b).
Proof.
  cbv zeta. destruct o as [s|objects]; cbn [hit].
  - rewrite !sphere_hit_roots.
    destruct (sphere_roots s r) as [[root1 root2]|]; cbn;
      [|repeat split; discriminate].
    destruct (Interval.surrounds ray_t root1); cbn;
      [repeat split; discriminate|].
    destruct (Interval.surrounds ray_t root2); cbn; repeat split; discriminate.
  - unfold Hittable_list.hit.
    set (fs := map (fun o' => hit fresh o' r) objects).
    generalize (Interval.max ray_t) as k. generalize fresh as tmp.
    induction fs as [|f fs IH]; intros tmp k; cbn.
    + repeat split; discriminate.
    + destruct (f _ tmp) as [[] tmp']; [|apply IH].
      repeat split; reflexivity.
Qed.

(** Every record a [hit] hands out has its point on the ray at the distance
    of the record, and carries a material. *)
Theorem X_hit_point_on_ray (o : Hittable) : forall (r : Ray)
    (ray_t : Interval) (rec rec' : Hit_record),
  hit fresh o r ray_t rec = (true, rec') ->
  Hit_record.p rec' = Ray.at_ r (Hit_record.t rec') /\
  Hit_record.mat_ptr rec' <> None.
Proof.
  induction o as [s|objects IH] using Hittable_nested_ind;
    intros r ray_t rec rec' E.
  - cbn in E. rewrite sphere_hit_roots in E.
    destruct (sphere_roots s r) as [[root1 root2]|]; [|discriminate].
    destruct (Interval.surrounds ray_t root1);
      [|destruct (Interval.surrounds ray_t root2)];
      inversion E; subst; cbn; split; (reflexivity || discriminate).
  - cbn in E. unfold Hittable_list.hit in E.
    apply loop_forwards in E.
    + destruct E as (f & c & tmp0 & Hf & _ & E).
      apply in_map_iff in Hf. destruct Hf as (o & <- & Ho).
      rewrite Forall_forall in IH. exact (IH o Ho _ _ _ _ E).
    + pose proof (members_well_behaved fresh objects r) as Hwb.
      eapply Forall_impl; [|exact Hwb]. intros a Ha; apply Ha.
Qed.

(** [Hittable_list::add] never loses a hit and never moves it farther: a
    query that hit before the [add] hits after it, with the same record or
    with a record of the new member that is strictly nearer; a query that
    missed before either still misses, the record untouched, or is answered
    by the new member alone. *)
Theorem X_add_keeps_or_nears_hit (objects : list Hittable) (o : Hittable)
    (r : Ray) (ray_t : Interval) (rec : Hit_record) :
  let before := hit fresh (HList objects) r ray_t rec in
  let after := hit fresh (HList (add objects o)) r ray_t rec in
  (fst before = true ->
   fst after = true /\
   (snd after = snd before \/
    lt (Hit_record.t (snd after)) (Hit_record.t (snd before)))) /\
  (fst before = false ->
   (after = (false, rec)) \/
   (fst after = true /\
    exists tmp, hit fresh o r ray_t tmp = (true, snd after))).
Proof.
  cbv zeta. cbn [hit]. unfold Hittable_list.hit, add.
  rewrite map_app. cbn [map].
  set (fs := map (fun o' => hit fresh o' r) objects).
  rewrite !loop_state_loop, loop_state_app.
  destruct (loop_state fs (Interval.min ray_t)
              (fresh, false, Interval.max ray_t, rec))
    as [[[tmp1 b1] k1] rec1] eqn:E1.
  apply loop_state_bound in E1. cbn [loop_state fst snd].
  destruct (hit fresh o r (Interval.mk (Interval.min ray_t) k1) tmp1)
    as [[] tmp2] eqn:E2; cbn [fst snd].
  - split.
    + intros ->. split; [reflexivity|]. right.
      destruct E1 as [[_ ->]|[? _]]; [|discriminate].
      apply (wb_bounds _ (hit_well_behaved fresh o r)) in E2. apply E2.
    + intros ->. right. split; [reflexivity|].
      destruct E1 as [[? _]|(_ & -> & _)]; [discriminate|].
      exists tmp1. destruct ray_t; exact E2.
  - split.
    + intros ->. auto.
    + intros ->. left. destruct E1 as [[? _]|(_ & _ & ->)]; [discriminate|].
      reflexivity.
Qed.

End HitExtras.

Lemma X_hit_point_on_ray_witness :
  let res := hit blank_record nested_scene ray_forward camera_interval
               blank_record in
  res = (true, snd res) /\
  Hit_record.p (snd res) = Ray.at_ ray_forward (Hit_record.t (snd res)) /\
  Hit_record.mat_ptr (snd res) <> None.
Proof.
  cbv zeta. split; [vm_compute; reflexivity|].
  apply (X_hit_point_on_ray blank_record nested_scene ray_forward
           camera_interval blank_record).
  vm_compute; reflexivity.
Defined.

(** ** Lists inside lists *)

(** Two records with the same point, normal, distance and material: the
    fields a [hit] determines ([frontFacing] is never written by
    [Sphere::hit], and is indeterminate in the local [tmp] of a list). *)
Definition agree (a b : Hit_record) : Prop :=
  Hit_record.p a = Hit_record.p b /\
  Hit_record.normal a = Hit_record.normal b /\
  Hit_record.t a = Hit_record.t b /\
  Hit_record.mat_ptr a = Hit_record.mat_ptr b.

(** Two [hit] functions that answer alike whatever records they are handed:
    both hit or both miss; on a hit the records agree, on a miss each record
    is left as it was. *)
Definition alike (f g : Hittable_list.hit_fn) : Prop :=
  forall ray_t tmp1 tmp2,
    fst (f ray_t tmp1) = fst (g ray_t tmp2) /\
    (fst (f ray_t tmp1) = true -> agree (snd (f ray_t tmp1)) (snd (g ray_t tmp2))) /\
    (fst (f ray_t tmp1) = false ->
     snd (f ray_t tmp1) = tmp1 /\ snd (g ray_t tmp2) = tmp2).

(** Two runs of the loop of [Hittable_list::hit] from the same bound, over
    members that answer alike: either both have seen a hit, and they end with
    the same bound and with records that agree, or neither has, and each ends
    in the state it started from. *)
Lemma loops_alike (lo : float) (fs gs : list Hittable_list.hit_fn) :
  Forall2 alike fs gs ->
  forall tA flagA recA tB flagB recB k,
    let '(_, bA, kA, rA) := loop_state fs lo (tA, flagA, k, recA) in
    let '(_, bB, kB, rB) := loop_state gs lo (tB, flagB, k, recB) in
    (bA = true /\ bB = true /\ kA = kB /\ kA = Hit_record.t rA /\ agree rA rB)
    \/
    (bA = flagA /\ bB = flagB /\ kA = k /\ kB = k /\ rA = recA /\ rB = recB).
Proof.
  induction 1 as [|f g fs gs Hfg Hrest IH];
    intros tA flagA recA tB flagB recB k.
  - cbn. right. repeat split.
  - cbn [loop_state].
    destruct (Hfg (Interval.mk lo k) tA tB) as (Hb & Hhit & Hmiss).
    destruct (f (Interval.mk lo k) tA) as [bf tA'].
    destruct (g (Interval.mk lo k) tB) as [bg tB'].
    cbn [fst snd] in *. subst bg. destruct bf.
    + destruct (Hhit eq_refl) as (Hp & Hn & Ht & Hm).
      rewrite <- Ht.
      specialize (IH tA' true tA' tB' true tB' (Hit_record.t tA')).
      destruct (loop_state fs lo (tA', true, Hit_record.t tA', tA'))
        as [[[tA2 bA] kA] rA].
      destruct (loop_state gs lo (tB', true, Hit_record.t tA', tB'))
        as [[[tB2 bB] kB] rB].
      left. destruct IH as [IH|(-> & -> & -> & -> & -> & ->)]; [exact IH|].
      repeat split; assumption.
    + destruct (Hmiss eq_refl) as [-> ->]. apply IH.
Qed.

Lemma alike_sphere (s : Sphere) (r : Ray) :
  alike (Sphere.hit s r) (Sphere.hit s r).
Proof.
  intros ray_t tmp1 tmp2. rewrite !sphere_hit_roots.
  destruct (sphere_roots s r) as [[root1 root2]|]; cbn;
    [|repeat split; discriminate].
  destruct (Interval.surrounds ray_t root1); cbn;
    [repeat split; discriminate|].
  destruct (Interval.surrounds ray_t root2); cbn; repeat split; discriminate.
Qed.

Lemma alike_lists (fresh1 fresh2 : Hit_record)
    (fs gs : list Hittable_list.hit_fn) :
  Forall2 alike fs gs ->
  alike (Hittable_list.hit fresh1 fs) (Hittable_list.hit fresh2 gs).
Proof.
  intros Hfg ray_t tmp1 tmp2. unfold Hittable_list.hit.
  rewrite !loop_state_loop.
  pose proof (loops_alike (Interval.min ray_t) fs gs Hfg
                fresh1 false tmp1 fresh2 false tmp2 (Interval.max ray_t)) as L.
  destruct (loop_state fs _ _) as [[[tA bA] kA] rA].
  destruct (loop_state gs _ _) as [[[tB bB] kB] rB].
  cbn [fst snd].
  destruct L as [(-> & -> & _ & _ & Ha)|(-> & -> & _ & _ & -> & ->)].
  - repeat split; try apply Ha; discriminate.
  - repeat split; discriminate.
Qed.

(** Whatever the local [tmp] of the lists holds when it is declared, a
    [Hittable] answers alike. *)
Lemma alike_hit (fresh1 fresh2 : Hit_record) (o : Hittable) (r : Ray) :
  alike (hit fresh1 o r) (hit fresh2 o r).
Proof.
  induction o as [s|objects IH] using Hittable_nested_ind; cbn [hit].
  - apply alike_sphere.
  - apply alike_lists. induction IH as [|o objects Ho _ IHl]; cbn;
      constructor; assumption.
Qed.

Lemma alike_members (fresh1 fresh2 : Hit_record) (objects : list Hittable)
    (r : Ray) :
  Forall2 alike (map (fun o => hit fresh1 o r) objects)
                (map (fun o => hit fresh2 o r) objects).
Proof.
  induction objects as [|o objects IH]; cbn; constructor;
    [apply alike_hit|exact IH].
Qed.

(** The step of the loop for a member that is a list itself. *)
Lemma nested_step (fresh : Hit_record) (fs : list Hittable_list.hit_fn)
    (lo : float) (tA : Hit_record) (bA : bool) (kA : float) (rA : Hit_record) :
  loop_state [Hittable_list.hit fresh fs] lo (tA, bA, kA, rA) =
  let '(_, bI, _, rI) := loop_state fs lo (fresh, false, kA, tA) in
  if bI then (rI, true, Hit_record.t rI, rI) else (rI, bA, kA, rA).
Proof.
  cbn [loop_state]. unfold Hittable_list.hit. rewrite loop_state_loop.
  cbn [Interval.min Interval.max].
  destruct (loop_state fs lo (fresh, false, kA, tA)) as [[[t1 []] k1] r1];
    reflexivity.
Qed.

(** A list that is a member of a list can be replaced by its own members,
    in its place: the query hits or misses as before; on a hit the record has
    the same point, normal, distance and material; on a miss the record of
    the caller is untouched.  This holds whatever the indeterminate content
    of the local [tmp] of the lists is. *)
Theorem X_nested_list_is_transparent (fresh1 fresh2 : Hit_record)
    (before inner after : list Hittable) (r : Ray) (ray_t : Interval)
    (rec : Hit_record) :
  let nested :=
    hit fresh1 (HList (before ++ HList inner :: after)) r ray_t rec in
  let inline :=
    hit fresh2 (HList (before ++ inner ++ after)) r ray_t rec in
  fst nested = fst inline /\
  (fst nested = true -> agree (snd nested) (snd inline)) /\
  (fst nested = false -> snd nested = rec /\ snd inline = rec).
Proof.
  cbv zeta. cbn [hit]. unfold Hittable_list.hit.
  rewrite !map_app. cbn [map hit]. rewrite !loop_state_loop.
  set (lo := Interval.min ray_t).
  set (F1 := fun o => hit fresh1 o r). set (F2 := fun o => hit fresh2 o r).
  change (Hittable_list.hit fresh1 (map F1 inner) :: map F1 after)
    with ([Hittable_list.hit fresh1 (map F1 inner)] ++ map F1 after).
  rewrite !loop_state_app.
  (* the members in front *)
  pose proof (loops_alike lo _ _ (alike_members fresh1 fresh2 before r)
                fresh1 false rec fresh2 false rec (Interval.max ray_t)) as L0.
  fold F1 F2 in L0.
  destruct (loop_state (map F1 before) lo _) as [[[tA bA] kA] rA].
  destruct (loop_state (map F2 before) lo _) as [[[tB bB] kB] rB].
  assert (R0 : bA = bB /\ kA = kB /\ (bA = true -> agree rA rB) /\
               (bA = false -> rA = rec /\ rB = rec)).
  { destruct L0 as [(-> & -> & -> & _ & Ha)|(-> & -> & -> & -> & -> & ->)].
    - split; [reflexivity|]. split; [reflexivity|]. split; [auto|discriminate].
    - split; [reflexivity|]. split; [reflexivity|]. split; [discriminate|auto]. }
  clear L0. destruct R0 as (<- & <- & Hagree & Hmiss).
  rewrite nested_step.
  (* the inner list, as one member and as its members *)
  pose proof (loops_alike lo _ _ (alike_members fresh1 fresh2 inner r)
                fresh1 false tA tB bA rB kA) as L1.
  fold F1 F2 in L1.
  destruct (loop_state (map F1 inner) lo (fresh1, false, kA, tA))
    as [[[tI bI] kI] rI].
  destruct (loop_state (map F2 inner) lo (tB, bA, kA, rB))
    as [[[tJ bJ] kJ] rJ].
  cbv beta iota.
  assert (R1 : exists tA1 bA1 kA1 rA1,
             (if bI then (rI, true, Hit_record.t rI, rI)
              else (rI, bA, kA, rA)) = (tA1, bA1, kA1, rA1) /\
             bA1 = bJ /\ kA1 = kJ /\ (bA1 = true -> agree rA1 rJ) /\
             (bA1 = false -> rA1 = rec /\ rJ = rec)).
  { destruct L1 as [(-> & -> & <- & -> & Ha)|(-> & -> & -> & -> & -> & ->)].
    - exists rI, true, (Hit_record.t rI), rI.
      split; [reflexivity|]. split; [reflexivity|]. split; [reflexivity|].
      split; [auto|discriminate].
    - exists tA, bA, kA, rA.
      split; [reflexivity|]. split; [reflexivity|]. split; [reflexivity|].
      split; assumption. }
  clear L1. destruct R1 as (tA1 & bA1 & kA1 & rA1 & -> & <- & <- & Ha1 & Hm1).
  (* the members behind *)
  pose proof (loops_alike lo _ _ (alike_members fresh1 fresh2 after r)
                tA1 bA1 rA1 tJ bA1 rJ kA1) as L2.
  fold F1 F2 in L2.
  destruct (loop_state (map F1 after) lo (tA1, bA1, kA1, rA1))
    as [[[tA2 bA2] kA2] rA2].
  destruct (loop_state (map F2 after) lo (tJ, bA1, kA1, rJ))
    as [[[tB2 bB2] kB2] rB2].
  cbn [fst snd].
  destruct L2 as [(-> & -> & _ & _ & Ha)|(-> & -> & _ & _ & -> & ->)].
  - split; [reflexivity|]. split; [auto|discriminate].
  - split; [reflexivity|]. split; assumption.
Qed.

(** ** More on materials and on [ray_color] *)

Section ShadingExtras.

Context `{Platform}.

Local Open Scope Z_scope.

(** [scatter] asks for the ray to continue for a [Lambertian] and for no
    other material; a material that does not continue draws no random number;
    the subclasses start the scattered ray at the hit point, the base class
    writes neither the attenuation nor the ray. *)
Theorem X_scatter_continues_only_for_lambertian (m : Material) (r_in : Ray)
    (rec : Hit_record) (attenuation : Color) (scattered : Ray) (g : Rnd) :
  let out := Material.scatter m r_in rec attenuation scattered g in
  let continue := fst (fst (fst out)) in
  (continue = true <-> exists albedo, m = Lambertian albedo) /\
  (continue = false -> snd out = g) /\
  (m <> BaseMaterial -> Ray.origin (snd (fst out)) = Hit_record.p rec) /\
  (m = BaseMaterial ->
   snd (fst (fst out)) = attenuation /\ snd (fst out) = scattered).
Proof.
  cbv zeta. destruct m as [|color|albedo|albedo]; cbn [Material.scatter].
  - cbn. repeat split; try congruence. intros [a Ha]. discriminate.
  - cbn. repeat split; try congruence. intros [a Ha]. discriminate.
  - cbn. repeat split; try congruence. intros [a Ha]. discriminate.
  - destruct (random_in_hemisphere (Hit_record.normal rec) g) as [v g'].
    cbn. repeat split; try congruence. eauto.
Qed.

(** The direction a [Lambertian] scatters to is the normal of the hit
    whenever the perturbed direction is near zero: a direction that is near
    zero can only be the normal itself; the attenuation is the albedo. *)
Theorem X_lambertian_falls_back_to_normal (albedo : Color) (r_in : Ray)
    (rec : Hit_record) (attenuation : Color) (scattered : Ray) (g : Rnd) :
  let out := Material.scatter (Lambertian albedo) r_in rec attenuation
               scattered g in
  (near_zero (Ray.direction (snd (fst out))) = true ->
   Ray.direction (snd (fst out)) = Hit_record.normal rec) /\
  snd (fst (fst out)) = albedo /\
  snd out = snd (random_in_hemisphere (Hit_record.normal rec) g).
Proof.
  cbv zeta. cbn [Material.scatter].
  destruct (random_in_hemisphere (Hit_record.normal rec) g) as [v g'].
  cbn. repeat split.
  destruct (near_zero (Vec3.add (Hit_record.normal rec) v)) eqn:E;
    [reflexivity|]. cbn. congruence.
Qed.

(** The rays one call of [ray_color] adds to the counter. *)
Lemma ray_color_rays (depth : nat) :
  forall (r : Ray) (world : Hittable) (g : Rnd) (n_rays : Z),
  n_rays + Z.min 1 (Z.of_nat depth)
  <= snd (Camera.ray_color r world depth g n_rays)
  <= n_rays + Z.of_nat depth.
Proof.
  induction depth as [|depth IH]; intros r world g n.
  - cbn. lia.
  - cbn [Camera.ray_color].
    destruct (hit fresh_record world r (Interval.mk 0.0001 inf) fresh_record)
      as [[] rec]; [|cbn; lia].
    destruct (Hit_record.mat_ptr rec) as [[|color|albedo|albedo]|];
      cbn [Material.scatter]; try (cbn; lia).
    destruct (random_in_hemisphere (Hit_record.normal rec) g) as [v g1].
    destruct (_ =? 0)%float; [cbn; lia|].
    specialize (IH (Ray.mk (Hit_record.p rec)
                      (if near_zero (Vec3.add (Hit_record.normal rec) v)
                       then Hit_record.normal rec
                       else Vec3.add (Hit_record.normal rec) v))
                   world g1 (n + 1)).
    destruct (Camera.ray_color _ world depth g1 (n + 1)) as [[col g2] m].
    cbn in *. lia.
Qed.

(** [ray_color] counts one ray per invocation that does not stop at depth
    zero: at depth zero it answers black, counts nothing and draws nothing;
    at depth [d >= 1] it counts at least one ray and at most [d]. *)
Theorem X_ray_color_counts_at_most_depth (depth : nat) :
  forall (r : Ray) (world : Hittable) (g : Rnd) (n_rays : Z),
  let out := Camera.ray_color r world depth g n_rays in
  (depth = O -> out = (Vec3.mk 0 0 0, g, n_rays)) /\
  n_rays + Z.min 1 (Z.of_nat depth) <= snd out <= n_rays + Z.of_nat depth.
Proof.
  intros r world g n. cbv zeta. split; [|apply ray_color_rays].
  intros ->. reflexivity.
Qed.

(** A ray that hits nothing gets the background gradient at any depth of 1
    or more: one ray is counted, no random number is drawn; so it is for
    every ray in the empty scene. *)
Theorem X_miss_returns_background (r : Ray) (world : Hittable) (depth : nat)
    (g : Rnd) (n_rays : Z) :
  fst (hit fresh_record world r (Interval.mk 0.0001 inf) fresh_record) = false ->
  Camera.ray_color r world (S depth) g n_rays
  = (Camera.background r, g, n_rays + 1) /\
  Camera.ray_color r (HList []) (S depth) g n_rays
  = (Camera.background r, g, n_rays + 1).
Proof.
  intros Hmiss. cbn [Camera.ray_color]. split.
  - destruct (hit fresh_record world r (Interval.mk 0.0001 inf) fresh_record)
      as [b rec]. cbn in Hmiss. subst b. reflexivity.
  - reflexivity.
Qed.

(** The null channel divided by anything is a zero or a NaN, and its byte
    is 0. *)
Lemma channel_byte_of_null (k : float) : Camera.channel_byte (0 / k) = 0.
Proof.
  rewrite <- (SF2Prim_Prim2SF (0 / k)), div_spec.
  change (Prim2SF 0) with (S754_zero false).
  destruct (Prim2SF k) as [s|s| |s m e]; try destruct s; vm_compute;
    reflexivity.
Qed.

Lemma no_samples_pixel (c : Camera) (scene : Hittable) (x y : Z)
    (g : Rnd) (n_rays : Z) :
  Camera.samples_per_pixel c <= 0 ->
  Camera.computePixelColor c scene x y g n_rays
  = (Vec3.div (Vec3.mk 0 0 0) (of_int (Camera.samples_per_pixel c)), g, n_rays).
Proof.
  intros Hs. unfold Camera.computePixelColor, int_range.
  replace (Z.to_nat (Camera.samples_per_pixel c - 0)) with O by lia.
  reflexivity.
Qed.

(** With no sample to take ([samples_per_pixel <= 0]) [computePixelColor]
    traces no ray and draws no random number, and divides the null colour by
    the sample count; the pixel [setPixel] stores for it is black. *)
Theorem X_no_samples_no_rays (c : Camera) (scene : Hittable) (x y : Z)
    (g : Rnd) (n_rays : Z) (image : list Z) :
  Camera.samples_per_pixel c <= 0 ->
  Camera.computePixelColor c scene x y g n_rays
  = (Vec3.div (Vec3.mk 0 0 0) (of_int (Camera.samples_per_pixel c)), g, n_rays)
  /\
  Camera.setPixel c image x y
    (fst (fst (Camera.computePixelColor c scene x y g n_rays)))
  = vec_set (vec_set (vec_set image (Camera.pixel_index c x y + 0) 0)
                     (Camera.pixel_index c x y + 1) 0)
            (Camera.pixel_index c x y + 2) 0.
Proof.
  intros Hs.
  pose proof (no_samples_pixel c scene x y g n_rays Hs) as E.
  split; [exact E|]. rewrite E. unfold Camera.setPixel, Vec3.div.
  cbn [fst Vec3.x Vec3.y Vec3.z]. now rewrite !channel_byte_of_null.
Qed.

End ShadingExtras.

Lemma X_miss_returns_background_witness :
  fst (hit fresh_record nested_scene ray_backward (Interval.mk 0.0001 inf)
         fresh_record) = false /\
  Camera.ray_color ray_backward nested_scene 3 0%Z 0%Z
  = (Camera.background ray_backward, 0%Z, 1%Z) /\
  Camera.ray_color ray_backward (HList []) 3 0%Z 0%Z
  = (Camera.background ray_backward, 0%Z, 1%Z).
Proof.
  split; [vm_compute; reflexivity|].
  apply (X_miss_returns_background (H := counter_platform) ray_backward
           nested_scene 2 0%Z 0%Z).
  vm_compute; reflexivity.
Defined.

Lemma X_no_samples_no_rays_witness :
  let c := grid_camera 2 2 3 (-1) in
  (Camera.samples_per_pixel c <= 0)%Z /\
  Camera.computePixelColor c nested_scene 1 1 0%Z 0%Z
  = (Vec3.div (Vec3.mk 0 0 0) (of_int (Camera.samples_per_pixel c)), 0%Z, 0%Z)
  /\
  Camera.setPixel c (repeat 9%Z 12) 1 1
    (fst (fst (Camera.computePixelColor c nested_scene 1 1 0%Z 0%Z)))
  = vec_set (vec_set (vec_set (repeat 9%Z 12)
                        (Camera.pixel_index c 1 1 + 0) 0%Z)
               (Camera.pixel_index c 1 1 + 1) 0%Z)
      (Camera.pixel_index c 1 1 + 2) 0%Z.
Proof.
  cbv zeta.
  assert (Hs : (Camera.samples_per_pixel (grid_camera 2 2 3 (-1)) <= 0)%Z)
    by (vm_compute; discriminate).
  split; [exact Hs|].
  exact (X_no_samples_no_rays (H := counter_platform) (grid_camera 2 2 3 (-1))
           nested_scene 1 1 0%Z 0%Z
           (repeat 9%Z 12) Hs).
Defined.

(** ** More on the pixel buffer *)

Section BufferExtras.

Local Open Scope Z_scope.

(** For an image whose byte count fits an [int] (no index overflows),
    [setPixel] twice at the same pixel keeps the second colour only, and
    [setPixel] at two distinct pixels of the image gives the same buffer in
    either order (three channels or more, a buffer that holds the image). *)
Theorem X_setPixel_overwrites_and_commutes (c : Camera) (image : list Z)
    (x y x' y' : Z) (col col' : Color) :
  Camera.fits_int c ->
  in_image c x y -> in_image c x' y' ->
  3 <= Camera.image_channels c -> holds_image c image ->
  (Camera.pixel_index c x y + 2 < 2 ^ 31 /\
   Camera.pixel_index c x' y' + 2 < 2 ^ 31) /\
  Camera.setPixel c (Camera.setPixel c image x y col) x y col'
  = Camera.setPixel c image x y col' /\
  ((x, y) <> (x', y') ->
   Camera.setPixel c (Camera.setPixel c image x y col) x' y' col'
   = Camera.setPixel c (Camera.setPixel c image x' y' col') x y col).
Proof.
  intros Hfit Hin Hin' Hc Hhold.
  split.
  { split; [apply (pixel_index_is_int c x y Hin Hc Hfit)
           |apply (pixel_index_is_int c x' y' Hin' Hc Hfit)]. }
  destruct (pixel_index_in_buffer c image x y Hin Hc Hhold) as [H0 H2].
  destruct (pixel_index_in_buffer c image x' y' Hin' Hc Hhold) as [H0' H2'].
  split.
  - apply vec_ext; [now rewrite !setPixel_length|].
    intros i _. rewrite !setPixel_get by (rewrite ?setPixel_length; assumption).
    destruct (i =? Camera.pixel_index c x y); [reflexivity|].
    destruct (i =? Camera.pixel_index c x y + 1); [reflexivity|].
    destruct (i =? Camera.pixel_index c x y + 2); reflexivity.
  - intros Hne.
    destruct (pixel_ranges_disjoint c x y x' y' Hin Hin' Hc Hne) as [Hd|Hd];
      (apply vec_ext; [now rewrite !setPixel_length|]);
      intros i _;
      rewrite !setPixel_get by (rewrite ?setPixel_length; assumption);
      destruct (Z.eqb_spec i (Camera.pixel_index c x' y'));
      destruct (Z.eqb_spec i (Camera.pixel_index c x' y' + 1));
      destruct (Z.eqb_spec i (Camera.pixel_index c x' y' + 2));
      destruct (Z.eqb_spec i (Camera.pixel_index c x y));
      destruct (Z.eqb_spec i (Camera.pixel_index c x y + 1));
      destruct (Z.eqb_spec i (Camera.pixel_index c x y + 2));
      try reflexivity; lia.
Qed.

End BufferExtras.

Lemma X_setPixel_overwrites_and_commutes_witness :
  let c := grid_camera 2 2 3 1 in
  let image := repeat 0%Z 12 in
  (Camera.fits_int c /\
   in_image c 0 0 /\ in_image c 1 1 /\ (3 <= Camera.image_channels c)%Z /\
   holds_image c image) /\
  ((Camera.pixel_index c 0 0 + 2 < 2 ^ 31)%Z /\
   (Camera.pixel_index c 1 1 + 2 < 2 ^ 31)%Z) /\
  Camera.setPixel c (Camera.setPixel c image 0 0 white) 0 0 red
  = Camera.setPixel c image 0 0 red /\
  ((0, 0)%Z <> (1, 1)%Z ->
   Camera.setPixel c (Camera.setPixel c image 0 0 white) 1 1 red
   = Camera.setPixel c (Camera.setPixel c image 1 1 red) 0 0 white).
Proof.
  cbv zeta.
  assert (H0 : Camera.fits_int (grid_camera 2 2 3 1))
    by (vm_compute; reflexivity).
  assert (H1 : in_image (grid_camera 2 2 3 1) 0 0)
    by (vm_compute; intuition discriminate).
  assert (H2 : in_image (grid_camera 2 2 3 1) 1 1)
    by (vm_compute; intuition discriminate).
  assert (H3 : (3 <= Camera.image_channels (grid_camera 2 2 3 1))%Z)
    by (vm_compute; discriminate).
  assert (H4 : holds_image (grid_camera 2 2 3 1) (repeat 0%Z 12))
    by (vm_compute; discriminate).
  split; [auto|].
  exact (X_setPixel_overwrites_and_commutes (grid_camera 2 2 3 1)
           (repeat 0%Z 12) 0 0 1 1 white red H0 H1 H2 H3 H4).
Defined.

(** ** More on the renderers *)

(** The pixels [renderPixels] visits before the pixel [(x, y)]: the rows
    above it, and the pixels to its left in its own row. *)
Definition pixels_before (c : Camera) (x y : Z) : list (Z * Z) :=
  Camera.chunk_pixels c 0 y ++ map (fun x' => (x', y)) (int_range 0 x).

Section RenderExtras.

Context `{Platform}.
Variable c : Camera.
Variable scene : Hittable.

Local Open Scope Z_scope.

Hypothesis three_channels : 3 <= Camera.image_channels c.

Lemma pixel_index_below_image (x y : Z) :
  in_image c x y ->
  0 <= Camera.pixel_index c x y /\
  Camera.pixel_index c x y + 2
  < Camera.image_width c * Camera.image_height c * Camera.image_channels c.
Proof.
  unfold in_image, Camera.pixel_index. intros [Hx Hy].
  set (w := Camera.image_width c) in *. set (h := Camera.image_height c) in *.
  set (k := Camera.image_channels c) in *.
  assert (0 <= y * w + x <= w * h - 1) by nia.
  split; [nia|].
  assert ((y * w + x) * k <= (w * h - 1) * k) by nia.
  nia.
Qed.

Lemma int_range_one (a : Z) : int_range a (a + 1) = [a].
Proof.
  unfold int_range. replace (Z.to_nat (a + 1 - a)) with 1%nat by lia.
  cbn [seq map]. f_equal. lia.
Qed.

Lemma int_range_from (a b : Z) :
  a < b -> int_range a b = a :: int_range (a + 1) b.
Proof.
  intros Hab. rewrite (int_range_app a (a + 1) b) by lia.
  now rewrite int_range_one.
Qed.

(** The pixels of the image in the order of the two loops of
    [renderPixels]: those before [(x, y)], the pixel itself, the others. *)
Lemma raster_split (x y : Z) :
  in_image c x y ->
  exists rest,
    Camera.chunk_pixels c 0 (Camera.image_height c)
    = pixels_before c x y ++ (x, y) :: rest.
Proof.
  intros [Hx Hy]. unfold pixels_before.
  exists (map (fun x' => (x', y)) (int_range (x + 1) (Camera.image_width c))
          ++ Camera.chunk_pixels c (y + 1) (Camera.image_height c)).
  rewrite (chunk_pixels_app c 0 y (Camera.image_height c)) by lia.
  rewrite (chunk_pixels_app c y (y + 1) (Camera.image_height c)) by lia.
  rewrite <- !app_assoc. f_equal.
  unfold Camera.chunk_pixels at 1. rewrite int_range_one. cbn [flat_map].
  rewrite app_nil_r.
  rewrite (int_range_app 0 x (Camera.image_width c)) by lia.
  rewrite (int_range_from x (Camera.image_width c)) by lia.
  rewrite map_app. cbn [map]. rewrite <- !app_assoc. reflexivity.
Qed.

(** For an image whose byte count fits an [int], [renderPixels] keeps the
    length of the buffer, leaves alone every byte past the
    [image_width * image_height * image_channels] first ones, and stores for
    every pixel of the image the three channel bytes of the colour
    [computePixelColor] answers for it when called in the state (generator
    and counter) the renderer is in after the pixels before it. *)
Theorem X_renderPixels_paints_image_only (g : Rnd) (sh : Camera.shared) :
  Camera.fits_int c ->
  holds_image c (Camera.image sh) ->
  let image' := Camera.image (snd (Camera.renderPixels c scene g sh)) in
  length image' = length (Camera.image sh) /\
  (forall x y, in_image c x y ->
     let st := fold_left (fun st px => Camera.render_pixel c scene px st)
                 (pixels_before c x y) (g, sh) in
     let col := fst (fst (Camera.computePixelColor c scene x y (fst st)
                            (Camera.n_rays (snd st)))) in
     Camera.pixel_index c x y + 2 < 2 ^ 31 /\
     vec_get image' (Camera.pixel_index c x y)
     = Camera.channel_byte (Vec3.x col) /\
     vec_get image' (Camera.pixel_index c x y + 1)
     = Camera.channel_byte (Vec3.y col) /\
     vec_get image' (Camera.pixel_index c x y + 2)
     = Camera.channel_byte (Vec3.z col)) /\
  (forall i,
     Camera.image_width c * Camera.image_height c * Camera.image_channels c <= i ->
     vec_get image' i = vec_get (Camera.image sh) i).
Proof.
  intros Hfit Hhold. cbv zeta.
  destruct (sequential_painted c scene three_channels g sh Hhold) as [Hlen Hp].
  split; [exact Hlen|]. split.
  - intros x y Hin.
    split; [apply (pixel_index_is_int c x y Hin three_channels Hfit)|].
    rewrite fold_render_pixel. cbn [fst snd Camera.n_rays].
    rewrite computePixelColor_counter. cbn [fst].
    set (col := pixel_color c scene (x, y)
                  (rng_after c scene (pixels_before c x y) g)).
    assert (Hs : In ((x, y), col)
                   (strokes c scene
                      (Camera.chunk_pixels c 0 (Camera.image_height c)) g)).
    { destruct (raster_split x y Hin) as [rest ->].
      rewrite strokes_app. apply in_or_app. right. cbn [strokes].
      left. reflexivity. }
    repeat split.
    + destruct (Hp (Camera.pixel_index c x y)) as [Hin_S _].
      rewrite (Hin_S (x, y) col Hs) by (unfold covers; cbn; lia).
      unfold byte_at. cbn. now rewrite Z.eqb_refl.
    + destruct (Hp (Camera.pixel_index c x y + 1)) as [Hin_S _].
      rewrite (Hin_S (x, y) col Hs) by (unfold covers; cbn; lia).
      unfold byte_at. cbn.
      destruct (Z.eqb_spec (Camera.pixel_index c x y + 1)
                           (Camera.pixel_index c x y)); [lia|].
      now rewrite Z.eqb_refl.
    + destruct (Hp (Camera.pixel_index c x y + 2)) as [Hin_S _].
      rewrite (Hin_S (x, y) col Hs) by (unfold covers; cbn; lia).
      unfold byte_at. cbn.
      destruct (Z.eqb_spec (Camera.pixel_index c x y + 2)
                           (Camera.pixel_index c x y)); [lia|].
      destruct (Z.eqb_spec (Camera.pixel_index c x y + 2)
                           (Camera.pixel_index c x y + 1)); [lia|].
      reflexivity.
  - intros i Hi. destruct (Hp i) as [_ Hout]. apply Hout.
    intros px col Hs Hc. apply in_strokes_pixel in Hs.
    apply in_chunk_pixels in Hs.
    assert (Hin : in_image c (fst px) (snd px)) by (split; tauto).
    apply pixel_index_below_image in Hin. unfold covers in Hc. lia.
Qed.

End RenderExtras.

(** ** The rays the renderers count *)

Section RayExtras.

Context `{Platform}.
Variable c : Camera.
Variable scene : Hittable.

Local Open Scope Z_scope.


Lemma samples_rays (l : list Z) (x y : Z) :
  forall (col : Color) (g : Rnd) (n : Z),
  n + Z.of_nat (length l)
  <= snd (fold_left (fun acc _ => Camera.sample c scene x y acc) l (col, g, n))
  <= n + Z.of_nat (length l) * Z.of_nat Camera.max_depth.
Proof.
  induction l as [|a l IH]; intros col g n; cbn [fold_left length].
  - cbn. lia.
  - unfold Camera.sample at 2 4.
    destruct (random_double g) as [d1 g1].
    destruct (random_double g1) as [d2 g2].
    match goal with
    | |- context [Camera.ray_color ?r scene Camera.max_depth g2 n] =>
        pose proof (ray_color_rays Camera.max_depth r scene g2 n) as Hr;
        destruct (Camera.ray_color r scene Camera.max_depth g2 n)
          as [[s g3] m]
    end.
    cbn [snd] in Hr.
    specialize (IH (Vec3.add col s) g3 m).
    change (Z.of_nat Camera.max_depth) with 16 in *.
    change (Z.min 1 16) with 1 in Hr. lia.
Qed.

Lemma pixel_rays_bounds (px : Z * Z) (g : Rnd) :
  Z.max 0 (Camera.samples_per_pixel c)
  <= pixel_rays c scene px g
  <= Z.max 0 (Camera.samples_per_pixel c) * Z.of_nat Camera.max_depth.
Proof.
  unfold pixel_rays, Camera.computePixelColor.
  pose proof (samples_rays (int_range 0 (Camera.samples_per_pixel c))
                (fst px) (snd px) (Vec3.mk 0 0 0) g 0) as Hs.
  destruct (fold_left _ _ (Vec3.mk 0 0 0, g, 0)) as [[col g'] m].
  cbn [snd] in *. unfold int_range in Hs.
  rewrite length_map, length_seq in Hs. lia.
Qed.

(** The rays a thread counts over the pixels [P], entered with [g]. *)
Fixpoint rays_of (P : list (Z * Z)) (g : Rnd) : Z :=
  match P with
  | [] => 0
  | px :: P' => pixel_rays c scene px g + rays_of P' (pixel_rng c scene px g)
  end.

Lemma rays_of_app (P Q : list (Z * Z)) : forall g,
  rays_of (P ++ Q) g = rays_of P g + rays_of Q (rng_after c scene P g).
Proof.
  induction P as [|px P IH]; intros g; cbn; [reflexivity|].
  rewrite IH. lia.
Qed.

Lemma rays_of_bounds (P : list (Z * Z)) : forall g,
  Z.of_nat (length P) * Z.max 0 (Camera.samples_per_pixel c)
  <= rays_of P g
  <= Z.of_nat (length P) * Z.max 0 (Camera.samples_per_pixel c)
     * Z.of_nat Camera.max_depth.
Proof.
  induction P as [|px P IH]; intros g; cbn [rays_of length].
  - cbn. lia.
  - specialize (IH (pixel_rng c scene px g)).
    pose proof (pixel_rays_bounds px g) as Hp.
    change (Z.of_nat Camera.max_depth) with 16 in *. nia.
Qed.

Lemma fold_render_rays (P : list (Z * Z)) : forall (g : Rnd) (sh : Camera.shared),
  Camera.n_rays
    (snd (fold_left (fun st px => Camera.render_pixel c scene px st) P (g, sh)))
  = Camera.n_rays sh + rays_of P g.
Proof.
  induction P as [|px P IH]; intros g sh; cbn [fold_left rays_of].
  - cbn. lia.
  - rewrite render_pixel_eq, IH. cbn. lia.
Qed.

Lemma flat_map_length_const {A B : Type} (f : A -> list B) (k : nat)
    (l : list A) :
  (forall a, length (f a) = k) -> length (flat_map f l) = (length l * k)%nat.
Proof.
  intros Hf. induction l as [|a l IH]; cbn; [reflexivity|].
  rewrite length_app, Hf, IH. reflexivity.
Qed.

Lemma int_range_length (a b : Z) :
  Z.of_nat (length (int_range a b)) = Z.max 0 (b - a).
Proof. unfold int_range. rewrite length_map, length_seq. lia. Qed.

Lemma chunk_pixels_length (a b : Z) :
  Z.of_nat (length (Camera.chunk_pixels c a b))
  = Z.max 0 (b - a) * Z.max 0 (Camera.image_width c).
Proof.
  unfold Camera.chunk_pixels.
  rewrite (flat_map_length_const _
             (length (int_range 0 (Camera.image_width c)))).
  - rewrite Nat2Z.inj_mul, !int_range_length. f_equal. f_equal. lia.
  - intros y. apply length_map.
Qed.

Lemma renderPixels_rays (g : Rnd) (sh : Camera.shared) :
  Camera.n_rays (snd (Camera.renderPixels c scene g sh))
  = Camera.n_rays sh
    + rays_of (Camera.chunk_pixels c 0 (Camera.image_height c)) g.
Proof.
  unfold Camera.renderPixels. rewrite render_chunk_pixels.
  apply fold_render_rays.
Qed.

(** [renderPixels] adds to [n_rays] at least one ray per sample of every
    pixel, and at most [max_depth] of them: between
    [width * height * samples_per_pixel] and sixteen times as many (a
    negative dimension or sample count counting as zero). *)
Theorem X_renderPixels_counts_rays (g : Rnd) (sh : Camera.shared) :
  let pixels := Z.max 0 (Camera.image_width c)
                * Z.max 0 (Camera.image_height c) in
  let samples := pixels * Z.max 0 (Camera.samples_per_pixel c) in
  Camera.n_rays sh + samples
  <= Camera.n_rays (snd (Camera.renderPixels c scene g sh))
  <= Camera.n_rays sh + samples * 16.
Proof.
  cbv zeta. rewrite renderPixels_rays.
  pose proof (rays_of_bounds
                (Camera.chunk_pixels c 0 (Camera.image_height c)) g) as Hb.
  rewrite chunk_pixels_length in Hb.
  change (Z.of_nat Camera.max_depth) with 16 in Hb.
  replace (Camera.image_height c - 0) with (Camera.image_height c) in Hb
    by lia.
  lia.
Qed.

End RayExtras.

(** ** A camera that takes no sample *)

Section NoSamples.

Context `{Platform}.
Variable c : Camera.
Variable scene : Hittable.

Local Open Scope Z_scope.

Hypothesis three_channels : 3 <= Camera.image_channels c.
Hypothesis no_samples : Camera.samples_per_pixel c <= 0.

Lemma no_samples_rng (P : list (Z * Z)) (g : Rnd) : rng_after c scene P g = g.
Proof.
  induction P as [|px P IH]; cbn [rng_after]; [reflexivity|].
  unfold pixel_rng at 1. rewrite no_samples_pixel by exact no_samples.
  exact IH.
Qed.

Lemma no_samples_rays (P : list (Z * Z)) (g : Rnd) : rays_of c scene P g = 0.
Proof.
  induction P as [|px P IH]; cbn [rays_of]; [reflexivity|].
  unfold pixel_rays at 1, pixel_rng at 1.
  rewrite !no_samples_pixel by exact no_samples. cbn [fst snd].
  rewrite IH. reflexivity.
Qed.

Lemma no_samples_strokes (P : list (Z * Z)) (g : Rnd) (px : Z * Z)
    (col : Color) :
  In (px, col) (strokes c scene P g) ->
  col = Vec3.div (Vec3.mk 0 0 0) (of_int (Camera.samples_per_pixel c)).
Proof.
  induction P as [|q P IH]; cbn [strokes]; [contradiction|].
  intros [E|Hin].
  - inversion E; subst. unfold pixel_color.
    now rewrite no_samples_pixel by exact no_samples.
  - unfold pixel_rng in Hin at 1.
    rewrite no_samples_pixel in Hin by exact no_samples. exact (IH Hin).
Qed.

(** With [samples_per_pixel <= 0] (the value -1 [parseInput] answers for a
    call for help or a wrong argument is one) and an image whose byte count
    fits an [int], [renderPixels] draws no random number and counts no ray,
    and leaves every pixel of the image black. *)
Theorem X_no_samples_black_image (g : Rnd) (sh : Camera.shared) :
  Camera.fits_int c ->
  holds_image c (Camera.image sh) ->
  let out := Camera.renderPixels c scene g sh in
  fst out = g /\
  Camera.n_rays (snd out) = Camera.n_rays sh /\
  forall x y, in_image c x y ->
    Camera.pixel_index c x y + 2 < 2 ^ 31 /\
    vec_get (Camera.image (snd out)) (Camera.pixel_index c x y) = 0 /\
    vec_get (Camera.image (snd out)) (Camera.pixel_index c x y + 1) = 0 /\
    vec_get (Camera.image (snd out)) (Camera.pixel_index c x y + 2) = 0.
Proof.
  intros Hfit Hhold. cbv zeta. split; [|split].
  - unfold Camera.renderPixels.
    destruct (render_chunk_image c scene 0 (Camera.image_height c) g sh)
      as [-> _].
    apply no_samples_rng.
  - rewrite renderPixels_rays, no_samples_rays. lia.
  - intros x y Hin.
    destruct (sequential_painted c scene three_channels g sh Hhold)
      as [_ Hp].
    assert (Hpx : In (x, y)
                    (Camera.chunk_pixels c 0 (Camera.image_height c))).
    { apply in_chunk_pixels. cbn. destruct Hin. lia. }
    rewrite <- (strokes_pixels c scene _ g) in Hpx.
    apply in_map_iff in Hpx. destruct Hpx as ([px col] & E & Hs).
    cbn in E. subst px.
    pose proof (no_samples_strokes _ _ _ _ Hs) as Ecol.
    assert (Hb : forall i, covers c (x, y) i ->
                 vec_get (Camera.image (snd (Camera.renderPixels c scene g sh)))
                   i = 0).
    { intros i Hc. destruct (Hp i) as [Hin_S _].
      rewrite (Hin_S (x, y) col Hs Hc). unfold byte_at. rewrite Ecol.
      unfold Vec3.div. cbn [Vec3.x Vec3.y Vec3.z].
      rewrite !channel_byte_of_null.
      destruct (_ =? _); [reflexivity|]. destruct (_ =? _); reflexivity. }
    split; [apply (pixel_index_is_int c x y Hin three_channels Hfit)|].
    repeat split; apply Hb; unfold covers; cbn [fst snd]; lia.
Qed.

End NoSamples.

#[local] Existing Instance counter_platform.

Lemma X_renderPixels_paints_image_only_witness :
  let c := grid_camera 2 2 3 1 in
  ((3 <= Camera.image_channels c)%Z /\ Camera.fits_int c /\
   holds_image c (Camera.image blank_buffer)) /\
  let image' := Camera.image
                  (snd (Camera.renderPixels c nested_scene 0%Z blank_buffer)) in
  length image' = length (Camera.image blank_buffer) /\
  (forall x y, in_image c x y ->
     let st := fold_left (fun st px => Camera.render_pixel c nested_scene px st)
                 (pixels_before c x y) (0%Z, blank_buffer) in
     let col := fst (fst (Camera.computePixelColor c nested_scene x y (fst st)
                            (Camera.n_rays (snd st)))) in
     (Camera.pixel_index c x y + 2 < 2 ^ 31)%Z /\
     vec_get image' (Camera.pixel_index c x y)
     = Camera.channel_byte (Vec3.x col) /\
     vec_get image' (Camera.pixel_index c x y + 1)
     = Camera.channel_byte (Vec3.y col) /\
     vec_get image' (Camera.pixel_index c x y + 2)
     = Camera.channel_byte (Vec3.z col)) /\
  (forall i,
     (Camera.image_width c * Camera.image_height c * Camera.image_channels c
      <= i)%Z ->
     vec_get image' i = vec_get (Camera.image blank_buffer) i).
Proof.
  cbv zeta.
  assert (H1 : (3 <= Camera.image_channels (grid_camera 2 2 3 1))%Z)
    by (vm_compute; discriminate).
  assert (H2 : Camera.fits_int (grid_camera 2 2 3 1))
    by (vm_compute; reflexivity).
  assert (H3 : holds_image (grid_camera 2 2 3 1) (Camera.image blank_buffer))
    by (vm_compute; discriminate).
  split; [auto|].
  exact (X_renderPixels_paints_image_only (H := counter_platform)
           (grid_camera 2 2 3 1) nested_scene H1 0%Z blank_buffer H2 H3).
Defined.

Lemma X_no_samples_black_image_witness :
  let c := grid_camera 2 2 3 (-1) in
  ((3 <= Camera.image_channels c)%Z /\
   (Camera.samples_per_pixel c <= 0)%Z /\
   Camera.fits_int c /\
   holds_image c (repeat 9%Z 12)) /\
  let out := Camera.renderPixels c nested_scene 0%Z
               (Camera.mkShared (repeat 9%Z 12) 0) in
  fst out = 0%Z /\
  Camera.n_rays (snd out) = 0%Z /\
  forall x y, in_image c x y ->
    (Camera.pixel_index c x y + 2 < 2 ^ 31)%Z /\
    vec_get (Camera.image (snd out)) (Camera.pixel_index c x y) = 0%Z /\
    vec_get (Camera.image (snd out)) (Camera.pixel_index c x y + 1) = 0%Z /\
    vec_get (Camera.image (snd out)) (Camera.pixel_index c x y + 2) = 0%Z.
Proof.
  cbv zeta.
  assert (H1 : (3 <= Camera.image_channels (grid_camera 2 2 3 (-1)))%Z)
    by (vm_compute; discriminate).
  assert (H2 : (Camera.samples_per_pixel (grid_camera 2 2 3 (-1)) <= 0)%Z)
    by (vm_compute; discriminate).
  assert (H3 : Camera.fits_int (grid_camera 2 2 3 (-1)))
    by (vm_compute; reflexivity).
  assert (H4 : holds_image (grid_camera 2 2 3 (-1)) (repeat 9%Z 12))
    by (vm_compute; discriminate).
  split; [auto|].
  exact (X_no_samples_black_image (H := counter_platform)
           (grid_camera 2 2 3 (-1)) nested_scene H1 H2 0%Z
           (Camera.mkShared (repeat 9%Z 12) 0) H3 H4).
Defined.

(** ** More on [renderPixelsParallel] *)

(** The sum [f 0 + ... + f (m - 1)]. *)
Fixpoint sum_upto (f : nat -> Z) (m : nat) : Z :=
  match m with
  | O => 0%Z
  | S m' => (sum_upto f m' + f m')%Z
  end.

Lemma sum_upto_ext (f g : nat -> Z) (m : nat) :
  (forall k, (k < m)%nat -> f k = g k) -> sum_upto f m = sum_upto g m.
Proof.
  induction m as [|m IH]; intros E; cbn; [reflexivity|].
  rewrite IH, E by auto. reflexivity.
Qed.

Lemma sum_upto_update (f : nat -> Z) (k : nat) (v : Z) (m : nat) :
  (k < m)%nat ->
  sum_upto (fun j => if Nat.eqb j k then v else f j) m
  = (sum_upto f m + v - f k)%Z.
Proof.
  induction m as [|m IH]; intros Hk; [lia|]. cbn.
  destruct (Nat.eqb_spec m k) as [->|Hne].
  - rewrite (sum_upto_ext _ f).
    + lia.
    + intros j Hj. destruct (Nat.eqb_spec j k); [lia|reflexivity].
  - rewrite IH by lia. lia.
Qed.

Lemma sum_upto_bounds (f lo hi : nat -> Z) (m : nat) :
  (forall k, (k < m)%nat -> (lo k <= f k <= hi k)%Z) ->
  (sum_upto lo m <= sum_upto f m <= sum_upto hi m)%Z.
Proof.
  induction m as [|m IH]; intros E; cbn; [lia|].
  specialize (IH ltac:(auto)). specialize (E m ltac:(lia)). lia.
Qed.

Lemma sum_upto_scale (f : nat -> Z) (a : Z) (m : nat) :
  sum_upto (fun k => (f k * a)%Z) m = (sum_upto f m * a)%Z.
Proof. induction m as [|m IH]; cbn; [reflexivity|]. rewrite IH. ring. Qed.

Section ParallelExtras.

Context `{Platform}.
Variable c : Camera.
Variable scene : Hittable.
Variable num_threads : Z.

Local Open Scope Z_scope.

Hypothesis some_thread : 1 <= num_threads.

Variable gens : nat -> Rnd.

Local Abbreviation band_start := (Camera.start_y c num_threads).
Local Abbreviation band_end := (Camera.end_y c num_threads).

(** The bands depend on the height of the image and on the number of
    threads only: they are the bands of the camera with three channels. *)
Definition rgb (c : Camera) : Camera :=
  Camera.mk (Camera.image_width c) (Camera.image_height c) 3
    (Camera.samples_per_pixel c) (Camera.camera_center c)
    (Camera.pixel00_loc c) (Camera.pixel_delta_u c) (Camera.pixel_delta_v c).

Lemma rgb_channels : 3 <= Camera.image_channels (rgb c).
Proof. cbn. lia. Qed.

Lemma band_sizes :
  (0 <= Camera.image_height c ->
   0 <= Camera.chunk_size c num_threads /\
   num_threads * Camera.chunk_size c num_threads <= Camera.image_height c) /\
  (Camera.image_height c < 0 ->
   Camera.chunk_size c num_threads <= 0 /\
   Camera.image_height c <= num_threads * Camera.chunk_size c num_threads).
Proof. exact (chunk_size_bounds (rgb c) rgb_channels num_threads some_thread). Qed.

Lemma band_rows (t y : Z) :
  0 <= t < num_threads -> band_start t <= y < band_end t ->
  0 <= y < Camera.image_height c.
Proof.
  intros Ht Hy.
  exact (proj1 (band_in_image (rgb c) rgb_channels num_threads some_thread
                  t y Ht Hy)).
Qed.

Lemma band_unique (t t' y : Z) :
  0 <= t < num_threads -> 0 <= t' < num_threads ->
  band_start t <= y < band_end t -> band_start t' <= y < band_end t' ->
  t = t'.
Proof.
  exact (bands_disjoint (rgb c) rgb_channels num_threads some_thread t t' y).
Qed.

Lemma band_exists (y : Z) :
  0 <= y < Camera.image_height c ->
  exists t, 0 <= t < num_threads /\ band_start t <= y < band_end t.
Proof. exact (bands_cover (rgb c) rgb_channels num_threads some_thread y). Qed.

Lemma chunk_pixels_none (a b : Z) : b <= a -> Camera.chunk_pixels c a b = [].
Proof.
  intros Hab. unfold Camera.chunk_pixels, int_range.
  replace (Z.to_nat (b - a)) with O by lia. reflexivity.
Qed.

(** The bands follow one another: a band ends where the next one starts,
    the first one starts at row 0, the last one ends with the image. *)
Lemma band_next (t : Z) :
  0 <= t < num_threads - 1 -> band_end t = band_start (t + 1).
Proof.
  intros Ht. unfold Camera.end_y, Camera.start_y.
  destruct (Z.eqb_spec t (num_threads - 1)); [lia|ring].
Qed.

Lemma band_last : band_end (num_threads - 1) = Camera.image_height c.
Proof. unfold Camera.end_y. now rewrite Z.eqb_refl. Qed.

Lemma band_ordered (t : Z) :
  0 <= t < num_threads ->
  (0 <= Camera.image_height c -> 0 <= band_start t <= band_end t) /\
  (Camera.image_height c < 0 -> band_end t <= band_start t <= 0).
Proof.
  intros Ht. unfold Camera.end_y, Camera.start_y.
  destruct band_sizes as [Hpos Hneg].
  generalize dependent (Camera.chunk_size c num_threads). intros k Hpos Hneg.
  generalize dependent (Camera.image_height c). intros h Hpos Hneg.
  destruct (Z.eqb_spec t (num_threads - 1)) as [E|Hlast]; cbv iota.
  - subst t. split; intros Hh.
    + specialize (Hpos Hh).
      assert (0 <= (num_threads - 1) * k) by nia.
      assert ((num_threads - 1) * k = num_threads * k - k) by ring. lia.
    + specialize (Hneg Hh).
      assert ((num_threads - 1) * k <= 0) by nia.
      assert ((num_threads - 1) * k = num_threads * k - k) by ring. lia.
  - split; intros Hh.
    + specialize (Hpos Hh). assert (0 <= t * k) by nia. lia.
    + specialize (Hneg Hh). assert (t * k <= 0) by nia. lia.
Qed.

(** The pixels up to the end of a band are the pixels before it and its
    own. *)
Lemma band_prefix (k : nat) :
  Z.of_nat k < num_threads ->
  Camera.chunk_pixels c 0 (band_end (Z.of_nat k))
  = Camera.chunk_pixels c 0 (band_start (Z.of_nat k)) ++ plan c num_threads k.
Proof.
  intros Hk. unfold plan.
  destruct (band_ordered (Z.of_nat k) ltac:(lia)) as [Hpos Hneg].
  destruct (Z_lt_dec (Camera.image_height c) 0) as [Hh|Hh].
  - specialize (Hneg Hh). rewrite !chunk_pixels_none by lia. reflexivity.
  - specialize (Hpos ltac:(lia)). apply chunk_pixels_app. lia.
Qed.

Lemma band_first : Camera.chunk_pixels c 0 (band_start 0) = [].
Proof. apply chunk_pixels_none. unfold Camera.start_y. lia. Qed.

(** The pixels of the bands of the threads [0] to [m], one band after the
    other, are the pixels of the image up to the end of band [m]. *)
Lemma bands_lengths (m : nat) :
  Z.of_nat m < num_threads ->
  sum_upto (fun k => Z.of_nat (length (plan c num_threads k))) (S m)
  = Z.of_nat (length (Camera.chunk_pixels c 0 (band_end (Z.of_nat m)))).
Proof.
  induction m as [|m IH]; intros Hm.
  - rewrite (band_prefix 0 Hm). change (Z.of_nat 0) with 0.
    rewrite band_first. cbn. lia.
  - change (sum_upto ?f (S (S m))) with (sum_upto f (S m) + f (S m)).
    rewrite IH by lia. rewrite (band_prefix (S m) Hm).
    rewrite (band_next (Z.of_nat m)) by lia.
    replace (Z.of_nat m + 1) with (Z.of_nat (S m)) by lia.
    rewrite length_app. lia.
Qed.

Lemma bands_rays (g0 : Rnd) (sh : Camera.shared) (m : nat) :
  same_samples c scene num_threads gens g0 sh ->
  Z.of_nat m < num_threads ->
  sum_upto (fun k => rays_of c scene (plan c num_threads k) (gens k)) (S m)
  = rays_of c scene (Camera.chunk_pixels c 0 (band_end (Z.of_nat m))) g0.
Proof.
  intros Hs.
  assert (Hg : forall k, Z.of_nat k < num_threads ->
             gens k = rng_after c scene
                        (Camera.chunk_pixels c 0 (band_start (Z.of_nat k))) g0).
  { intros k Hk. rewrite (Hs k Hk).
    now destruct (render_chunk_image c scene 0 (band_start (Z.of_nat k)) g0 sh)
      as [-> _]. }
  induction m as [|m IH]; intros Hm.
  - rewrite (band_prefix 0 Hm), rays_of_app, <- (Hg 0%nat Hm).
    change (Z.of_nat 0) with 0. rewrite band_first. cbn. lia.
  - change (sum_upto ?f (S (S m))) with (sum_upto f (S m) + f (S m)).
    rewrite IH by lia. rewrite (band_prefix (S m) Hm), rays_of_app.
    rewrite <- (Hg (S m) Hm).
    rewrite (band_next (Z.of_nat m)) by lia.
    replace (Z.of_nat m + 1) with (Z.of_nat (S m)) by lia.
    reflexivity.
Qed.

(** What every state of the threads satisfies: each thread has rendered a
    first part [done k] of its pixels with its own generator, and the counter
    has the rays of these parts added to it. *)
Definition tallied (n0 : Z) (done : nat -> list (Z * Z))
    (cfg : (nat -> Camera.worker) * Camera.shared) : Prop :=
  (forall k, Z.of_nat k < num_threads ->
     plan c num_threads k = done k ++ Camera.todo (fst cfg k) /\
     Camera.rng (fst cfg k) = rng_after c scene (done k) (gens k)) /\
  Camera.n_rays (snd cfg)
  = n0 + sum_upto (fun k => rays_of c scene (done k) (gens k))
           (Z.to_nat num_threads).

Lemma tallied_start (sh : Camera.shared) :
  tallied (Camera.n_rays sh) (fun _ => [])
    (Camera.workers c num_threads gens, sh).
Proof.
  split.
  - intros k Hk. cbn. split; reflexivity.
  - cbn [snd rays_of]. rewrite (sum_upto_ext _ (fun k => 0 * 0)) by reflexivity.
    rewrite sum_upto_scale. lia.
Qed.

Lemma tallied_step (n0 : Z) (done : nat -> list (Z * Z))
    (k : nat) (cfg cfg' : (nat -> Camera.worker) * Camera.shared) :
  tallied n0 done cfg ->
  Camera.step c scene num_threads k cfg = Some cfg' ->
  exists done', tallied n0 done' cfg'.
Proof.
  intros [Hplan Hn] Hstep. destruct cfg as [ws sh].
  unfold Camera.step in Hstep. cbn [fst snd] in *.
  destruct (Z.ltb_spec (Z.of_nat k) num_threads) as [Hk|]; [|discriminate].
  destruct (Camera.todo (ws k)) as [|px rest] eqn:Etodo; [discriminate|].
  rewrite render_pixel_eq in Hstep. inversion Hstep; subst cfg'; clear Hstep.
  destruct (Hplan k Hk) as [Hpk Hrk]. rewrite Etodo in Hpk.
  exists (fun j => if Nat.eqb j k then done k ++ [px] else done j).
  split; cbn [fst snd Camera.n_rays].
  - intros j Hj. destruct (Nat.eqb_spec j k) as [->|Hne].
    + cbn [Camera.todo Camera.rng]. split.
      * rewrite <- app_assoc. exact Hpk.
      * rewrite rng_after_app. cbn. now rewrite Hrk.
    + apply Hplan. exact Hj.
  - rewrite (sum_upto_ext _
               (fun j => if Nat.eqb j k
                         then rays_of c scene (done k ++ [px]) (gens k)
                         else rays_of c scene (done j) (gens j))).
    + rewrite sum_upto_update by lia. rewrite rays_of_app. cbn [rays_of].
      rewrite Hn, Hrk. lia.
    + intros j Hj. destruct (Nat.eqb_spec j k) as [->|Hne]; reflexivity.
Qed.

Lemma tallied_run (n0 : Z) (schedule : list nat) :
  forall done cfg cfg',
    tallied n0 done cfg ->
    Camera.run c scene num_threads schedule cfg = Some cfg' ->
    exists done', tallied n0 done' cfg'.
Proof.
  induction schedule as [|k schedule IH];
    intros done cfg cfg' Hc Hrun; cbn in Hrun.
  - inversion Hrun; subst. eauto.
  - destruct (Camera.step c scene num_threads k cfg) as [cfg1|] eqn:Es;
      [|discriminate].
    destruct (tallied_step n0 done k cfg cfg1 Hc Es) as [done1 Hc1].
    apply (IH done1 cfg1 cfg' Hc1 Hrun).
Qed.

(** When the threads are joined the counter has the rays of all the bands
    added to it, whatever the order of the steps was. *)
Lemma joined_rays (schedule : list nat) (sh sh' : Camera.shared) :
  Camera.renderPixelsParallel c scene num_threads gens schedule sh sh' ->
  Camera.n_rays sh'
  = Camera.n_rays sh
    + sum_upto (fun k => rays_of c scene (plan c num_threads k) (gens k))
        (Z.to_nat num_threads).
Proof.
  intros (ws' & Hrun & Hj).
  destruct (tallied_run (Camera.n_rays sh) schedule _ _ _ (tallied_start sh)
              Hrun) as (done & Hplan & Hn).
  cbn [fst snd] in *. rewrite Hn. f_equal.
  apply sum_upto_ext. intros k Hk.
  destruct (Hplan k ltac:(lia)) as [Hp _].
  rewrite (Hj k ltac:(lia)), app_nil_r in Hp. now rewrite Hp.
Qed.

Lemma last_thread :
  exists m, Z.to_nat num_threads = S m /\ Z.of_nat m = num_threads - 1.
Proof. exists (Z.to_nat (num_threads - 1)). lia. Qed.

(** However the steps of the threads interleave, [renderPixelsParallel]
    adds to [n_rays] at least one ray per sample of every pixel and at most
    [max_depth] of them, as [renderPixels] does; and when every pixel draws
    the same samples under both, it adds the very number of rays
    [renderPixels] adds. *)
Theorem X_parallel_counts_rays (schedule : list nat) (g0 : Rnd)
    (sh sh' : Camera.shared) :
  Camera.renderPixelsParallel c scene num_threads gens schedule sh sh' ->
  let pixels := Z.max 0 (Camera.image_width c)
                * Z.max 0 (Camera.image_height c) in
  let samples := pixels * Z.max 0 (Camera.samples_per_pixel c) in
  Camera.n_rays sh + samples <= Camera.n_rays sh'
  <= Camera.n_rays sh + samples * 16 /\
  (same_samples c scene num_threads gens g0 sh ->
   Camera.n_rays sh'
   = Camera.n_rays (snd (Camera.renderPixels c scene g0 sh))).
Proof.
  intros Hpar. cbv zeta. rewrite (joined_rays schedule sh sh' Hpar).
  destruct last_thread as (m & -> & Hm). split.
  - pose proof (sum_upto_bounds
                  (fun k => rays_of c scene (plan c num_threads k) (gens k))
                  (fun k => Z.of_nat (length (plan c num_threads k))
                            * Z.max 0 (Camera.samples_per_pixel c))
                  (fun k => Z.of_nat (length (plan c num_threads k))
                            * (Z.max 0 (Camera.samples_per_pixel c) * 16))
                  (S m)) as Hb.
    rewrite !sum_upto_scale, (bands_lengths m ltac:(lia)) in Hb.
    rewrite Hm, band_last, chunk_pixels_length in Hb.
    replace (Camera.image_height c - 0) with (Camera.image_height c) in Hb
      by lia.
    assert (Hk : forall k : nat, (k < S m)%nat ->
              Z.of_nat (length (plan c num_threads k))
              * Z.max 0 (Camera.samples_per_pixel c)
              <= rays_of c scene (plan c num_threads k) (gens k)
              <= Z.of_nat (length (plan c num_threads k))
                 * (Z.max 0 (Camera.samples_per_pixel c) * 16)).
    { intros k _.
      pose proof (rays_of_bounds c scene (plan c num_threads k) (gens k)) as Hr.
      change (Z.of_nat Camera.max_depth) with 16 in Hr. lia. }
    specialize (Hb Hk). lia.
  - intros Hs. rewrite (bands_rays g0 sh m Hs ltac:(lia)).
    rewrite Hm, band_last. symmetry. apply renderPixels_rays.
Qed.

(** The bands of the threads split the rows of the image: with one thread
    or more, every row of the image is in the band of one thread and one
    only, and a band has rows of the image only. *)
Theorem X_bands_partition_rows :
  (forall y, 0 <= y < Camera.image_height c ->
     exists t, 0 <= t < num_threads /\
       band_start t <= y < band_end t /\
       forall t', 0 <= t' < num_threads ->
         band_start t' <= y < band_end t' -> t' = t) /\
  (forall t y, 0 <= t < num_threads ->
     band_start t <= y < band_end t -> 0 <= y < Camera.image_height c).
Proof.
  split.
  - intros y Hy.
    destruct (band_exists y Hy) as (t & Ht & Hb).
    exists t. repeat split; try tauto.
    intros t' Ht' Hb'. apply (band_unique t' t y Ht' Ht Hb' Hb).
  - intros t y Ht Hb. apply (band_rows t y Ht Hb).
Qed.

(** Every thread but the last renders [image_height / num_threads] rows, the
    last one renders these and the remainder of the division; with more
    threads than rows every thread but the last renders nothing and the last
    one renders the whole image. *)
Theorem X_last_band_takes_remainder :
  0 <= Camera.image_height c ->
  (forall t, 0 <= t < num_threads - 1 ->
     band_end t - band_start t = Camera.image_height c / num_threads) /\
  band_end (num_threads - 1) - band_start (num_threads - 1)
  = Camera.image_height c / num_threads
    + Camera.image_height c mod num_threads /\
  (Camera.image_height c < num_threads ->
   (forall k, Z.of_nat k < num_threads - 1 -> plan c num_threads k = []) /\
   band_start (num_threads - 1) = 0 /\
   band_end (num_threads - 1) = Camera.image_height c).
Proof.
  intros Hh.
  assert (Ecs : Camera.chunk_size c num_threads
                = Camera.image_height c / num_threads).
  { unfold Camera.chunk_size. apply Z.quot_div_nonneg; lia. }
  split; [|split].
  - intros t Ht. unfold Camera.end_y, Camera.start_y.
    destruct (Z.eqb_spec t (num_threads - 1)); [lia|]. rewrite Ecs. lia.
  - rewrite band_last. unfold Camera.start_y. rewrite Ecs.
    pose proof (Z.div_mod (Camera.image_height c) num_threads ltac:(lia)).
    nia.
  - intros Hsmall.
    assert (E0 : Camera.chunk_size c num_threads = 0).
    { rewrite Ecs. apply Z.div_small. lia. }
    split; [|split].
    + intros k Hk. unfold plan. apply chunk_pixels_none.
      unfold Camera.end_y, Camera.start_y.
      destruct (Z.eqb_spec (Z.of_nat k) (num_threads - 1)); [lia|].
      rewrite E0. lia.
    + unfold Camera.start_y. rewrite E0. lia.
    + apply band_last.
Qed.

End ParallelExtras.

#[local] Existing Instance counter_platform.

Lemma X_parallel_counts_rays_witness :
  let c := grid_camera 2 2 3 1 in
  let gens := aligned_gens c nested_scene 2 0 blank_buffer in
  exists sh',
    ((1 <= 2)%Z /\
     Camera.renderPixelsParallel c nested_scene 2 gens [1; 0; 1; 0]%nat
       blank_buffer sh') /\
    ((Camera.n_rays blank_buffer + 4 <= Camera.n_rays sh'
      <= Camera.n_rays blank_buffer + 4 * 16)%Z /\
     (same_samples c nested_scene 2 gens 0%Z blank_buffer ->
      Camera.n_rays sh'
      = Camera.n_rays
          (snd (Camera.renderPixels c nested_scene 0%Z blank_buffer)))).
Proof.
  cbv zeta.
  assert (E : match Camera.run (grid_camera 2 2 3 1) nested_scene 2
                      [1; 0; 1; 0]%nat
                      (Camera.workers (grid_camera 2 2 3 1) 2
                         (aligned_gens (grid_camera 2 2 3 1) nested_scene 2 0
                            blank_buffer), blank_buffer)
              with
              | Some (ws', sh') =>
                  Camera.todo (ws' 0%nat) = [] /\ Camera.todo (ws' 1%nat) = []
              | None => False
              end)
    by (vm_compute; repeat split; reflexivity).
  destruct (Camera.run (H := counter_platform) (grid_camera 2 2 3 1)
              nested_scene 2 [1; 0; 1; 0]%nat
              (Camera.workers (H := counter_platform) (grid_camera 2 2 3 1) 2
                 (aligned_gens (grid_camera 2 2 3 1) nested_scene 2 0
                    blank_buffer), blank_buffer))
    as [[ws' sh']|] eqn:Erun; [|contradiction].
  destruct E as (E0 & E1).
  assert (Hpar : Camera.renderPixelsParallel (grid_camera 2 2 3 1)
                   nested_scene 2
                   (aligned_gens (grid_camera 2 2 3 1) nested_scene 2 0
                      blank_buffer) [1; 0; 1; 0]%nat blank_buffer sh').
  { exists ws'. split; [exact Erun|].
    intros [|[|k]] Hk; [exact E0|exact E1|lia]. }
  assert (H1 : (1 <= 2)%Z) by lia.
  exists sh'. split; [auto|].
  exact (X_parallel_counts_rays (H := counter_platform)
           (grid_camera 2 2 3 1) nested_scene 2 H1
           (aligned_gens (grid_camera 2 2 3 1) nested_scene 2 0 blank_buffer)
           [1; 0; 1; 0]%nat 0%Z blank_buffer sh' Hpar).
Defined.

Lemma X_bands_partition_rows_witness :
  let c := grid_camera 4 7 3 1 in
  (1 <= 3)%Z /\
  (forall y, (0 <= y < Camera.image_height c)%Z ->
     exists t, (0 <= t < 3)%Z /\
       (Camera.start_y c 3 t <= y < Camera.end_y c 3 t)%Z /\
       forall t', (0 <= t' < 3)%Z ->
         (Camera.start_y c 3 t' <= y < Camera.end_y c 3 t')%Z -> t' = t) /\
  (forall t y, (0 <= t < 3)%Z ->
     (Camera.start_y c 3 t <= y < Camera.end_y c 3 t)%Z ->
     (0 <= y < Camera.image_height c)%Z).
Proof.
  cbv zeta.
  assert (H1 : (1 <= 3)%Z) by lia.
  split; [exact H1|].
  exact (X_bands_partition_rows (grid_camera 4 7 3 1) 3 H1).
Defined.

Lemma X_last_band_takes_remainder_witness :
  let c := grid_camera 4 7 3 1 in
  ((1 <= 3)%Z /\ (0 <= Camera.image_height c)%Z) /\
  (forall t, (0 <= t < 3 - 1)%Z ->
     (Camera.end_y c 3 t - Camera.start_y c 3 t
      = Camera.image_height c / 3)%Z) /\
  (Camera.end_y c 3 (3 - 1) - Camera.start_y c 3 (3 - 1)
   = Camera.image_height c / 3 + Camera.image_height c mod 3)%Z /\
  ((Camera.image_height c < 3)%Z ->
   (forall k, (Z.of_nat k < 3 - 1)%Z -> plan c 3 k = []) /\
   Camera.start_y c 3 (3 - 1) = 0%Z /\
   Camera.end_y c 3 (3 - 1) = Camera.image_height c).
Proof.
  cbv zeta.
  assert (H1 : (1 <= 3)%Z) by lia.
  assert (H2 : (0 <= Camera.image_height (grid_camera 4 7 3 1))%Z)
    by (vm_compute; discriminate).
  split; [auto|].
  exact (X_last_band_takes_remainder (grid_camera 4 7 3 1) 3 H1 H2).
Defined.

(** ** camera_cuda.cu: how the kernels are launched *)

Module CudaLaunch.

Local Open Scope Z_scope.

(** [unsigned int] arithmetic wraps modulo 2^32; the conversion of an
    [unsigned int] to [int] keeps the value modulo 2^32.  [int] arithmetic
    that overflows is undefined: the model computes it in [Z], and the
    theorems take an image whose byte count fits an [int]. *)
Definition uint32 (z : Z) : Z := z mod 2 ^ 32.
Definition int32 (z : Z) : Z := (z + 2 ^ 31) mod 2 ^ 32 - 2 ^ 31.

Record dim3 := mkDim3 { dx : Z; dy : Z }.

(** [dim3 block_size(32, 4)] *)
Definition block_size : dim3 := mkDim3 32 4.

(** [dim3 grid_size((width + block_size.x - 1) / block_size.x,
                    (height + block_size.y - 1) / block_size.y)],
    computed in [unsigned int]. *)
Definition grid_size (width height : Z) : dim3 :=
  mkDim3 (uint32 (width + dx block_size - 1) / dx block_size)
         (uint32 (height + dy block_size - 1) / dy block_size).

(** A thread of a launch: its [blockIdx] and its [threadIdx]. *)
Record thread := mkThread { blockIdx : dim3; threadIdx : dim3 }.

(** The threads of [kernel<<<grid, block>>>]. *)
Definition in_launch (grid block : dim3) (th : thread) : Prop :=
  (0 <= dx (blockIdx th) < dx grid /\ 0 <= dy (blockIdx th) < dy grid) /\
  (0 <= dx (threadIdx th) < dx block /\ 0 <= dy (threadIdx th) < dy block).

(** How a thread of [renderKernel] ends: at the first bounds check, at the
    second one, or with the three bytes of its pixel written at [base_idx],
    the colour drawn from [rand_states[pixel_idx]]. *)
Inductive outcome : Type :=
| OutOfImage
| FailsDoubleCheck
| Writes (pixel_idx base_idx : Z).

(** [renderKernel], the addresses only. *)
Definition renderKernel (blockDim : dim3) (width height : Z) (th : thread)
  : outcome :=
  let x := int32 (uint32 (dx (blockIdx th) * dx blockDim + dx (threadIdx th))) in
  let y := int32 (uint32 (dy (blockIdx th) * dy blockDim + dy (threadIdx th))) in
  if (x >=? width) || (y >=? height) then OutOfImage
  else
    let pixel_idx := y * width + x in
    let base_idx := pixel_idx * 3 in
    if (pixel_idx >=? width * height) || (base_idx + 2 >=? width * height * 3)
    then FailsDoubleCheck
    else Writes pixel_idx base_idx.

(** [int threads_per_block = 256;
     int num_blocks = (num_pixels + threads_per_block - 1) / threads_per_block] *)
Definition threads_per_block : Z := 256.
Definition num_blocks (num_pixels : Z) : Z :=
  Z.quot (num_pixels + threads_per_block - 1) threads_per_block.

(** [init_random_states]: the index of the state thread [t] of block [b]
    initialises, if any. *)
Definition init_random_states (blockDim : Z) (num_states : Z) (b t : Z)
  : option Z :=
  let idx := int32 (uint32 (b * blockDim + t)) in
  if idx <? num_states then Some idx else None.

(** *** The runtime calls of the host function *)

Inductive buffer : Type := d_image | d_rand_states.

Inductive call : Type :=
| cudaMalloc (b : buffer)
| launch_init_random_states
| launch_renderKernel
| cudaGetLastError
| cudaDeviceSynchronize
| cudaMemcpy
| cudaFree (b : buffer).

(** The calls [renderPixelsCUDA] makes to the runtime, in order, on a device
    that answers as [dev]. *)
Definition runtime_calls (dev : Cuda.device) : list call :=
  [cudaMalloc d_image; cudaMalloc d_rand_states] ++
  if Cuda.failed (Cuda.malloc_err1 dev) || Cuda.failed (Cuda.malloc_err2 dev)
  then []
  else
    [launch_init_random_states; cudaGetLastError] ++
    if Cuda.failed (Cuda.init_err dev)
    then [cudaFree d_image; cudaFree d_rand_states]
    else
      [cudaDeviceSynchronize; launch_renderKernel; cudaGetLastError] ++
      if Cuda.failed (Cuda.kernel_err dev)
      then [cudaFree d_image]
      else
        [cudaDeviceSynchronize; cudaMemcpy] ++
        if Cuda.failed (Cuda.copy_err dev)
        then [cudaFree d_image]
        else [cudaFree d_image].

Definition buffer_eqb (a b : buffer) : bool :=
  match a, b with
  | d_image, d_image | d_rand_states, d_rand_states => true
  | _, _ => false
  end.

(** The buffer was allocated: its [cudaMalloc] succeeded. *)
Definition allocated (dev : Cuda.device) (b : buffer) : bool :=
  match b with
  | d_image => negb (Cuda.failed (Cuda.malloc_err1 dev))
  | d_rand_states => negb (Cuda.failed (Cuda.malloc_err2 dev))
  end.

(** How many times the calls free the buffer. *)
Definition frees (calls : list call) (b : buffer) : nat :=
  List.length
    (filter (fun k => match k with
                      | cudaFree b' => buffer_eqb b b'
                      | _ => false
                      end) calls).

(** The buffer is still allocated when the host function returns. *)
Definition leaked (dev : Cuda.device) (b : buffer) : bool :=
  allocated dev b && Nat.eqb (frees (runtime_calls dev) b) 0.

Lemma uint32_small z : 0 <= z < 2 ^ 32 -> uint32 z = z.
Proof. intros. unfold uint32. apply Z.mod_small. lia. Qed.

Lemma int32_small z : - 2 ^ 31 <= z < 2 ^ 31 -> int32 z = z.
Proof. intros. unfold int32. rewrite Z.mod_small; lia. Qed.

Lemma to_int_small z : 0 <= z < 2 ^ 31 -> int32 (uint32 z) = z.
Proof. intros. rewrite uint32_small, int32_small; lia. Qed.

(* coordinate lemma: in one dimension *)
Lemma coord_in_launch (n d b t : Z) :
  0 < d -> 0 <= n -> 0 <= b < (n + d - 1) / d -> 0 <= t < d ->
  0 <= b * d + t < n + d.
Proof.
  intros Hd Hn Hb Ht.
  pose proof (Z.div_mod (n + d - 1) d ltac:(lia)).
  pose proof (Z.mod_pos_bound (n + d - 1) d ltac:(lia)).
  nia.
Qed.

Lemma coord_of_pixel (n d x : Z) :
  0 < d -> 0 <= x < n ->
  0 <= x / d < (n + d - 1) / d /\ 0 <= x mod d < d /\
  x / d * d + x mod d = x.
Proof.
  intros Hd Hx.
  pose proof (Z.div_mod x d ltac:(lia)).
  pose proof (Z.mod_pos_bound x d ltac:(lia)).
  assert (0 <= x / d) by (apply Z.div_pos; lia).
  repeat split; try lia.
  apply Z.div_lt_upper_bound; [lia|].
  pose proof (Z.div_mod (n + d - 1) d ltac:(lia)).
  pose proof (Z.mod_pos_bound (n + d - 1) d ltac:(lia)).
  nia.
Qed.

Lemma coord_unique (d b t b' t' : Z) :
  0 < d -> 0 <= t < d -> 0 <= t' < d -> b * d + t = b' * d + t' ->
  b = b' /\ t = t'.
Proof. intros. assert (b = b') by nia. subst. lia. Qed.

Section Launch.

Variables width height : Z.
Hypothesis width_int : 0 <= width < 2 ^ 31.
Hypothesis height_int : 0 <= height < 2 ^ 31.
Hypothesis bytes_int : width * height * 3 < 2 ^ 31.

Lemma grid_x : dx (grid_size width height) = (width + 32 - 1) / 32.
Proof. cbn. rewrite uint32_small; [reflexivity|lia]. Qed.
Lemma grid_y : dy (grid_size width height) = (height + 4 - 1) / 4.
Proof. cbn. rewrite uint32_small; [reflexivity|lia]. Qed.

Lemma launched_coords (th : thread) :
  in_launch (grid_size width height) block_size th ->
  let x := dx (blockIdx th) * 32 + dx (threadIdx th) in
  let y := dy (blockIdx th) * 4 + dy (threadIdx th) in
  1 <= width /\ 1 <= height /\
  0 <= x < width + 32 /\ 0 <= y < height + 4 /\
  int32 (uint32 x) = x /\ int32 (uint32 y) = y.
Proof.
  intros [[Hbx Hby] [Htx Hty]]. rewrite grid_x in Hbx. rewrite grid_y in Hby.
  cbn in Htx, Hty. cbv zeta.
  assert (Hw : 1 <= width).
  { destruct (Z_lt_dec width 1); [|lia].
    assert (width = 0) by lia. subst. cbn in Hbx. lia. }
  assert (Hh : 1 <= height).
  { destruct (Z_lt_dec height 1); [|lia].
    assert (height = 0) by lia. subst. cbn in Hby. lia. }
  pose proof (coord_in_launch width 32 _ _ ltac:(lia) ltac:(lia) Hbx Htx).
  pose proof (coord_in_launch height 4 _ _ ltac:(lia) ltac:(lia) Hby Hty).
  assert (width * 3 < 2 ^ 31) by nia.
  assert (height * 3 < 2 ^ 31) by nia.
  repeat split; try lia; apply to_int_small; lia.
Qed.

(** The launch of [renderKernel] covers the image: every pixel of an image
    whose byte count fits an [int] is written by one thread of the grid and
    one only, at [(y * width + x) * 3]. *)
Theorem X_cuda_launch_covers_image :
  forall x y, 0 <= x < width -> 0 <= y < height ->
    exists th,
      in_launch (grid_size width height) block_size th /\
      renderKernel block_size width height th
      = Writes (y * width + x) ((y * width + x) * 3) /\
      forall th',
        in_launch (grid_size width height) block_size th' ->
        renderKernel block_size width height th'
        = Writes (y * width + x) ((y * width + x) * 3) ->
        th' = th.
Proof.
  intros x y Hx Hy.
  destruct (coord_of_pixel width 32 x ltac:(lia) Hx) as (Hbx & Htx & Ex).
  destruct (coord_of_pixel height 4 y ltac:(lia) Hy) as (Hby & Hty & Ey).
  assert (Hp : 0 <= y * width + x < width * height) by nia.
  assert (Hkernel : forall th,
            in_launch (grid_size width height) block_size th ->
            dx (blockIdx th) * 32 + dx (threadIdx th) = x ->
            dy (blockIdx th) * 4 + dy (threadIdx th) = y ->
            renderKernel block_size width height th
            = Writes (y * width + x) ((y * width + x) * 3)).
  { intros th Hth Hxx Hyy.
    destruct (launched_coords th Hth) as (_ & _ & _ & _ & Ex' & Ey').
    unfold renderKernel. cbn [dx dy block_size]. rewrite Ex', Ey', Hxx, Hyy.
    destruct (Z.geb_spec x width); [lia|].
    destruct (Z.geb_spec y height); [lia|]. cbn [orb].
    destruct (Z.geb_spec (y * width + x) (width * height)); [lia|].
    destruct (Z.geb_spec ((y * width + x) * 3 + 2) (width * height * 3));
      [lia|]. reflexivity. }
  exists (mkThread (mkDim3 (x / 32) (y / 4)) (mkDim3 (x mod 32) (y mod 4))).
  assert (Hin : in_launch (grid_size width height) block_size
                  (mkThread (mkDim3 (x / 32) (y / 4))
                     (mkDim3 (x mod 32) (y mod 4)))).
  { unfold in_launch. rewrite grid_x, grid_y. cbn. lia. }
  split; [exact Hin|]. split; [apply Hkernel; [exact Hin|exact Ex|exact Ey]|].
  intros th' Hth' Hw'.
  destruct (launched_coords th' Hth') as (_ & _ & Hx' & Hy' & Ex' & Ey').
  pose proof Hth' as [[_ _] [Htx' Hty']]. cbn in Htx', Hty'.
  unfold renderKernel in Hw'. cbn [dx dy block_size] in Hw'.
  rewrite Ex', Ey' in Hw'.
  remember (dx (blockIdx th') * 32 + dx (threadIdx th')) as x' eqn:Dx.
  remember (dy (blockIdx th') * 4 + dy (threadIdx th')) as y' eqn:Dy.
  destruct (Z.geb_spec x' width); [discriminate|].
  destruct (Z.geb_spec y' height); [discriminate|]. cbn [orb] in Hw'.
  destruct (_ || _); [discriminate|].
  injection Hw' as Hpix _.
  destruct (coord_unique width y' x' y x ltac:(lia) ltac:(lia) ltac:(lia)
              Hpix) as [Eyy Exx].
  destruct (coord_unique 32 (dx (blockIdx th')) (dx (threadIdx th'))
              (x / 32) (x mod 32) ltac:(lia) Htx' Htx ltac:(lia))
    as [Eb Et].
  destruct (coord_unique 4 (dy (blockIdx th')) (dy (threadIdx th'))
              (y / 4) (y mod 4) ltac:(lia) Hty' Hty ltac:(lia))
    as [Eb' Et'].
  clear - Eb Et Eb' Et'.
  destruct th' as [[bx by_] [tx ty]]. cbn in Eb, Et, Eb', Et'.
  now subst.
Qed.

(** No thread of the launch stops at the second bounds check of
    [renderKernel]: a thread past the first check writes its three bytes
    inside the device buffer of [width * height * 3] bytes, and the random
    state it reads has been initialised by a thread of the launch of
    [init_random_states]. *)
Theorem X_cuda_double_check_never_fires :
  forall th, in_launch (grid_size width height) block_size th ->
    match renderKernel block_size width height th with
    | OutOfImage => True
    | FailsDoubleCheck => False
    | Writes pixel_idx base_idx =>
        0 <= base_idx /\ base_idx + 2 < width * height * 3 /\
        exists b t,
          (0 <= b < num_blocks (width * height) /\
           0 <= t < threads_per_block) /\
          init_random_states threads_per_block (width * height) b t
          = Some pixel_idx
    end.
Proof.
  intros th Hth.
  destruct (launched_coords th Hth) as (Hw & Hh & Hx & Hy & Ex & Ey).
  unfold renderKernel. cbn [dx dy block_size]. rewrite Ex, Ey.
  set (x := dx (blockIdx th) * 32 + dx (threadIdx th)) in *.
  set (y := dy (blockIdx th) * 4 + dy (threadIdx th)) in *.
  destruct (Z.geb_spec x width) as [|Hxw]; [exact I|].
  destruct (Z.geb_spec y height) as [|Hyh]; [exact I|]. cbn [orb].
  assert (Hp : 0 <= y * width + x < width * height) by nia.
  destruct (Z.geb_spec (y * width + x) (width * height)); [lia|].
  destruct (Z.geb_spec ((y * width + x) * 3 + 2) (width * height * 3));
    [lia|]. cbn [orb].
  split; [lia|]. split; [lia|].
  destruct (coord_of_pixel (width * height) 256 (y * width + x)
              ltac:(lia) Hp) as (Hb & Ht & E).
  exists ((y * width + x) / 256), ((y * width + x) mod 256).
  unfold num_blocks, threads_per_block, init_random_states.
  rewrite Z.quot_div_nonneg by lia.
  split; [split; lia|].
  rewrite E, to_int_small by lia.
  destruct (Z.ltb_spec (y * width + x) (width * height)); [reflexivity|lia].
Qed.

End Launch.

(** [renderPixelsCUDA] frees [d_rand_states] only when the launch of
    [init_random_states] fails: on every other path on which it was
    allocated, the run that succeeds among them, the buffer is still
    allocated at the return.  [d_image] is lost only when its own allocation
    succeeds and the other one fails.  No buffer is freed twice, and none that
    was not allocated. *)
Theorem X_cuda_keeps_random_states (dev : Cuda.device) :
  (leaked dev d_rand_states = true <->
   Cuda.failed (Cuda.malloc_err2 dev) = false /\
   (Cuda.failed (Cuda.malloc_err1 dev) = true \/
    Cuda.failed (Cuda.init_err dev) = false)) /\
  (Cuda.all_succeed dev = true -> leaked dev d_rand_states = true) /\
  (leaked dev d_image = true <->
   Cuda.failed (Cuda.malloc_err1 dev) = false /\
   Cuda.failed (Cuda.malloc_err2 dev) = true) /\
  (forall b, (frees (runtime_calls dev) b <= 1)%nat /\
             (frees (runtime_calls dev) b = 1%nat -> allocated dev b = true)).
Proof.
  unfold leaked, allocated, Cuda.all_succeed, runtime_calls, frees.
  destruct (Cuda.failed (Cuda.malloc_err1 dev)),
           (Cuda.failed (Cuda.malloc_err2 dev)),
           (Cuda.failed (Cuda.init_err dev)),
           (Cuda.failed (Cuda.kernel_err dev)),
           (Cuda.failed (Cuda.copy_err dev)); cbn;
    (split; [intuition congruence|]);
    (split; [intros; reflexivity || discriminate|]);
    (split; [intuition congruence|]);
    intros b; destruct b; cbn; (split; [lia|]); intros E;
    reflexivity || discriminate E.
Qed.

End CudaLaunch.

Lemma X_cuda_launch_covers_image_witness :
  ((0 <= 640 < 2 ^ 31)%Z /\ (0 <= 360 < 2 ^ 31)%Z /\
   (640 * 360 * 3 < 2 ^ 31)%Z) /\
  forall x y, (0 <= x < 640)%Z -> (0 <= y < 360)%Z ->
    exists th,
      CudaLaunch.in_launch (CudaLaunch.grid_size 640 360)
        CudaLaunch.block_size th /\
      CudaLaunch.renderKernel CudaLaunch.block_size 640 360 th
      = CudaLaunch.Writes (y * 640 + x) ((y * 640 + x) * 3) /\
      forall th',
        CudaLaunch.in_launch (CudaLaunch.grid_size 640 360)
          CudaLaunch.block_size th' ->
        CudaLaunch.renderKernel CudaLaunch.block_size 640 360 th'
        = CudaLaunch.Writes (y * 640 + x) ((y * 640 + x) * 3) ->
        th' = th.
Proof.
  assert (H1 : (0 <= 640 < 2 ^ 31)%Z) by lia.
  assert (H2 : (0 <= 360 < 2 ^ 31)%Z) by lia.
  assert (H3 : (640 * 360 * 3 < 2 ^ 31)%Z) by lia.
  split; [auto|].
  exact (CudaLaunch.X_cuda_launch_covers_image 640 360 H1 H2 H3).
Defined.

Lemma X_cuda_double_check_never_fires_witness :
  ((0 <= 640 < 2 ^ 31)%Z /\ (0 <= 360 < 2 ^ 31)%Z /\
   (640 * 360 * 3 < 2 ^ 31)%Z) /\
  forall th,
    CudaLaunch.in_launch (CudaLaunch.grid_size 640 360)
      CudaLaunch.block_size th ->
    match CudaLaunch.renderKernel CudaLaunch.block_size 640 360 th with
    | CudaLaunch.OutOfImage => True
    | CudaLaunch.FailsDoubleCheck => False
    | CudaLaunch.Writes pixel_idx base_idx =>
        (0 <= base_idx)%Z /\ (base_idx + 2 < 640 * 360 * 3)%Z /\
        exists b t,
          ((0 <= b < CudaLaunch.num_blocks (640 * 360))%Z /\
           (0 <= t < CudaLaunch.threads_per_block)%Z) /\
          CudaLaunch.init_random_states CudaLaunch.threads_per_block
            (640 * 360) b t
          = Some pixel_idx
    end.
Proof.
  assert (H1 : (0 <= 640 < 2 ^ 31)%Z) by lia.
  assert (H2 : (0 <= 360 < 2 ^ 31)%Z) by lia.
  assert (H3 : (640 * 360 * 3 < 2 ^ 31)%Z) by lia.
  split; [auto|].
  exact (CudaLaunch.X_cuda_double_check_never_fires 640 360 H1 H2 H3).
Defined.

(** ** What the program reads from the command line and prints *)

Module Console.

Import Ascii String.
Local Open Scope string_scope.
Local Open Scope Z_scope.

(** [s << n] for an integer [n]: its decimal digits, with a minus sign when
    it is negative. *)
Definition show_count (n : Z) : string :=
  DecimalString.NilZero.string_of_int (Z.to_int n).

(** [Camera::timeStr], for a duration of [duration] nanoseconds.
    [duration_cast] to a coarser unit truncates toward zero. *)
Definition timeStr (duration : Z) : string :=
  let ms := Z.quot duration 1000000 in
  let seconds := Z.quot duration 1000000000 in
  let minutes := Z.quot duration 60000000000 in
  if 0 <? minutes
  then show_count minutes ++ " minutes and "
       ++ show_count (Z.rem seconds 60) ++ " seconds"
  else if 0 <? seconds
  then show_count seconds ++ " seconds"
  else show_count ms ++ " milliseconds".

(** [argv[i]] *)
Definition arg (argv : list string) (i : Z) : string :=
  nth (Z.to_nat i) argv "".

(** [argv[i][0] == '-'] *)
Definition starts_with_dash (s : string) : bool :=
  match s with
  | String c _ => Ascii.eqb c "-"%char
  | EmptyString => false
  end.

Section ParseInput.

(** [atoi] of the C library. *)
Variable atoi : string -> Z.

(** The body of the loop of [parseInput] for the index [i]: each of its
    four branches returns. *)
Definition parseInput_body (argv : list string) (i : Z) : Z :=
  let argc := Z.of_nat (List.length argv) in
  if (arg argv i =? "-h")%string || (arg argv i =? "--help")%string
     || (arg argv i =? "/?")%string
  then -1
  else if (arg argv i =? "-s")%string && (i + 1 <? argc)
  then atoi (arg argv (i + 1))
  else if starts_with_dash (arg argv i)
  then -1
  else -1.

(** [parseInput]: [for (int i = 1; i < argc; ++i)] enters its body with
    [i = 1], if at all, and the body returns. *)
Definition parseInput (argv : list string) : Z :=
  let argc := Z.of_nat (List.length argv) in
  if 1 <? argc then parseInput_body argv 1
  else constants.SAMPLES_PER_PIXEL.

(** [parseInput] reads the first argument, and the one after it when the
    first is [-s], and nothing else: with no argument it answers the default
    of 16 samples; with [-s v] first it answers [atoi v] whatever follows;
    with anything else first, and with [-s] as the only argument, it answers
    -1. *)
Theorem X_parseInput_reads_first_argument :
  (forall prog, parseInput [] = 16 /\ parseInput [prog] = 16) /\
  (forall prog v rest, parseInput (prog :: "-s" :: v :: rest) = atoi v) /\
  (forall prog a rest, a <> "-s" -> parseInput (prog :: a :: rest) = -1) /\
  (forall prog, parseInput [prog; "-s"] = -1).
Proof.
  split; [|split; [|split]].
  - intros prog. split; reflexivity.
  - intros prog v rest. unfold parseInput, parseInput_body.
    cbn [List.length]. rewrite !Nat2Z.inj_succ.
    destruct (Z.ltb_spec 1 (Z.succ (Z.succ (Z.succ (Z.of_nat (List.length rest))))));
      [|lia].
    destruct (Z.ltb_spec (1 + 1)
                (Z.succ (Z.succ (Z.succ (Z.of_nat (List.length rest))))));
      [|lia].
    reflexivity.
  - intros prog a rest Ha. unfold parseInput, parseInput_body.
    cbn [List.length]. rewrite !Nat2Z.inj_succ.
    destruct (Z.ltb_spec 1 (Z.succ (Z.succ (Z.of_nat (List.length rest)))));
      [|lia].
    change (arg (prog :: a :: rest) 1) with a.
    apply String.eqb_neq in Ha. rewrite Ha. cbn [andb].
    destruct (_ || _); [reflexivity|]. destruct (starts_with_dash a); reflexivity.
  - intros prog. reflexivity.
Qed.

End ParseInput.

Lemma quot_quot_60 (d : Z) :
  0 <= d -> Z.quot d 60000000000 = Z.quot d 1000000000 / 60.
Proof.
  intros Hd. rewrite !Z.quot_div_nonneg by lia.
  rewrite Z.div_div by lia. reflexivity.
Qed.

(** What [timeStr] prints brackets the duration: from one minute on, whole
    minutes and a number of seconds under 60 that are together the whole
    seconds of the duration; from one second on, its whole seconds, under
    60; under one second, its whole milliseconds, under 1000.  A negative
    duration is printed in milliseconds, however long it is. *)
Theorem X_timeStr_brackets_duration (d : Z) :
  (60000000000 <= d ->
   exists m s,
     timeStr d = show_count m ++ " minutes and " ++ show_count s ++ " seconds"
     /\ 1 <= m /\ 0 <= s < 60 /\
     (m * 60 + s) * 1000000000 <= d < (m * 60 + s + 1) * 1000000000) /\
  (1000000000 <= d < 60000000000 ->
   exists s,
     timeStr d = show_count s ++ " seconds" /\ 1 <= s < 60 /\
     s * 1000000000 <= d < (s + 1) * 1000000000) /\
  (0 <= d < 1000000000 ->
   exists ms,
     timeStr d = show_count ms ++ " milliseconds" /\ 0 <= ms < 1000 /\
     ms * 1000000 <= d < (ms + 1) * 1000000) /\
  (d < 0 ->
   exists ms,
     timeStr d = show_count ms ++ " milliseconds" /\ ms <= 0 /\
     (ms - 1) * 1000000 < d <= ms * 1000000).
Proof.
  unfold timeStr. split; [|split; [|split]].
  - intros Hd. rewrite quot_quot_60 by lia.
    rewrite Z.rem_mod_nonneg by (try apply Z.quot_pos; lia).
    rewrite (Z.quot_div_nonneg d 1000000000) by lia.
    pose proof (Z.div_mod d 1000000000 ltac:(lia)) as E1.
    pose proof (Z.mod_pos_bound d 1000000000 ltac:(lia)) as B1.
    pose proof (Z.div_mod (d / 1000000000) 60 ltac:(lia)) as E2.
    pose proof (Z.mod_pos_bound (d / 1000000000) 60 ltac:(lia)) as B2.
    set (q := d / 1000000000) in *.
    destruct (Z.ltb_spec 0 (q / 60)) as [Hm|Hm]; [|lia].
    exists (q / 60), (q mod 60). repeat split; try lia.
  - intros Hd. rewrite quot_quot_60 by lia.
    rewrite (Z.quot_div_nonneg d 1000000000) by lia.
    pose proof (Z.div_mod d 1000000000 ltac:(lia)) as E1.
    pose proof (Z.mod_pos_bound d 1000000000 ltac:(lia)) as B1.
    pose proof (Z.div_mod (d / 1000000000) 60 ltac:(lia)) as E2.
    pose proof (Z.mod_pos_bound (d / 1000000000) 60 ltac:(lia)) as B2.
    set (q := d / 1000000000) in *.
    destruct (Z.ltb_spec 0 (q / 60)) as [Hm|Hm]; [lia|].
    destruct (Z.ltb_spec 0 q) as [Hs|Hs]; [|lia].
    exists q. repeat split; lia.
  - intros Hd. rewrite quot_quot_60 by lia.
    rewrite (Z.quot_div_nonneg d 1000000000), (Z.quot_div_nonneg d 1000000)
      by lia.
    rewrite (Z.div_small d 1000000000) by lia. cbn [Z.div Z.div_eucl Z.ltb Z.compare].
    pose proof (Z.div_mod d 1000000 ltac:(lia)) as E1.
    pose proof (Z.mod_pos_bound d 1000000 ltac:(lia)) as B1.
    exists (d / 1000000). repeat split; lia.
  - intros Hd.
    assert (Hq : forall k, 0 < k -> Z.quot d k <= 0 /\
                   (Z.quot d k - 1) * k < d <= Z.quot d k * k).
    { intros k Hk. pose proof (Z.quot_rem' d k) as E.
      pose proof (Z.rem_bound_neg_pos d k) as B.
      assert (Z.quot d k = - Z.quot (- d) k)
        by (rewrite Z.quot_opp_l by lia; lia).
      pose proof (Z.quot_pos (- d) k ltac:(lia) ltac:(lia)).
      pose proof (Z.rem_bound_pos (- d) k ltac:(lia) ltac:(lia)) as B'.
      rewrite Z.rem_opp_l in B' by lia. nia. }
    destruct (Hq 60000000000 ltac:(lia)) as [Hm _].
    destruct (Hq 1000000000 ltac:(lia)) as [Hs _].
    destruct (Hq 1000000 ltac:(lia)) as [Hms Hb].
    destruct (Z.ltb_spec 0 (Z.quot d 60000000000)); [lia|].
    destruct (Z.ltb_spec 0 (Z.quot d 1000000000)); [lia|].
    exists (Z.quot d 1000000). repeat split; lia.
Qed.

End Console.

(** ** main.cpp: the gradient image *)

Module Gradient.

Local Open Scope Z_scope.

(** The resolution of constants.h:
    [IMAGE_WIDTH = (int)(ASPECT_RATIO * SET_IMAGE_HEIGHT)]. *)
Definition ASPECT_RATIO : float := (16 / 9)%float.
Definition SET_IMAGE_HEIGHT : Z := 360.
Definition IMAGE_HEIGHT : Z := SET_IMAGE_HEIGHT.
Definition IMAGE_WIDTH : Z :=
  static_cast_int (ASPECT_RATIO * of_int SET_IMAGE_HEIGHT).

(** [static_cast<unsigned char>(double)]: the value truncated toward zero
    when that is a value of [unsigned char]; the conversion is undefined
    otherwise. *)
Definition cast_uchar (v : float) : option Z :=
  match Prim2SF v with
  | S754_finite _ _ _ | S754_zero _ =>
      let n := static_cast_int v in
      if (0 <=? n) && (n <=? 255) then Some n else None
  | _ => None
  end.

(** The two values [fillGradientImage] converts for the pixel [(x, y)]. *)
Definition red_value (y : Z) : float := (255 * of_int y / of_int IMAGE_WIDTH)%float.
Definition green_value (x : Z) : float := (255 * of_int x / of_int IMAGE_HEIGHT)%float.

(** The body of the inner loop: the three stores of one pixel. *)
Definition fill_pixel (y : Z) (image : option (list Z)) (x : Z)
  : option (list Z) :=
  match image with
  | None => None
  | Some image =>
      let index := (y * IMAGE_WIDTH + x) * constants.CHANNELS in
      match cast_uchar (red_value y) with
      | None => None
      | Some r =>
          let image := vec_set image index r in
          match cast_uchar (green_value x) with
          | None => None
          | Some g =>
              let image := vec_set image (index + 1) g in
              Some (vec_set image (index + 2) 100)
          end
      end
  end.

(** [fillGradientImage]: the image it leaves, or [None] when it runs into an
    undefined conversion. *)
Definition fillGradientImage (image : list Z) : option (list Z) :=
  fold_left
    (fun image y => fold_left (fill_pixel y) (int_range 0 IMAGE_WIDTH) image)
    (int_range 0 IMAGE_HEIGHT) (Some image).

Lemma fill_pixel_none (y : Z) (xs : list Z) :
  fold_left (fill_pixel y) xs None = None.
Proof. induction xs as [|x xs IH]; cbn; auto. Qed.

Lemma fill_rows_none (ys : list Z) :
  fold_left
    (fun image y => fold_left (fill_pixel y) (int_range 0 IMAGE_WIDTH) image)
    ys None = None.
Proof.
  induction ys as [|y ys IH]; cbn [fold_left]; [reflexivity|].
  rewrite fill_pixel_none. exact IH.
Qed.

Lemma in_range_list (a b k : Z) : a <= k < b -> In k (int_range a b).
Proof.
  intros Hk. unfold int_range. apply in_map_iff.
  exists (Z.to_nat (k - a)). split; [lia|]. apply in_seq. lia.
Qed.

(** The image is 640 pixels wide.  The red channel of [fillGradientImage] is
    divided by the width and stays under 144; the green channel is divided by
    the height, and from column 362 on its value is 256 or more: the
    conversion to [unsigned char] is undefined there, so that
    [fillGradientImage] does not get through the first row of any image. *)
Theorem X_gradient_green_overflows :
  IMAGE_WIDTH = 640 /\
  (forall x y, 0 <= x < IMAGE_WIDTH -> 0 <= y < IMAGE_HEIGHT ->
     (exists r, cast_uchar (red_value y) = Some r /\ 0 <= r <= 143) /\
     (x <= 361 -> exists g, cast_uchar (green_value x) = Some g) /\
     (362 <= x -> cast_uchar (green_value x) = None /\
                  256 <= static_cast_int (green_value x))) /\
  (forall image, fillGradientImage image = None).
Proof.
  assert (Ew : IMAGE_WIDTH = 640) by (vm_compute; reflexivity).
  split; [exact Ew|]. split.
  - assert (Hr : forallb (fun y => match cast_uchar (red_value y) with
                                   | Some r => (0 <=? r) && (r <=? 143)
                                   | None => false
                                   end) (int_range 0 IMAGE_HEIGHT) = true)
      by (vm_compute; reflexivity).
    assert (Hg : forallb (fun x => match cast_uchar (green_value x) with
                                   | Some _ => x <=? 361
                                   | None => (362 <=? x)
                                             && (256 <=? static_cast_int (green_value x))
                                   end) (int_range 0 IMAGE_WIDTH) = true)
      by (vm_compute; reflexivity).
    rewrite forallb_forall in Hr, Hg.
    intros x y Hx Hy.
    specialize (Hr y (in_range_list _ _ _ Hy)).
    specialize (Hg x (in_range_list _ _ _ Hx)).
    destruct (cast_uchar (red_value y)) as [r|]; [|discriminate].
    destruct (cast_uchar (green_value x)) as [g|].
    + split; [exists r; split; [reflexivity|lia]|].
      split; [intros _; exists g; reflexivity|]. lia.
    + split; [exists r; split; [reflexivity|lia]|].
      split; [lia|]. intros _. split; [reflexivity|lia].
  - intros image. unfold fillGradientImage.
    change (int_range 0 IMAGE_HEIGHT) with (0 :: int_range 1 IMAGE_HEIGHT).
    cbn [fold_left].
    assert (E : fold_left (fill_pixel 0) (int_range 0 IMAGE_WIDTH) (Some image)
                = None).
    { rewrite Ew.
      replace (int_range 0 640)
        with (int_range 0 362 ++ 362 :: int_range 363 640)
        by (vm_compute; reflexivity).
      rewrite fold_left_app. cbn [fold_left].
      destruct (fold_left (fill_pixel 0) (int_range 0 362) (Some image))
        as [image'|]; [|apply fill_pixel_none].
      replace (fill_pixel 0 (Some image') 362) with (@None (list Z));
        [apply fill_pixel_none|].
      unfold fill_pixel.
      replace (cast_uchar (green_value 362)) with (@None Z)
        by (vm_compute; reflexivity).
      destruct (cast_uchar (red_value 0)); reflexivity. }
    rewrite E. apply fill_rows_none.
Qed.

End Gradient.
